(** * Session lifecycle of the cloud-gaming coordinator

    A shallow embedding of [coordinator/app/webrtc/webrtc.go] (the WebRTC
    bridge) and of the session manager ([startSession], [NewSession] and
    the exit callback), with the properties of the written specification
    stated over it.

    The bridge runs several goroutines per session (the health-check
    worker, the handlers the WebRTC library invokes, the goroutine that
    happens to run the exit callback).  They are modelled as a pool of
    continuations over a shared store, stepped one instruction at a time
    by an arbitrary scheduler. *)

From stdpp Require Import base list strings.
From Stdlib Require Import ZArith Lia.

Set Warnings "-register-all".
Open Scope Z_scope.

(** ** Collaborators the two packages call into *)

Inductive listener := VideoListener | AudioListener | WineListener.
Inductive stream := VideoStream | AudioStream | InputStream.

(** pion's [webrtc.ICEConnectionState]. *)
Inductive ice_state :=
| ICENew | ICEChecking | ICEConnected | ICECompleted
| ICEDisconnected | ICEFailed | ICEClosed.

Inductive logline :=
| LogIceConnected                 (* "ICE Connected succeeded" *)
| LogIceFailed (st : ice_state)   (* "ICE Connected failed: %s" *)
| LogHealthCheckFailed            (* "Health-check failed" *)
| LogReleasing.                   (* "Releasing allocated resources" *)

(** Calls that return to the caller without touching the bridge's own
    store: the logger, the peer connection, the data channels, the
    sandbox script, the listening sockets, the Go channels used as
    queues, the relayer. *)
Inductive call :=
| Log (l : logline)
| StartStreaming                  (* w.startStreaming(videoTrack, opusTrack) *)
| ConnClose                       (* w.conn.Close() *)
| InputTrackClose                 (* w.inputTrack.Close() *)
| HealthTrackClose                (* w.healthTrack.Close() *)
| StopVM                          (* stopVM(id), its error only logged *)
| ListenerClose (l : listener)    (* _ = l.Close() *)
| StreamClose (c : stream)        (* close(c) *)
| RelayerClose.                   (* relayer.Close() *)

#[global] Instance listener_eq_dec : EqDecision listener.
Proof. solve_decision. Defined.
#[global] Instance stream_eq_dec : EqDecision stream.
Proof. solve_decision. Defined.
#[global] Instance ice_state_eq_dec : EqDecision ice_state.
Proof. solve_decision. Defined.
#[global] Instance logline_eq_dec : EqDecision logline.
Proof. solve_decision. Defined.
#[global] Instance call_eq_dec : EqDecision call.
Proof. solve_decision. Defined.

(** ** The world outside the two packages

    Sockets, the sandbox scripts, the relayer, the WebRTC library and the
    signaling connection are reached through calls that may fail.  The
    world records what exists after each call; an [oracle] says which
    calls fail while one signaling message is handled. *)
Module Env.

Definition socket : Type := listener * Z.      (* role and bound port *)
Definition bridge : Type := nat.               (* a *webrtc.WebRTC, by creation order *)

(** ws.Message *)
Record Message := mkMessage { Type_ : string; Data : string }.

(** The fallible calls of [startSession], in source order. *)
Inductive start_step :=
| SNewVideoListener | SExtractVideoPort
| SNewAudioListener | SExtractAudioPort
| SNewWineListener | SExtractWinePort
| SRelayerStart | SStartVM | SNewWebRTC
| SVideoTrack        (* StartClient: webrtc.NewTrackLocalStaticRTP for video *)
| SStartClientRest   (* StartClient: any later step *)
| SSendOffer.

(** What a remote description or candidate meets in the bridge. *)
Inductive verdict :=
| Accepted
| Malformed          (* utils.DecodeBase64 fails *)
| Rejected.          (* the peer connection refuses it *)

Record oracle := mkOracle {
  fails : start_step -> bool;
  offer : string;                (* the encoded offer StartClient returns *)
  answer : verdict               (* for SetRemoteSDP and AddCandidate *)
}.

Inductive logged :=
| Couldnt (s : start_step)       (* the error line of a failed step *)
| CouldntStartClient             (* "Couldn't start webrtc client" *)
| WaitAt (l : listener) (port : Z)
| SpinningOffVM
| StoppingVM
| DecodeFailed                   (* bridge: "Decode ... from peer failed" *)
| ApplyFailed                    (* bridge: "Set remote description / Add Ice candidate ... failed" *)
| ErrStartingSession
| ErrSetRemoteSDP
| ErrSetIceCandidate
| ErrParseMessage
| ErrReadMessage
| ErrUpgrade.

Inductive wire_event :=
| Sent (m : Message)                         (* wsConn.Send *)
| CalledSetRemoteSDP (b : bridge) (sdp : string)
| CalledAddCandidate (b : bridge) (c : string)
| Logged (l : logged)
| WsClosed.                                   (* the deferred conn.Close() *)
Arguments CalledSetRemoteSDP b%_nat sdp.
Arguments CalledAddCandidate b%_nat c.

Record world := mkWorld {
  next_port : Z;                              (* next free ephemeral port *)
  sockets : list socket;                      (* listening sockets that are open *)
  relayers : list (socket * socket * socket); (* relayers started, not closed *)
  vms : list (string * (Z * Z * Z));          (* sandboxes launched, not stopped *)
  bridges : list (option string);             (* per bridge: MIME of its video track *)
  stopped : list bridge;                      (* bridges whose StopClient ran *)
  wire : list wire_event                      (* newest first *)
}.

Definition with_port (p : Z) (w : world) : world :=
  mkWorld p (sockets w) (relayers w) (vms w) (bridges w) (stopped w) (wire w).
Definition with_sockets (l : list socket) (w : world) : world :=
  mkWorld (next_port w) l (relayers w) (vms w) (bridges w) (stopped w) (wire w).
Definition with_relayers (l : list (socket * socket * socket)) (w : world) : world :=
  mkWorld (next_port w) (sockets w) l (vms w) (bridges w) (stopped w) (wire w).
Definition with_vms (l : list (string * (Z * Z * Z))) (w : world) : world :=
  mkWorld (next_port w) (sockets w) (relayers w) l (bridges w) (stopped w) (wire w).
Definition with_bridges (l : list (option string)) (w : world) : world :=
  mkWorld (next_port w) (sockets w) (relayers w) (vms w) l (stopped w) (wire w).
Definition with_stopped (l : list bridge) (w : world) : world :=
  mkWorld (next_port w) (sockets w) (relayers w) (vms w) (bridges w) l (wire w).
Definition record (e : wire_event) (w : world) : world :=
  mkWorld (next_port w) (sockets w) (relayers w) (vms w) (bridges w) (stopped w) (e :: wire w).

(** Position of a step in [startSession]. *)
Definition step_index (s : start_step) : nat :=
  match s with
  | SNewVideoListener => 0 | SExtractVideoPort => 1
  | SNewAudioListener => 2 | SExtractAudioPort => 3
  | SNewWineListener => 4 | SExtractWinePort => 5
  | SRelayerStart => 6 | SStartVM => 7 | SNewWebRTC => 8
  | SVideoTrack => 9 | SStartClientRest => 10
  | SSendOffer => 11
  end%nat.

(** The oracle under which exactly the step [f] fails. *)
Definition fail_at (f : start_step) : start_step -> bool :=
  fun s => Nat.eqb (step_index s) (step_index f).

Definition never_fails : start_step -> bool := fun _ => false.

(** A world with nothing allocated, the next free port being [p]. *)
Definition world0 (p : Z) : world := mkWorld p [] [] [] [] [] [].

(** No open socket sits on a port the OS has yet to hand out. *)
Definition ports_below (w : world) : Prop :=
  Forall (fun s : socket => snd s < next_port w) (sockets w).

(** Calls that change the world and may return an error ([None]). *)
Definition M (A : Type) : Type := world -> option A * world.

Definition ret {A} (a : A) : M A := fun w => (Some a, w).

Definition bind {A B} (m : M A) (f : A -> M B) : M B :=
  fun w => match m w with
           | (Some a, w') => f a w'
           | (None, w') => (None, w')
           end.

Definition fail {A} : M A := fun w => (None, w).
Definition say (l : logged) : M unit := fun w => (Some tt, record (Logged l) w).

(** [if err != nil { log...; return nil, err }] around a call. *)
Definition or_log {A} (l : logged) (m : M A) : M A :=
  fun w => match m w with
           | (None, w') => (None, record (Logged l) w')
           | r => r
           end.

(** Modelled from the spec: the port broker ([coordinator/pkg/socket]).
    Each call binds a fresh ephemeral port assigned by the OS and hands the
    open socket to the caller; the broker closes nothing. *)
Definition NewRandomListener (role : listener) (failed : bool) : M socket :=
  fun w => if failed then (None, w)
           else let s := (role, next_port w) in
                (Some s, with_sockets (sockets w ++ [s]) (with_port (next_port w + 1) w)).

(** Modelled from the spec: [socket.ExtractPort], the port number taken
    from the socket's local address. *)
Definition ExtractPort (failed : bool) (s : socket) : M Z :=
  if failed then fail else ret (snd s).

(** Modelled from the spec: [stream.NewStreamRelayer] followed by
    [relayer.Start], which launches the relayer's workers on the three
    sockets. *)
Definition relayerStart (failed : bool) (v a i : socket) : M unit :=
  fun w => if failed then (None, w)
           else (Some tt, with_relayers (relayers w ++ [(v, a, i)]) w).

End Env.

Notation "'let*' x ':=' m 'in' f" := (Env.bind m (fun x => f))
  (at level 10, x name, m at level 100, f at level 200).

Module Webrtc.

(** const MaxMissedHealthCheck int = 5 *)
Definition MaxMissedHealthCheck : Z := 5.

(** Modelled from the spec: the MIME constants of the WebRTC library
    ([webrtc.MimeTypeH264], [webrtc.MimeTypeVP8]), which the codec registry
    of the specification gives as video/H264 and video/VP8. *)
Definition MimeTypeH264 : string := "video/H264".
Definition MimeTypeVP8 : string := "video/VP8".

Definition verbalCodecToMime (vCodec : string) : string :=
  if String.eqb vCodec "h264" then MimeTypeH264
  else if String.eqb vCodec "vpx" then MimeTypeVP8
  else MimeTypeVP8.


(** *** Calls of the session manager into the bridge *)
Import Env.

(** [NewWebRTC]: the new bridge has no tracks yet. *)
Definition NewWebRTC (failed : bool) : M bridge :=
  fun w => if failed then (None, w)
           else (Some (length (bridges w)), with_bridges (bridges w ++ [None]) w).

(** [StartClient]: the video track is created first, with the MIME type of
    [vCodec]; the remaining steps end in the encoded offer. *)
Definition StartClient (o : oracle) (b : bridge) (vCodec : string) : M string :=
  let* _ := (fun w => if fails o SVideoTrack then (None, w)
                      else (Some tt, with_bridges
                                       (<[b := Some (verbalCodecToMime vCodec)]> (bridges w)) w)) in
  if fails o SStartClientRest then fail else ret (offer o).

Definition apply_remote (v : verdict) : M unit :=
  match v with
  | Malformed => let* _ := say DecodeFailed in fail
  | Rejected => let* _ := say ApplyFailed in fail
  | Accepted => ret tt
  end.

Definition SetRemoteSDP (v : verdict) (b : bridge) (remoteSDP : string) : M unit :=
  fun w => apply_remote v (record (CalledSetRemoteSDP b remoteSDP) w).

Definition AddCandidate (v : verdict) (b : bridge) (candidate : string) : M unit :=
  fun w => apply_remote v (record (CalledAddCandidate b candidate) w).

(** *** The app-input data channel *)

Record Packet := mkPacket { pkt_type : string; pkt_data : string }.

(** A buffered Go channel. *)
Record chan (A : Type) := mkChan { buf : list A; cap : nat; closed : bool }.
Arguments mkChan {A}.
Arguments buf {A}.
Arguments cap {A}.
Arguments closed {A}.


Inductive send_result (A : Type) :=
| SendDone (c : chan A)       (* the value is in the buffer *)
| SendBlocks                  (* the buffer is full: the sender waits *)
| SendPanics.                 (* send on a closed channel *)
Arguments SendDone {A}.
Arguments SendBlocks {A}.
Arguments SendPanics {A}.

(** [c <- x] *)
Definition chan_send {A} (c : chan A) (x : A) : send_result A :=
  if closed c then SendPanics
  else if Nat.ltb (length (buf c)) (cap c) then SendDone (mkChan (buf c ++ [x]) (cap c) false)
  else SendBlocks.

Inductive handled :=
| LoggedAndDropped            (* parse error: log line, return *)
| Enqueued (c : chan Packet)
| Blocked                     (* the handler waits in [w.eventChannel <- &msg] *)
| Panicked.

(** [inputTrack.OnMessage]; [parsed] is what [json.Unmarshal] makes of the
    payload. *)
Definition inputOnMessage (parsed : option Packet) (eventChannel : chan Packet) : handled :=
  match parsed with
  | None => LoggedAndDropped
  | Some msg =>
      match chan_send eventChannel msg with
      | SendDone c => Enqueued c
      | SendBlocks => Blocked
      | SendPanics => Panicked
      end
  end.

(** *** Goroutine code *)


(** Which path entered [w.exitOnce.Do(exitCb)]. *)
Inductive caller := ByIce | ByHealth.

(** One instruction of a goroutine.  [IncrAndTest on_max] is the critical
    section of the worker, [missedHealthCheckCounts += 1] followed by the
    test against [MaxMissedHealthCheck]; the worker holds [lock] around it,
    so no reset can fall between the two. *)
Inductive instr :=
| Call (c : call)
| Lock                                      (* lock.Lock() *)
| Unlock                                    (* lock.Unlock() *)
| IncrAndTest (on_max : list instr)
| ResetCount                                (* missedHealthCheckCounts = 0 *)
| Sleep (ms : Z)                            (* time.Sleep *)
| OnceDo (who : caller)                     (* w.exitOnce.Do(exitCb) *)
| OnceRet                                   (* exitCb returned inside Do *)
| SendClosed                                (* w.closed <- struct{}{} *)
| RecvClosedOrDefault (on_recv : list instr) (* select { case <-w.closed: on_recv; default: } *)
| Return
| Forever (body : list instr).              (* for { body } *)

Definition thread := list instr.

(** The goroutine started by [addHealthCheck]. *)
Definition healthWorker : thread :=
  [Forever [RecvClosedOrDefault [Return];
            Lock;
            IncrAndTest [Call (Log LogHealthCheckFailed);
                         OnceDo ByHealth;
                         Return];
            Unlock;
            Sleep 2000]].

(** [healthTrack.OnMessage]. *)
Definition healthOnMessage : thread := [Lock; ResetCount; Unlock].

Definition is_connected (st : ice_state) : bool :=
  match st with ICEConnected => true | _ => false end.

Definition is_terminal (st : ice_state) : bool :=
  match st with ICEFailed | ICEClosed | ICEDisconnected => true | _ => false end.

(** The handler registered with [w.conn.OnICEConnectionStateChange]. *)
Definition onICEConnectionStateChange (st : ice_state) : thread :=
  (if is_connected st then [Call (Log LogIceConnected); Call StartStreaming] else [])
  ++ (if is_terminal st then [Call (Log (LogIceFailed st)); OnceDo ByIce] else []).

Definition StopClient : thread :=
  [Call ConnClose; Call InputTrackClose; Call HealthTrackClose; SendClosed].

(** *** Shared store and scheduler *)

(** [sync.Once]: not yet entered, running its function, done. *)
Inductive once_state := OnceFresh | OnceRunning | OnceDone.

Inductive event :=
| EvCall (c : call)
| EvExitCb (who : caller)     (* exitOnce starts running exitCb *)
| EvTick (n : Z)              (* the worker raised the counter to n *)
| EvHealthMsg                 (* a health-check message reset the counter *)
| EvSleep (ms : Z).

#[global] Instance caller_eq_dec : EqDecision caller.
Proof. solve_decision. Defined.
#[global] Instance event_eq_dec : EqDecision event.
Proof. solve_decision. Defined.

Record state := mkState {
  exitOnce : once_state;
  lock : bool;                          (* is the mutex held *)
  missedHealthCheckCounts : Z;
  pool : list thread;                   (* goroutines, as continuations *)
  log : list event                      (* what happened, newest first *)
}.

Definition history (s : state) : list event := reverse (log s).

Definition set_thread (i : nat) (t : thread) (s : state) : state :=
  mkState (exitOnce s) (lock s) (missedHealthCheckCounts s) (<[i := t]> (pool s)) (log s).

Definition set_once (o : once_state) (s : state) : state :=
  mkState o (lock s) (missedHealthCheckCounts s) (pool s) (log s).

Definition set_lock (b : bool) (s : state) : state :=
  mkState (exitOnce s) b (missedHealthCheckCounts s) (pool s) (log s).

Definition set_count (n : Z) (s : state) : state :=
  mkState (exitOnce s) (lock s) n (pool s) (log s).

Definition emit (e : event) (s : state) : state :=
  mkState (exitOnce s) (lock s) (missedHealthCheckCounts s) (pool s) (e :: log s).

Definition spawn (t : thread) (s : state) : state :=
  mkState (exitOnce s) (lock s) (missedHealthCheckCounts s) (pool s ++ [t]) (log s).

Definition is_sending (t : thread) : bool :=
  match t with SendClosed :: _ => true | _ => false end.

(** The first goroutine blocked in a send on the unbuffered [w.closed]. *)
Fixpoint find_sender (p : list thread) : option nat :=
  match p with
  | [] => None
  | t :: p' => if is_sending t then Some 0%nat else S <$> find_sender p'
  end.

(** Goroutine [i], whose continuation is [ins :: k], executes [ins].
    [None]: the goroutine cannot move now (it is blocked). *)
Definition exec (exitCb : thread) (ins : instr) (k : thread) (i : nat) (s : state)
  : option state :=
  match ins with
  | Call c => Some (emit (EvCall c) (set_thread i k s))
  | Lock => if lock s then None else Some (set_lock true (set_thread i k s))
  | Unlock => Some (set_lock false (set_thread i k s))
  | IncrAndTest on_max =>
      let n := missedHealthCheckCounts s + 1 in
      let k' := if Z.eqb n MaxMissedHealthCheck then on_max ++ k else k in
      Some (emit (EvTick n) (set_count n (set_thread i k' s)))
  | ResetCount => Some (emit EvHealthMsg (set_count 0 (set_thread i k s)))
  | Sleep ms => Some (emit (EvSleep ms) (set_thread i k s))
  | OnceDo who =>
      match exitOnce s with
      | OnceDone => Some (set_thread i k s)
      | OnceRunning => None
      | OnceFresh =>
          Some (emit (EvExitCb who)
                  (set_once OnceRunning (set_thread i (exitCb ++ OnceRet :: k) s)))
      end
  | OnceRet => Some (set_once OnceDone (set_thread i k s))
  | SendClosed => None
  | RecvClosedOrDefault on_recv =>
      match find_sender (pool s) with
      | Some j =>
          match pool s !! j with
          | Some tj => Some (set_thread i (on_recv ++ k) (set_thread j (tail tj) s))
          | None => None
          end
      | None => Some (set_thread i k s)
      end
  | Return => Some (set_thread i [] s)
  | Forever body => Some (set_thread i (body ++ Forever body :: k) s)
  end.

(** What the scheduler and the peer can do next. *)
Inductive label :=
| Run (i : nat)                         (* goroutine i takes a step *)
| IceStateChange (st : ice_state)       (* the library calls the ICE handler *)
| HealthMessage.                        (* a message on the health-check channel *)
Arguments Run i%_nat.

Definition step (exitCb : thread) (s : state) (l : label) : option state :=
  match l with
  | Run i =>
      match pool s !! i with
      | Some (ins :: k) => exec exitCb ins k i s
      | _ => None
      end
  | IceStateChange st => Some (spawn (onICEConnectionStateChange st) s)
  | HealthMessage => Some (spawn healthOnMessage s)
  end.

Fixpoint run (exitCb : thread) (s : state) (ls : list label) : option state :=
  match ls with
  | [] => Some s
  | l :: ls' =>
      match step exitCb s l with
      | Some s' => run exitCb s' ls'
      | None => None
      end
  end.

(** The bridge when [addHealthCheck] has returned: counter 0, mutex free,
    latch untouched, the worker started. *)
Definition init : state := mkState OnceFresh false 0 [healthWorker] [].

Definition reachable (exitCb : thread) (s : state) : Prop :=
  exists ls, run exitCb init ls = Some s.

End Webrtc.

Module Session.
Import Env Webrtc.

(** Modelled from the spec: the message type constants of the package
    [coordinator/constants]; a signaling message's type is one of START,
    SDP and ICE. *)
Definition StartMessage : string := "START".
Definition SDPMessage : string := "SDP".
Definition IceCandidateMessage : string := "ICE".

Definition startVM (failed : bool) (id : string) (videoRelayPort audioRelayPort winePort : Z)
  : M unit :=
  let* _ := say SpinningOffVM in
  fun w => if failed then (None, w)
           else (Some tt, with_vms (vms w ++ [(id, (videoRelayPort, audioRelayPort, winePort))]) w).

Definition sendOffer (failed : bool) (off : string) : M unit :=
  fun w => if failed then (None, w)
           else (Some tt, record (Sent (mkMessage SDPMessage off)) w).

Definition startSession (o : oracle) (id : string) : M bridge :=
  let* videoListener := or_log (Couldnt SNewVideoListener)
                     (NewRandomListener VideoListener (fails o SNewVideoListener)) in
  let* videoRelayPort := or_log (Couldnt SExtractVideoPort)
                      (ExtractPort (fails o SExtractVideoPort) videoListener) in
  let* audioListener := or_log (Couldnt SNewAudioListener)
                     (NewRandomListener AudioListener (fails o SNewAudioListener)) in
  let* audioRelayPort := or_log (Couldnt SExtractAudioPort)
                      (ExtractPort (fails o SExtractAudioPort) audioListener) in
  let* wineListener := or_log (Couldnt SNewWineListener)
                    (NewRandomListener WineListener (fails o SNewWineListener)) in
  let* winePort := or_log (Couldnt SExtractWinePort)
                (ExtractPort (fails o SExtractWinePort) wineListener) in
  let* _ := say (WaitAt VideoListener videoRelayPort) in
  let* _ := say (WaitAt AudioListener audioRelayPort) in
  let* _ := say (WaitAt WineListener winePort) in
  let* _ := or_log (Couldnt SRelayerStart)
         (relayerStart (fails o SRelayerStart) videoListener audioListener wineListener) in
  let* _ := or_log (Couldnt SStartVM)
         (startVM (fails o SStartVM) id videoRelayPort audioRelayPort winePort) in
  let* webrtcConn := NewWebRTC (fails o SNewWebRTC) in
  let* off := or_log CouldntStartClient (StartClient o webrtcConn "vpx") in
  let* _ := or_log (Couldnt SSendOffer) (sendOffer (fails o SSendOffer) off) in
  ret webrtcConn.


(** The exit callback [onExitCb] built by [startSession]. *)
Definition onExitCb : thread :=
  [Call (Log LogReleasing); Call StopVM]
  ++ StopClient
  ++ [Call (ListenerClose AudioListener);
      Call (ListenerClose VideoListener);
      Call (ListenerClose WineListener);
      Call (StreamClose VideoStream);
      Call (StreamClose AudioStream);
      Call (StreamClose InputStream);
      Call RelayerClose].

(** The values [onExitCb] closes over. *)
Record captured := mkCaptured {
  cap_id : string;
  cap_video : socket;
  cap_audio : socket;
  cap_wine : socket;
  cap_bridge : bridge
}.

Definition cap_listener (r : captured) (l : listener) : socket :=
  match l with
  | VideoListener => cap_video r
  | AudioListener => cap_audio r
  | WineListener => cap_wine r
  end.

(** What a call of [onExitCb] does to the world.  Modelled from the
    spec: [stopVM.sh] stops the sandbox of the given id, closing a
    listener releases its socket, [relayer.Close] stops the relayer. *)
Definition release (r : captured) (c : call) (w : world) : world :=
  match c with
  | StopVM =>
      with_vms (filter (fun v => fst v <> cap_id r) (vms w)) (record (Logged StoppingVM) w)
  | ConnClose => with_stopped (cap_bridge r :: stopped w) w
  | ListenerClose l =>
      with_sockets (filter (fun s => s <> cap_listener r l) (sockets w)) w
  | RelayerClose =>
      with_relayers
        (filter (fun x => x <> (cap_video r, cap_audio r, cap_wine r)) (relayers w)) w
  | _ => w
  end.

Definition calls_of (t : thread) : list call :=
  omap (fun i => match i with Call c => Some c | _ => None end) t.

(** The world after every call of the exit callback has been made. *)
Definition torn_down (r : captured) (w : world) : world :=
  foldl (fun w c => release r c w) w (calls_of onExitCb).

(** What the read loop of [NewSession] gets from [conn.ReadText] and
    [json.Unmarshal]. *)
Inductive frame :=
| ReadFails (going_away : bool)   (* ReadText returns an error *)
| Unparsable                      (* text that json.Unmarshal rejects *)
| Parsed (msg : Message) (o : oracle).

(** The [switch msg.Type] of the read loop; the result is the new value
    of the local [webrtcConn]. *)
Definition dispatch (sessionId : string) (msg : Message) (o : oracle)
    (webrtcConn : option bridge) (w : world) : option bridge * world :=
  if String.eqb (Type_ msg) StartMessage then
    match startSession o sessionId w with
    | (Some b, w') => (Some b, w')
    | (None, w') => (None, record (Logged ErrStartingSession) w')
    end
  else if String.eqb (Type_ msg) SDPMessage then
    match webrtcConn with
    | None => (None, w)
    | Some b =>
        match SetRemoteSDP (answer o) b (Data msg) w with
        | (Some _, w') => (Some b, w')
        | (None, w') => (None, record (Logged ErrSetRemoteSDP) w')
        end
    end
  else if String.eqb (Type_ msg) IceCandidateMessage then
    match webrtcConn with
    | None => (None, w)
    | Some b =>
        match AddCandidate (answer o) b (Data msg) w with
        | (Some _, w') => (Some b, w')
        | (None, w') => (Some b, record (Logged ErrSetIceCandidate) w')
        end
    end
  else (webrtcConn, w).

(** The [for] loop of [NewSession] over the frames that arrive. *)
Fixpoint serve (sessionId : string) (webrtcConn : option bridge) (frames : list frame)
    (w : world) : option bridge * world :=
  match frames with
  | [] => (webrtcConn, w)
  | ReadFails going_away :: _ =>
      (webrtcConn,
       record WsClosed (if going_away then w else record (Logged ErrReadMessage) w))
  | Unparsable :: rest =>
      serve sessionId webrtcConn rest (record (Logged ErrParseMessage) w)
  | Parsed msg o :: rest =>
      let '(h, w') := dispatch sessionId msg o webrtcConn w in
      serve sessionId h rest w'
  end.

Definition NewSession (upgraded : bool) (sessionId : string) (frames : list frame)
    (w : world) : option bridge * world :=
  if upgraded then serve sessionId None frames w
  else (None, record (Logged ErrUpgrade) w).

End Session.


(** ** The application catalog (package [apps] of [apps.go]) *)
Module Apps.

Record App := mkApp {
  Name : string;
  Type_ : string;
  PosterURL : string;
  Device : list string
}.

(** A Go slice value: the nil slice, or a sequence (possibly empty). *)
Inductive slice (A : Type) :=
| Nil
| Elems (l : list A).
Arguments Nil {A}.
Arguments Elems {A}.

(** What [range] visits. *)
Definition elems {A} (s : slice A) : list A :=
  match s with Nil => [] | Elems l => l end.

(** [append(s, x)] *)
Definition append {A} (s : slice A) (x : A) : slice A := Elems (elems s ++ [x]).

Record GetAppListResponse := mkResponse { Apps : slice App }.

(** The loop of [GetAppList] that fills [filteredAppList]; [InStringSlice]
    is the helper of the package [coordinator/utils].  The entries of the
    catalog are the records that [yaml.Unmarshal] allocated, none of them
    nil. *)
Definition filteredAppList (InStringSlice : list string -> string -> bool)
    (appList : slice App) (device : string) : slice App :=
  foldl (fun acc app => if InStringSlice (Device app) device then append acc app else acc)
        Nil (elems appList).

(** The value [GetAppList] marshals.  [deviceParams] is the result of
    [r.URL.Query()["device"]]: absent, or the values of the parameter.
    [None]: the index expression [deviceParams[0]] panics. *)
Definition response (InStringSlice : list string -> string -> bool)
    (appList : slice App) (deviceParams : option (list string)) : option GetAppListResponse :=
  match deviceParams with
  | None => Some (mkResponse appList)
  | Some [] => None
  | Some (device :: _) =>
      if Nat.ltb 0 (String.length device)
      then Some (mkResponse (filteredAppList InStringSlice appList device))
      else Some (mkResponse appList)
  end.

(** Calls on the [http.ResponseWriter]. *)
Inductive rw_call :=
| HeaderSet (key value : string)
| WriteHeader (code : nat)
| Write (resp : GetAppListResponse) (failed : bool).   (* the marshalled response *)

Definition StatusOK : nat := 200.
Definition StatusInternalServerError : nat := 500.

Definition GetAppList (InStringSlice : list string -> string -> bool)
    (appList : slice App) (deviceParams : option (list string))
    (marshal_fails write_fails : bool) : option (list rw_call) :=
  match response InStringSlice appList deviceParams with
  | None => None
  | Some resp =>
      Some (if marshal_fails then [WriteHeader StatusInternalServerError]
            else [HeaderSet "Content-Type" "application/json";
                  WriteHeader StatusOK;
                  Write resp write_fails]
                 ++ (if write_fails then [WriteHeader StatusInternalServerError] else []))
  end.

End Apps.

(** ** The bridge object ([webrtc.go]): construction and [StartClient] *)
Module Bridge.

Record PortRange := mkPortRange { Min : Z; Max : Z }.

Record Config := mkConfig {
  SinglePort : Z;
  ConfPortRange : PortRange;
  IceIpMap : string;
  DisableDefaultInterceptors : bool
}.

(** [webrtcConf := &webrtc.Config{}], the configuration [startSession]
    passes. *)
Definition webrtcConf : Config := mkConfig 0 (mkPortRange 0 0) "" false.

(** What the code can set on a [webrtc.SettingEngine]. *)
Record SettingEngine := mkSettingEngine {
  ephemeralUDPPortRange : option (Z * Z);   (* SetEphemeralUDPPortRange(min, max) *)
  iceUDPMux : option Z;                     (* SetICEUDPMux on a listener bound to this port *)
  nat1To1IPs : option string                (* SetNAT1To1IPs([ip], host) *)
}.

(** [webrtc.SettingEngine{}] *)
Definition zeroSettingEngine : SettingEngine := mkSettingEngine None None None.

(** The package variables [settings] and [settingOnce]. *)
Record globals := mkGlobals {
  settings : SettingEngine;
  settingOnce : bool               (* has Do been entered *)
}.

Definition globals0 : globals := mkGlobals zeroSettingEngine false.

(** How the library answers during one [NewWebRTC]. *)
Record nw_oracle := mkNwOracle {
  codecs_fail : bool;              (* m.RegisterDefaultCodecs() *)
  interceptors_fail : bool;        (* webrtc.RegisterDefaultInterceptors(m, i) *)
  range_rejected : bool;           (* SetEphemeralUDPPortRange returns an error *)
  port_roll : option Z;            (* socket.NewSocketPortRoll: the port bound, or an error *)
  peer_fails : bool                (* api.NewPeerConnection *)
}.

(** The function passed to [settingOnce.Do]; [None]: it panics. *)
Definition configure (conf : Config) (o : nw_oracle) : option SettingEngine :=
  let ranged :=
    if Z.ltb 0 (Min (ConfPortRange conf)) && Z.ltb 0 (Max (ConfPortRange conf)) then
      if range_rejected o then None
      else Some (mkSettingEngine
                   (Some (Min (ConfPortRange conf), Max (ConfPortRange conf))) None None)
    else if Z.ltb 0 (SinglePort conf) then
      match port_roll o with
      | None => None
      | Some p => Some (mkSettingEngine None (Some p) None)
      end
    else Some zeroSettingEngine in
  match ranged with
  | None => None
  | Some se =>
      Some (if String.eqb (IceIpMap conf) "" then se
            else mkSettingEngine (ephemeralUDPPortRange se) (iceUDPMux se) (Some (IceIpMap conf)))
  end.

Record track := mkTrack { MimeType : string; trackID : string; streamID : string }.

(** The [WebRTC] struct with what the model keeps of its peer
    connection. *)
Record WebRTC := mkWebRTC {
  engine : SettingEngine;          (* the settings the API was built with *)
  defaultInterceptors : bool;      (* default interceptors registered *)
  tracks : list track;             (* conn.AddTrack, in order *)
  dataChannels : list string;      (* conn.CreateDataChannel labels, in order *)
  inputTrack : option string;      (* w.inputTrack, nil at first *)
  healthTrack : option string;     (* w.healthTrack, nil at first *)
  inputOnMessage : bool;           (* inputTrack.OnMessage registered *)
  healthOnMessage : bool;          (* healthTrack.OnMessage registered *)
  healthWorker : bool;             (* the goroutine of addHealthCheck started *)
  onICEConnectionStateChange : bool;
  onICECandidate : bool;
  localDescription : option string
}.

(** The struct [NewWebRTC] returns. *)
Definition newBridge (se : SettingEngine) (interceptors : bool) : WebRTC :=
  mkWebRTC se interceptors [] [] None None false false false false false None.

Inductive outcome (A : Type) :=
| Returned (a : A)
| Failed                           (* an error is returned *)
| Panicked.
Arguments Returned {A}.
Arguments Failed {A}.
Arguments Panicked {A}.

(** [NewWebRTC].  [sync.Once] counts a call of [Do] whose function panics
    as done. *)
Definition NewWebRTC (conf : Config) (o : nw_oracle) (g : globals)
  : outcome WebRTC * globals :=
  if codecs_fail o then (Failed, g)
  else if negb (DisableDefaultInterceptors conf) && interceptors_fail o then (Failed, g)
  else
    let done :=
      if settingOnce g then Some g
      else match configure conf o with
           | Some se => Some (mkGlobals se true)
           | None => None
           end in
    match done with
    | None => (Panicked, mkGlobals (settings g) true)
    | Some g' =>
        if peer_fails o then (Failed, g')
        else (Returned (newBridge (settings g') (negb (DisableDefaultInterceptors conf))), g')
    end.

(** A process serving one [NewWebRTC] after another. *)
Fixpoint serve_calls (g : globals) (calls : list (Config * nw_oracle))
  : list (outcome WebRTC) * globals :=
  match calls with
  | [] => ([], g)
  | (conf, o) :: rest =>
      let '(r, g1) := NewWebRTC conf o g in
      let '(rs, g2) := serve_calls g1 rest in
      (r :: rs, g2)
  end.

(** The fallible library calls of [StartClient], in source order. *)
Inductive sc_step :=
| SCNewVideoTrack | SCAddVideoTrack
| SCNewOpusTrack | SCAddOpusTrack
| SCCreateInputChannel             (* addInputTrack: CreateDataChannel("app-input") *)
| SCCreateHealthChannel            (* addHealthCheck: CreateDataChannel("health-check") *)
| SCCreateOffer | SCSetLocalDescription
| SCEncodeOffer.                   (* utils.EncodeBase64(offer) *)

Definition before_arming : list sc_step :=
  [SCNewVideoTrack; SCAddVideoTrack; SCNewOpusTrack; SCAddOpusTrack;
   SCCreateInputChannel; SCCreateHealthChannel].

Definition after_arming : list sc_step :=
  [SCCreateOffer; SCSetLocalDescription; SCEncodeOffer].

Record sc_oracle := mkScOracle {
  sc_fails : sc_step -> bool;
  sc_offer : string;               (* what conn.CreateOffer returns *)
  sc_encoded : string              (* its encoding *)
}.

(** Modelled from the spec: the MIME constant of the WebRTC library for
    the audio track ([webrtc.MimeTypeOpus]), which the codec registry of
    the specification gives as Opus. *)
Definition MimeTypeOpus : string := "audio/opus".

Definition B (A : Type) : Type := WebRTC -> option A * WebRTC.

Definition bret {A} (a : A) : B A := fun w => (Some a, w).

Definition bbind {A B'} (m : B A) (f : A -> B B') : B B' :=
  fun w => match m w with
           | (Some a, w') => f a w'
           | (None, w') => (None, w')
           end.

(** A library call that fails or changes the bridge. *)
Definition lib (failed : bool) (change : WebRTC -> WebRTC) : B unit :=
  fun w => if failed then (None, w) else (Some tt, change w).

Definition add_track (t : track) (w : WebRTC) : WebRTC :=
  mkWebRTC (engine w) (defaultInterceptors w) (tracks w ++ [t]) (dataChannels w)
    (inputTrack w) (healthTrack w) (inputOnMessage w) (healthOnMessage w) (healthWorker w)
    (onICEConnectionStateChange w) (onICECandidate w) (localDescription w).

Definition add_channel (label : string) (w : WebRTC) : WebRTC :=
  mkWebRTC (engine w) (defaultInterceptors w) (tracks w) (dataChannels w ++ [label])
    (inputTrack w) (healthTrack w) (inputOnMessage w) (healthOnMessage w) (healthWorker w)
    (onICEConnectionStateChange w) (onICECandidate w) (localDescription w).

(** [w.inputTrack = inputTrack; inputTrack.OnMessage(...)] *)
Definition keep_input (label : string) (w : WebRTC) : WebRTC :=
  mkWebRTC (engine w) (defaultInterceptors w) (tracks w) (dataChannels w)
    (Some label) (healthTrack w) true (healthOnMessage w) (healthWorker w)
    (onICEConnectionStateChange w) (onICECandidate w) (localDescription w).

(** [w.healthTrack = healthTrack; go func() {...}(); healthTrack.OnMessage(...)] *)
Definition keep_health (label : string) (w : WebRTC) : WebRTC :=
  mkWebRTC (engine w) (defaultInterceptors w) (tracks w) (dataChannels w)
    (inputTrack w) (Some label) (inputOnMessage w) true true
    (onICEConnectionStateChange w) (onICECandidate w) (localDescription w).

(** [w.conn.OnICEConnectionStateChange(...); w.conn.OnICECandidate(...)] *)
Definition register_ice (w : WebRTC) : WebRTC :=
  mkWebRTC (engine w) (defaultInterceptors w) (tracks w) (dataChannels w)
    (inputTrack w) (healthTrack w) (inputOnMessage w) (healthOnMessage w) (healthWorker w)
    true true (localDescription w).

Definition set_local (sdp : string) (w : WebRTC) : WebRTC :=
  mkWebRTC (engine w) (defaultInterceptors w) (tracks w) (dataChannels w)
    (inputTrack w) (healthTrack w) (inputOnMessage w) (healthOnMessage w) (healthWorker w)
    (onICEConnectionStateChange w) (onICECandidate w) (Some sdp).

Definition addInputTrack (o : sc_oracle) : B unit :=
  bbind (lib (sc_fails o SCCreateInputChannel) (add_channel "app-input"))
    (fun _ => lib false (keep_input "app-input")).

Definition addHealthCheck (o : sc_oracle) : B unit :=
  bbind (lib (sc_fails o SCCreateHealthChannel) (add_channel "health-check"))
    (fun _ => lib false (keep_health "health-check")).

Definition StartClient (vCodec : string) (o : sc_oracle) : B string :=
  bbind (lib (sc_fails o SCNewVideoTrack) id) (fun _ =>
  bbind (lib (sc_fails o SCAddVideoTrack)
           (add_track (mkTrack (Webrtc.verbalCodecToMime vCodec) "video" "pion"))) (fun _ =>
  bbind (lib (sc_fails o SCNewOpusTrack) id) (fun _ =>
  bbind (lib (sc_fails o SCAddOpusTrack)
           (add_track (mkTrack MimeTypeOpus "audio" "pion"))) (fun _ =>
  bbind (addInputTrack o) (fun _ =>
  bbind (addHealthCheck o) (fun _ =>
  bbind (lib false register_ice) (fun _ =>
  bbind (lib (sc_fails o SCCreateOffer) id) (fun _ =>
  bbind (lib (sc_fails o SCSetLocalDescription) (set_local (sc_offer o))) (fun _ =>
  bbind (lib (sc_fails o SCEncodeOffer) id) (fun _ =>
  bret (sc_encoded o))))))))))).

(** The exit callback is held by the worker goroutine and by the ICE
    state handler. *)
Definition armed (w : WebRTC) : bool := healthWorker w || onICEConnectionStateChange w.

End Bridge.

(** ** Local ICE candidates: the handler of [StartClient] and the callback
    of [startSession] *)
Module Ice.
Import Env Session.

(** One call of the handler registered with [w.conn.OnICECandidate]. *)
Record emitted := mkEmitted {
  candidate : option string;       (* nil, or iceCandidate.ToJSON() *)
  encode_fails : bool;             (* utils.EncodeBase64 *)
  encoded : string;                (* its result *)
  send_fails : bool                (* wsConn.Send *)
}.

Inductive ice_log :=
| EncodeCandidateFailed            (* "Encode IceCandidate failed" *)
| CouldntSendCandidate.            (* "Couldn't send candidate" *)

(** The signaling connection as this path sees it. *)
Record conn := mkConn {
  frames : list Message;           (* sent, oldest first *)
  lines : list ice_log             (* logged, oldest first *)
}.

Definition sendIceCandidate (failed : bool) (cand : string) (c : conn) : bool * conn :=
  if failed then (false, c)
  else (true, mkConn (frames c ++ [mkMessage IceCandidateMessage cand]) (lines c)).

Definition onIceCandidateCb (failed : bool) (cand : string) (c : conn) : conn :=
  match sendIceCandidate failed cand c with
  | (true, c') => c'
  | (false, c') => mkConn (frames c') (lines c' ++ [CouldntSendCandidate])
  end.

Definition onICECandidate (e : emitted) (c : conn) : conn :=
  match candidate e with
  | None => c
  | Some _ =>
      if encode_fails e then mkConn (frames c) (lines c ++ [EncodeCandidateFailed])
      else onIceCandidateCb (send_fails e) (encoded e) c
  end.

(** The handler called for each candidate the library emits, in order. *)
Definition gather (es : list emitted) (c : conn) : conn :=
  foldl (fun c e => onICECandidate e c) c es.

End Ice.
Import Env Webrtc Session.

(** ** Vocabulary of the properties *)

Definition vp8_or_none (t : option string) : Prop := t = None \/ t = Some MimeTypeVP8.

(** [w'] has everything [w] has: nothing was closed or stopped, and no
    video track other than VP8 appeared. *)
Record extends (w w' : world) : Prop := {
  ext_sockets : exists l, sockets w' = sockets w ++ l;
  ext_relayers : exists l, relayers w' = relayers w ++ l;
  ext_vms : exists l, vms w' = vms w ++ l;
  ext_stopped : stopped w' = stopped w;
  ext_bridges : Forall vp8_or_none (bridges w) -> Forall vp8_or_none (bridges w');
  ext_count : (length (bridges w) <= length (bridges w'))%nat;
  ext_ports : ports_below w -> ports_below w'
}.

(** The handle of the read loop names a bridge that exists. *)
Definition handle_ok (h : option bridge) (w : world) : Prop :=
  ports_below w /\ forall b, h = Some b -> (b < length (bridges w))%nat.

Definition extending {A} (m : M A) : Prop := forall w, extends w (snd (m w)).

(** The sockets [startSession] has bound when step [f] is reached, [p]
    being the first free port. *)
Definition bound_before (p : Z) (f : start_step) : list socket :=
  match f with
  | SNewVideoListener => []
  | SExtractVideoPort | SNewAudioListener => [(VideoListener, p)]
  | SExtractAudioPort | SNewWineListener => [(VideoListener, p); (AudioListener, p + 1)]
  | _ => [(VideoListener, p); (AudioListener, p + 1); (WineListener, p + 2)]
  end.

Ltac run_start :=
  unfold startSession, bind, or_log, NewRandomListener, ExtractPort, say,
    relayerStart, startVM, NewWebRTC, StartClient, sendOffer, ret, fail.

Ltac same_lists := split; simpl; try done; eauto; by exists []; rewrite app_nil_r.

Create HintDb extending.

(** How many times the exit callback has been started. *)
Fixpoint exit_runs (h : list event) : nat :=
  match h with
  | [] => 0
  | EvExitCb _ :: h' => S (exit_runs h')
  | _ :: h' => exit_runs h'
  end.

(** What the health check sees of a history. *)
Inductive beat := Tick | Msg.

Definition health_view (e : event) : option beat :=
  match e with
  | EvTick _ => Some Tick
  | EvHealthMsg => Some Msg
  | _ => None
  end.

Definition beats (h : list event) : list beat := omap health_view h.

(** The counter as the specification describes it: it starts at 0, each
    tick increments it, each inbound message resets it to 0. *)
Definition spec_counter (v : list beat) : Z :=
  foldl (fun c b => match b with Tick => c + 1 | Msg => 0 end) 0 v.

(** Five consecutive ticks with no message in between. *)
Definition five_silent_ticks (v : list beat) : Prop :=
  exists pre post, v = pre ++ replicate 5 Tick ++ post.

(** The worker took the branch [missedHealthCheckCounts == MaxMissedHealthCheck]. *)
Definition expired (h : list event) : Prop := In (EvTick MaxMissedHealthCheck) h.

(** Code that reaches the expiry branch only through the counter test. *)
Fixpoint guarded (i : instr) : bool :=
  match i with
  | Call (Log LogHealthCheckFailed) => false
  | OnceDo ByHealth => false
  | RecvClosedOrDefault on_recv => forallb guarded on_recv
  | Forever body => forallb guarded body
  | _ => true
  end.

(** Case analysis on a step of goroutine [i], then on any step. *)
Ltac run_cases H :=
  match type of H with
  | step _ ?s (Run ?i) = Some _ =>
      cbn [step] in H;
      let Hi := fresh "Hi" in
      let ins := fresh "ins" in
      let k := fresh "k" in
      destruct (pool s !! i) as [[|ins k]|] eqn:Hi; [discriminate H| |discriminate H];
      destruct ins; cbn [exec] in H;
      repeat (match type of H with
              | context [if ?b then _ else _] => destruct b eqn:?
              | context [match ?x with _ => _ end] => destruct x eqn:?
              end; try discriminate H);
      try discriminate H;
      injection H as H; subst
  end.

Ltac step_cases H :=
  match type of H with
  | step _ ?s ?l = Some _ =>
      destruct l as [i|st|];
      [ run_cases H
      | cbn [step] in H; injection H as H; subst
      | cbn [step] in H; injection H as H; subst ]
  end.

(** Three schedules.  In the first the peer stays silent and only the
    worker runs, up to the last step it can take.  In the second ICE fails
    at once, the handler runs the exit callback up to the send on
    [w.closed], the worker receives and returns, the handler finishes.  In
    the third the worker has logged the expiry when ICE fails, and the ICE
    handler is the first to reach the latch. *)
Definition silent_run : list label := replicate 35 (Run 0).

Definition ice_failure_run : list label :=
  IceStateChange ICEFailed
    :: replicate 7 (Run 1) ++ replicate 3 (Run 0) ++ replicate 8 (Run 1).

Definition double_terminal_run : list label :=
  replicate 29 (Run 0) ++ IceStateChange ICEFailed :: replicate 7 (Run 1).

(** How the counter [c] relates to a history [h]: it is the specified
    counter, and the expiry branch was taken exactly if [h] has five
    silent ticks. *)
Definition health_inv (c : Z) (h : list event) : Prop :=
  c = spec_counter (beats h)
  /\ (expired h -> five_silent_ticks (beats h))
  /\ (~ expired h -> c < MaxMissedHealthCheck /\ ~ five_silent_ticks (beats h)).

(** Reduce the projections of an updated state. *)
Ltac norm_state :=
  unfold history in *;
  cbn [exitOnce lock missedHealthCheckCounts pool log
       set_thread set_once set_lock set_count emit spawn] in *;
  rewrite ?reverse_cons in *.

Definition guarded_thread (t : thread) : Prop := forallb guarded t = true.

(** The expiry branch is the only way to the health path's part of the
    history. *)
Definition expiry_inv (s : state) : Prop :=
  (expired (history s) \/ Forall guarded_thread (pool s))
  /\ (In (EvExitCb ByHealth) (history s) -> expired (history s))
  /\ (In (EvCall (Log LogHealthCheckFailed)) (history s) -> expired (history s)).

(** Code all of whose sleeps last two seconds. *)
Fixpoint sleeps_two (i : instr) : bool :=
  match i with
  | Sleep ms => Z.eqb ms 2000
  | IncrAndTest on_max => forallb sleeps_two on_max
  | RecvClosedOrDefault on_recv => forallb sleeps_two on_recv
  | Forever body => forallb sleeps_two body
  | _ => true
  end.

(** The calls of the exit callback, in program order: the log line, then
    step 1 (sandbox), step 2 (bridge: [StopClient]), step 3 (sockets),
    step 4 (queues), step 5 (relayer). *)
Definition teardown_order : list call :=
  [Log LogReleasing;
   StopVM;
   ConnClose; InputTrackClose; HealthTrackClose;
   ListenerClose AudioListener; ListenerClose VideoListener; ListenerClose WineListener;
   StreamClose VideoStream; StreamClose AudioStream; StreamClose InputStream;
   RelayerClose].

(** The step of the specified teardown a call belongs to. *)
Definition teardown_step (c : call) : option nat :=
  match c with
  | StopVM => Some 1
  | ConnClose | InputTrackClose | HealthTrackClose => Some 2
  | ListenerClose _ => Some 3
  | StreamClose _ => Some 4
  | RelayerClose => Some 5
  | _ => None
  end%nat.

Definition is_teardown_call (c : call) : bool :=
  match c with
  | Log LogReleasing => true
  | c => if teardown_step c is Some _ then true else false
  end.

Definition teardown_view (e : event) : option call :=
  match e with
  | EvCall c => if is_teardown_call c then Some c else None
  | _ => None
  end.

(** The teardown calls of a history, oldest first. *)
Definition teardown_calls (h : list event) : list call := omap teardown_view h.

(** Code that is not part of a running exit callback: no teardown call,
    no return from the callback, no send on [w.closed]. *)
Fixpoint quiet (i : instr) : bool :=
  match i with
  | Call c => negb (is_teardown_call c)
  | OnceRet | SendClosed => false
  | IncrAndTest t | RecvClosedOrDefault t | Forever t => forallb quiet t
  | _ => true
  end.

Definition quiet_thread (t : thread) : Prop := forallb quiet t = true.

(** Goroutine [i] is inside the exit callback, [n] instructions done. *)
Definition runs_callback (s : state) (i n : nat) : Prop :=
  (n <= length onExitCb)%nat
  /\ (exists k, pool s !! i = Some (drop n onExitCb ++ OnceRet :: k) /\ quiet_thread k)
  /\ (forall j t, j <> i -> pool s !! j = Some t -> quiet_thread t)
  /\ teardown_calls (history s) = calls_of (take n onExitCb).

(** Where the teardown stands, by the state of the latch. *)
Definition teardown_inv (s : state) : Prop :=
  match exitOnce s with
  | OnceFresh => Forall quiet_thread (pool s) /\ teardown_calls (history s) = []
  | OnceRunning => exists i n, runs_callback s i n
  | OnceDone => Forall quiet_thread (pool s) /\ teardown_calls (history s) = teardown_order
  end.

(** Code of the handlers the library calls: straight-line, and never the
    health path's entry to the latch. *)
Definition plain (i : instr) : bool :=
  match i with
  | RecvClosedOrDefault _ | Forever _ | IncrAndTest _ | Return | OnceDo ByHealth => false
  | _ => true
  end.

Definition plain_thread (t : thread) : Prop := forallb plain t = true.

(** Every goroutine but the worker (goroutine 0) runs handler code. *)
Definition handlers_plain (s : state) : Prop :=
  forall j t, j <> 0%nat -> pool s !! j = Some t -> plain_thread t.

(** The first five instructions of the exit callback: up to the send on
    [w.closed] that ends [StopClient]. *)
Definition before_signal : list call :=
  [Log LogReleasing; StopVM; ConnClose; InputTrackClose; HealthTrackClose].

(** What the worker does once the counter has reached the maximum. *)
Definition expiry_branch : thread :=
  [Call (Log LogHealthCheckFailed); OnceDo ByHealth; Return].

Definition is_expiry_branch (t : thread) : bool :=
  match t with
  | [Call (Log LogHealthCheckFailed); OnceDo ByHealth; Return] => true
  | _ => false
  end.

(** Code in which every counter test leads to [expiry_branch]. *)
Fixpoint expiry_wired (i : instr) : bool :=
  match i with
  | IncrAndTest on_max => is_expiry_branch on_max && forallb expiry_wired on_max
  | RecvClosedOrDefault on_recv => forallb expiry_wired on_recv
  | Forever body => forallb expiry_wired body
  | _ => true
  end.

(** ** Schedules in which messages are handled as they arrive *)

(** One turn of the worker's loop, six steps of goroutine 0: [for],
    [select], [Lock], the increment and test, and then [Unlock] and
    [Sleep], or on expiry the log line and the latch. *)
Definition worker_turn : list label := replicate 6 (Run 0).

(** A health-check message that arrives and is handled at once by the
    goroutine the library starts for it, goroutine [j]: [Lock], the reset,
    [Unlock]. *)
Definition handled_message (j : nat) : list label := [HealthMessage; Run j; Run j; Run j].

(** [m] messages handled one after the other, the first by goroutine
    [j]. *)
Fixpoint handled_messages (j m : nat) : list label :=
  match m with
  | O => []
  | S m' => handled_message j ++ handled_messages (S j) m'
  end.

(** The schedule of a session whose peer sends, during the sleep of the
    worker's [i]-th turn, the [i]-th number of [ms] of messages, each
    handled during that sleep; [k] handlers have run before. *)
Fixpoint prompt (k : nat) (ms : list nat) : list label :=
  match ms with
  | [] => []
  | m :: ms' => worker_turn ++ handled_messages (S k) m ++ prompt (k + m) ms'
  end.

(** The number of sleeps without a message, [z] before the turns [ms],
    after them. *)
Definition silent_sleeps (z : nat) (ms : list nat) : nat :=
  foldl (fun z m => match m with O => S z | _ => O end) z ms.

(** In none of the turns [ms] does the counter reach the maximum: each
    turn starts after fewer than four silent sleeps. *)
Fixpoint calm (z : nat) (ms : list nat) : bool :=
  match ms with
  | [] => true
  | m :: ms' => Nat.ltb z 4 && calm (match m with O => S z | _ => O end) ms'
  end.

(** What such turns record. *)
Fixpoint prompt_events (z : nat) (ms : list nat) : list event :=
  match ms with
  | [] => []
  | m :: ms' =>
      [EvTick (Z.of_nat z + 1); EvSleep 2000] ++ replicate m EvHealthMsg
        ++ prompt_events (match m with O => S z | _ => O end) ms'
  end.

(** What the worker's next turn records, after [z] silent sleeps. *)
Definition next_turn_events (z : nat) : list event :=
  if Nat.eqb z 4
  then [EvTick 5; EvCall (Log LogHealthCheckFailed); EvExitCb ByHealth]
  else [EvTick (Z.of_nat z + 1); EvSleep 2000].

(** The bridge between two turns of the worker: latch untouched, mutex
    free, the worker at the head of its loop, [k] handlers done. *)
Definition resting (z k : nat) (lg : list event) : state :=
  mkState OnceFresh false (Z.of_nat z) (healthWorker :: replicate k []) lg.

(** A terminal ICE state change during a sleep of the worker, and the
    steps that follow: the handler, goroutine [j], logs, enters the latch
    and runs the exit callback up to the send on [w.closed]; the worker
    takes the signal and returns; the handler finishes the callback. *)
Definition ice_teardown (j : nat) (st : ice_state) : list label :=
  IceStateChange st :: replicate 7 (Run j) ++ replicate 3 (Run 0) ++ replicate 8 (Run j).

(** How often the body of the exit callback has been started: its first
    statement is the log line. *)
Fixpoint body_runs (h : list event) : nat :=
  match h with
  | [] => 0
  | EvCall (Log LogReleasing) :: h' => S (body_runs h')
  | _ :: h' => body_runs h'
  end.

(** The same count on the calls of the teardown. *)
Fixpoint body_count (cs : list call) : nat :=
  match cs with
  | [] => 0
  | Log LogReleasing :: cs' => S (body_count cs')
  | _ :: cs' => body_count cs'
  end.

(** ** Vocabulary of the further properties *)

(** The engine every call after the first one sees. *)
Definition settled (conf : Bridge.Config) (o : Bridge.nw_oracle) : Bridge.SettingEngine :=
  match Bridge.configure conf o with
  | Some se => se
  | None => Bridge.zeroSettingEngine
  end.

Definition built_with (se : Bridge.SettingEngine) (r : Bridge.outcome Bridge.WebRTC) : Prop :=
  forall b, r = Bridge.Returned b -> Bridge.engine b = se.

(** The frame a call of the candidate handler puts on the signaling
    connection, if any. *)
Definition forwarded (e : Ice.emitted) : option Message :=
  match Ice.candidate e with
  | None => None
  | Some _ =>
      if Ice.encode_fails e || Ice.send_fails e then None
      else Some (mkMessage IceCandidateMessage (Ice.encoded e))
  end.

(** The log line it leaves, if any. *)
Definition dropped (e : Ice.emitted) : option Ice.ice_log :=
  match Ice.candidate e with
  | None => None
  | Some _ =>
      if Ice.encode_fails e then Some Ice.EncodeCandidateFailed
      else if Ice.send_fails e then Some Ice.CouldntSendCandidate
      else None
  end.

(** The fallible calls of [startSession], all of them. *)
Definition all_steps : list start_step :=
  [SNewVideoListener; SExtractVideoPort; SNewAudioListener; SExtractAudioPort;
   SNewWineListener; SExtractWinePort; SRelayerStart; SStartVM; SNewWebRTC;
   SVideoTrack; SStartClientRest; SSendOffer].

Definition succeeds (o : oracle) : bool := forallb (fun s => negb (fails o s)) all_steps.

(** The frames sent on the signaling connection, oldest first. *)
Definition sent_view (e : wire_event) : option Message :=
  match e with Sent m => Some m | _ => None end.

Definition sent_frames (w : world) : list Message := reverse (omap sent_view (wire w)).

(** The frames the read loop gets to see: those before the first read
    error. *)
Fixpoint read_frames (frames : list frame) : list frame :=
  match frames with
  | [] => []
  | ReadFails _ :: _ => []
  | f :: rest => f :: read_frames rest
  end.

(** The frame the loop sends in reply to a frame, if any. *)
Definition reply_to (f : frame) : option Message :=
  match f with
  | Parsed msg o =>
      if String.eqb (Type_ msg) StartMessage && succeeds o
      then Some (mkMessage SDPMessage (offer o))
      else None
  | _ => None
  end.


(** A sandbox was given the ports of the three sockets of a started
    relayer, which are open sockets of the three roles. *)
Definition wired (w : world) (vm : string * (Z * Z * Z)) : Prop :=
  exists v a i,
    In (v, a, i) (relayers w)
    /\ snd vm = (snd v, snd a, snd i)
    /\ (fst v, fst a, fst i) = (VideoListener, AudioListener, WineListener)
    /\ In v (sockets w) /\ In a (sockets w) /\ In i (sockets w).

(** A message type the read loop has no case for. *)
Definition unknown_type (msg : Message) : Prop :=
  Type_ msg <> StartMessage /\ Type_ msg <> SDPMessage /\ Type_ msg <> IceCandidateMessage.

(** Code without the ICE handler's entry to the latch, without the call of
    [startStreaming], without a reset of the counter. *)
Fixpoint no_ice_exit (i : instr) : bool :=
  match i with
  | OnceDo ByIce => false
  | IncrAndTest t | RecvClosedOrDefault t | Forever t => forallb no_ice_exit t
  | _ => true
  end.

Fixpoint no_streaming (i : instr) : bool :=
  match i with
  | Call StartStreaming => false
  | IncrAndTest t | RecvClosedOrDefault t | Forever t => forallb no_streaming t
  | _ => true
  end.

Fixpoint no_reset (i : instr) : bool :=
  match i with
  | ResetCount => false
  | IncrAndTest t | RecvClosedOrDefault t | Forever t => forallb no_reset t
  | _ => true
  end.

Definition is_terminal_change (l : label) : bool :=
  match l with IceStateChange st => is_terminal st | _ => false end.

Definition is_connected_change (l : label) : bool :=
  match l with IceStateChange st => is_connected st | _ => false end.

Definition is_health_message (l : label) : bool :=
  match l with HealthMessage => true | _ => false end.

Definition is_ice_exit (e : event) : bool :=
  match e with EvExitCb ByIce => true | _ => false end.

Definition is_streaming (e : event) : bool :=
  match e with EvCall StartStreaming => true | _ => false end.

Definition is_reset (e : event) : bool :=
  match e with EvHealthMsg => true | _ => false end.

(** Code in which a receive on [w.closed] is followed by a return. *)
Fixpoint recv_returns (i : instr) : bool :=
  match i with
  | RecvClosedOrDefault t =>
      match t with [Return] => true | _ => false end
  | IncrAndTest t | Forever t => forallb recv_returns t
  | _ => true
  end.

(** The worker goroutine has returned, or its next step is the return. *)
Definition worker_stopped (s : state) : Prop :=
  pool s !! 0%nat = Some [] \/ exists k, pool s !! 0%nat = Some (Return :: k).

(** The values the exit callback built by a [startSession] that began in
    the world [w] and returned the bridge [b] closes over. *)
Definition captured_by (id : string) (w : world) (b : bridge) : captured :=
  mkCaptured id
    (VideoListener, next_port w) (AudioListener, next_port w + 1) (WineListener, next_port w + 2)
    b.

(** A goroutine whose next instruction updates the counter or releases
    the mutex: it is inside the critical section. *)
Definition in_critical (t : thread) : bool :=
  match t with
  | IncrAndTest _ :: _ | ResetCount :: _ | Unlock :: _ => true
  | _ => false
  end.

(** Instructions that neither touch the mutex or the counter nor
    branch. *)
Definition simple (i : instr) : bool :=
  match i with
  | Call _ | Sleep _ | OnceDo _ | OnceRet | SendClosed => true
  | _ => false
  end.

(** Simple code that ends in a return. *)
Fixpoint exits (t : thread) : bool :=
  match t with
  | [Return] => true
  | i :: k => simple i && exits k
  | [] => false
  end.

(** Each instruction of [t] passes [f], given whether the code after it
    starts inside the critical section. *)
Fixpoint chain (f : instr -> bool -> bool) (t : thread) : bool :=
  match t with
  | [] => true
  | i :: k => f i (in_critical k) && chain f k
  end.

(** The locking discipline: after a [Lock] the code is inside the critical
    section, up to the [Unlock] or to a branch that returns, and it is
    inside the critical section nowhere else. *)
Fixpoint follows (i : instr) (next_critical : bool) : bool :=
  match i with
  | Return => true
  | Lock | ResetCount => next_critical
  | IncrAndTest on_max => exits on_max && next_critical
  | RecvClosedOrDefault on_recv => exits on_recv && negb next_critical
  | Forever body => negb (in_critical body) && chain follows body && negb next_critical
  | _ => negb next_critical
  end.

Definition disciplined (t : thread) : bool := chain follows t.

(** At most one goroutine of the pool [p] is inside the critical section,
    and then the mutex is held ([held] is the state of the mutex). *)
Definition exclusive (p : list thread) (held : bool) : Prop :=
  (forall i j ti tj, p !! i = Some ti -> p !! j = Some tj ->
     in_critical ti = true -> in_critical tj = true -> i = j)
  /\ (forall i t, p !! i = Some t -> in_critical t = true -> held = true).

Definition mutual_exclusion (s : state) : Prop := exclusive (pool s) (lock s).

Definition is_expiry_tick (e : event) : bool :=
  match e with EvTick n => Z.eqb n MaxMissedHealthCheck | _ => false end.

(** The events recorded after the worker took the expiry branch. *)
Fixpoint since_expiry (h : list event) : option (list event) :=
  match h with
  | [] => None
  | e :: h' => if is_expiry_tick e then Some h' else since_expiry h'
  end.

(** * Properties *)

(** ** The signaling loop and session start *)


(** A START on which no call fails: what the world looks like afterwards. *)
Lemma startSession_ok (o : oracle) (id : string) (w : world) :
  (forall s, fails o s = false) ->
  let p := next_port w in
  let v := (VideoListener, p) in
  let a := (AudioListener, p + 1) in
  let i := (WineListener, p + 2) in
  exists w',
    startSession o id w = (Some (length (bridges w)), w')
    /\ next_port w' = p + 3
    /\ sockets w' = sockets w ++ [v; a; i]
    /\ relayers w' = relayers w ++ [(v, a, i)]
    /\ vms w' = vms w ++ [(id, (p, p + 1, p + 2))]
    /\ bridges w' = bridges w ++ [Some MimeTypeVP8]
    /\ stopped w' = stopped w
    /\ wire w' = Sent (mkMessage SDPMessage (offer o))
                   :: Logged SpinningOffVM
                   :: Logged (WaitAt WineListener (p + 2))
                   :: Logged (WaitAt AudioListener (p + 1))
                   :: Logged (WaitAt VideoListener p)
                   :: wire w.
Proof.
  intros Hok p v a i. run_start. rewrite !Hok. cbn.
  eexists; split; [reflexivity|]. cbn.
  replace (next_port w + 1 + 1) with (p + 2) by (subst p; lia).
  replace (p + 2 + 1) with (p + 3) by lia.
  repeat split.
  - by rewrite <- !app_assoc.
  - by rewrite insert_app_r_alt, Nat.sub_diag by lia.
Qed.

Lemma extends_refl w : extends w w.
Proof. same_lists. Qed.

Lemma extends_trans w1 w2 w3 : extends w1 w2 -> extends w2 w3 -> extends w1 w3.
Proof.
  intros [[l1 H1] [l2 H2] [l3 H3] H4 H5 H6 H7] [[m1 G1] [m2 G2] [m3 G3] G4 G5 G6 G7].
  split; try (eexists; rewrite ?G1, ?G2, ?G3, ?H1, ?H2, ?H3, <- app_assoc; reflexivity).
  - congruence.
  - auto.
  - lia.
  - auto.
Qed.

Lemma extends_record e w : extends w (record e w).
Proof. same_lists. Qed.

Lemma extending_bind {A B} (m : M A) (f : A -> M B) :
  extending m -> (forall a, extending (f a)) -> extending (bind m f).
Proof.
  intros Hm Hf w. unfold bind. specialize (Hm w).
  destruct (m w) as [[a|] w1]; simpl in *; [|done].
  eapply extends_trans; [exact Hm | apply Hf].
Qed.

Lemma extending_or_log {A} l (m : M A) : extending m -> extending (or_log l m).
Proof.
  intros Hm w. unfold or_log. specialize (Hm w).
  destruct (m w) as [[a|] w1]; simpl in *; [done|].
  eapply extends_trans; [exact Hm | apply extends_record].
Qed.

Lemma extending_ret {A} (a : A) : extending (ret a).
Proof. intros w. apply extends_refl. Qed.

Lemma extending_fail {A} : extending (@fail A).
Proof. intros w. apply extends_refl. Qed.

Lemma extending_say l : extending (say l).
Proof. intros w. apply extends_record. Qed.

Lemma extending_NewRandomListener role failed : extending (NewRandomListener role failed).
Proof.
  intros w. unfold NewRandomListener. destruct failed; [apply extends_refl|].
  split; simpl; try done; eauto; try (by exists []; rewrite app_nil_r).
  unfold ports_below. simpl. intros Hp. apply Forall_app. split.
  - eapply Forall_impl; [exact Hp|]. intros s Hs. simpl in Hs. lia.
  - repeat constructor. simpl. lia.
Qed.

Lemma extending_ExtractPort failed s : extending (ExtractPort failed s).
Proof. destruct failed; [apply extending_fail | apply extending_ret]. Qed.

Lemma extending_relayerStart failed v a i : extending (relayerStart failed v a i).
Proof.
  intros w. unfold relayerStart. destruct failed; [apply extends_refl|].
  split; simpl; try done; eauto; by exists []; rewrite app_nil_r.
Qed.

Lemma extending_startVM failed id v a i : extending (startVM failed id v a i).
Proof.
  apply extending_bind; [apply extending_say|]. intros _ w.
  destruct failed; [apply extends_refl|].
  split; simpl; try done; eauto; by exists []; rewrite app_nil_r.
Qed.

Lemma extending_NewWebRTC failed : extending (NewWebRTC failed).
Proof.
  intros w. unfold NewWebRTC. destruct failed; [apply extends_refl|].
  split; simpl; try done; try (by exists []; rewrite app_nil_r).
  - intros H. apply Forall_app; split; [done|]. repeat constructor.
  - rewrite length_app. lia.
Qed.

Lemma extending_StartClient o b : extending (StartClient o b "vpx").
Proof.
  apply extending_bind.
  - intros w. destruct (fails o SVideoTrack); [apply extends_refl|].
    split; simpl; try done; try (by exists []; rewrite app_nil_r).
    + intros H. apply Forall_insert; [done|]. by right.
    + by rewrite length_insert.
  - intros _. destruct (fails o SStartClientRest); [apply extending_fail | apply extending_ret].
Qed.

Lemma extending_sendOffer failed off : extending (sendOffer failed off).
Proof.
  intros w. unfold sendOffer. destruct failed; [apply extends_refl | apply extends_record].
Qed.

#[local] Hint Resolve extending_ret extending_fail extending_say extending_or_log
  extending_NewRandomListener extending_ExtractPort extending_relayerStart
  extending_startVM extending_NewWebRTC extending_StartClient extending_sendOffer
  : extending.

Lemma extending_startSession o id : extending (startSession o id).
Proof.
  unfold startSession.
  repeat (apply extending_bind; [auto with extending | intros ?]).
  auto with extending.
Qed.

Lemma extends_dispatch sessionId msg o h w :
  extends w (snd (dispatch sessionId msg o h w)).
Proof.
  unfold dispatch.
  destruct (String.eqb (Type_ msg) StartMessage).
  { pose proof (extending_startSession o sessionId w) as H.
    destruct (startSession o sessionId w) as [[b|] w']; simpl in *; [done|].
    eapply extends_trans; [exact H | apply extends_record]. }
  destruct (String.eqb (Type_ msg) SDPMessage).
  { destruct h as [b|]; [|apply extends_refl].
    unfold SetRemoteSDP, apply_remote. destruct (answer o); cbn;
      repeat (eapply extends_trans; [|apply extends_record]); apply extends_refl. }
  destruct (String.eqb (Type_ msg) IceCandidateMessage).
  { destruct h as [b|]; [|apply extends_refl].
    unfold AddCandidate, apply_remote. destruct (answer o); cbn;
      repeat (eapply extends_trans; [|apply extends_record]); apply extends_refl. }
  apply extends_refl.
Qed.

Lemma extends_serve sessionId frames : forall h w,
  extends w (snd (serve sessionId h frames w)).
Proof.
  induction frames as [|f rest IH]; intros h w; simpl.
  - apply extends_refl.
  - destruct f as [ga| |msg o].
    + destruct ga; simpl; same_lists.
    + eapply extends_trans; [apply extends_record | apply IH].
    + pose proof (extends_dispatch sessionId msg o h w) as H.
      destruct (dispatch sessionId msg o h w) as [h' w']; simpl in *.
      eapply extends_trans; [exact H | apply IH].
Qed.

Lemma startSession_Some o id w b w' :
  startSession o id w = (Some b, w') -> forall s, fails o s = false.
Proof.
  intros H.
  assert (Hall : Forall (fun s => fails o s = false)
            [SNewVideoListener; SExtractVideoPort; SNewAudioListener; SExtractAudioPort;
             SNewWineListener; SExtractWinePort; SRelayerStart; SStartVM; SNewWebRTC;
             SVideoTrack; SStartClientRest; SSendOffer]).
  { revert H. run_start.
    repeat (match goal with
            | |- context [fails o ?s] =>
                lazymatch goal with
                | E : fails o s = _ |- _ => fail
                | _ => destruct (fails o s) eqn:?; cbn; [discriminate|]
                end
            end).
    intros _. repeat constructor; assumption. }
  intros s. rewrite Forall_forall in Hall. apply Hall, list_elem_of_In. destruct s; simpl; tauto.
Qed.

Lemma handle_ok_dispatch sessionId msg o h w :
  handle_ok h w ->
  handle_ok (fst (dispatch sessionId msg o h w)) (snd (dispatch sessionId msg o h w)).
Proof.
  intros [Hp Hb].
  pose proof (extends_dispatch sessionId msg o h w) as Hext.
  split; [by apply (ext_ports _ _ Hext)|].
  intros b Hh. unfold dispatch in *.
  destruct (String.eqb (Type_ msg) StartMessage).
  { destruct (startSession o sessionId w) as [[b'|] w'] eqn:Hs; simpl in *; [|done].
    injection Hh as ->.
    destruct (startSession_ok o sessionId w (startSession_Some _ _ _ _ _ Hs))
      as (w'' & Hs' & _ & _ & _ & _ & Hbr & _).
    rewrite Hs in Hs'. injection Hs' as -> <-. rewrite Hbr, length_app. simpl. lia. }
  assert (Hkeep : forall w1 : world, h = Some b ->
            (length (bridges w) <= length (bridges w1))%nat -> (b < length (bridges w1))%nat).
  { intros w1 Hh' Hle. specialize (Hb b Hh'). lia. }
  destruct (String.eqb (Type_ msg) SDPMessage).
  { destruct h as [b0|]; [|done].
    destruct (SetRemoteSDP (answer o) b0 (Data msg) w) as [[[]|] w1]; simpl in *; [|done].
    apply Hkeep; [done | apply (ext_count _ _ Hext)]. }
  destruct (String.eqb (Type_ msg) IceCandidateMessage).
  { destruct h as [b0|]; [|done].
    destruct (AddCandidate (answer o) b0 (Data msg) w) as [[[]|] w1]; simpl in *;
      (apply Hkeep; [done | apply (ext_count _ _ Hext)]). }
  simpl in *. by apply Hb.
Qed.

(** Every state of the read loop, from a world with nothing allocated,
    has a handle that is nil or names an existing bridge. *)
Lemma handle_ok_serve sessionId frames : forall h w,
  handle_ok h w ->
  handle_ok (fst (serve sessionId h frames w)) (snd (serve sessionId h frames w)).
Proof.
  induction frames as [|f rest IH]; intros h w Hok; simpl; [done|].
  destruct f as [ga| |msg o].
  - destruct ga; simpl; exact Hok.
  - apply IH. exact Hok.
  - pose proof (handle_ok_dispatch sessionId msg o h w Hok) as H.
    destruct (dispatch sessionId msg o h w) as [h' w']. apply IH. exact H.
Qed.



(** C10: an SDP or ICE message that finds the handle nil (no START has
    succeeded yet, or the last START failed and reset the handle) is
    skipped: no bridge is called, nothing is logged, the world is as it
    was, and the read loop goes on with the next frame. *)
Theorem C10_signaling_without_session_is_skipped
    (sessionId : string) (msg : Message) (o : oracle) (w : world) (rest : list frame) :
  Type_ msg = SDPMessage \/ Type_ msg = IceCandidateMessage ->
  dispatch sessionId msg o None w = (None, w)
  /\ serve sessionId None (Parsed msg o :: rest) w = serve sessionId None rest w
  /\ NewSession true sessionId (Parsed msg o :: rest) w = NewSession true sessionId rest w
  /\ (forall start o' h,
        Type_ start = StartMessage ->
        fst (startSession o' sessionId w) = None ->
        let '(h', w') := dispatch sessionId start o' h w in
        h' = None /\ dispatch sessionId msg o h' w' = (None, w')).
Proof.
  intros Hty.
  assert (Hd : forall w0, dispatch sessionId msg o None w0 = (None, w0)).
  { intros w0. unfold dispatch. destruct Hty as [Hn | Hn]; rewrite Hn; reflexivity. }
  repeat split.
  - apply Hd.
  - simpl. by rewrite Hd.
  - simpl. by rewrite Hd.
  - intros start o' h Hs Hfail. unfold dispatch at 1. rewrite Hs. simpl.
    destruct (startSession o' sessionId w) as [[b|] w']; simpl in *; [done|].
    split; [done | apply Hd].
Qed.

Lemma C10_witness :
  dispatch "10.0.0.7:5500" (mkMessage "SDP" "answer")
    (mkOracle never_fails "offer" Accepted) None (world0 40000)
  = (None, world0 40000).
Proof.
  apply (C10_signaling_without_session_is_skipped "10.0.0.7:5500"
           (mkMessage "SDP" "answer") (mkOracle never_fails "offer" Accepted)
           (world0 40000) []).
  left. reflexivity.
Defined.

(** C4 as stated fails for SDP: after one rejected answer the handle is
    nil, and the next, well-formed answer never reaches SetRemoteSDP. *)
Lemma C4_rejected_sdp_ends_dispatch :
  let bad := Parsed (mkMessage "SDP" "garbled") (mkOracle never_fails "offer" Malformed) in
  let good := Parsed (mkMessage "SDP" "answer") (mkOracle never_fails "offer" Accepted) in
  let start := Parsed (mkMessage "START" "") (mkOracle never_fails "offer" Accepted) in
  let '(h, w) := NewSession true "10.0.0.7:5500" [start; bad; good] (world0 40000) in
  h = None
  /\ ~ In (CalledSetRemoteSDP 0 "answer") (wire w)
  /\ In (CalledSetRemoteSDP 0 "garbled") (wire w).
Proof.
  vm_compute. repeat split; [|tauto].
  intros H. repeat (destruct H as [H|H]; [discriminate H|]). exact H.
Qed.

(** C4, amended: a malformed or rejected ICE candidate is logged and
    dropped and the handle stays, so the following SDP and ICE messages
    still reach SetRemoteSDP and AddCandidate; a malformed or rejected SDP
    is logged and the handle becomes nil, so the following SDP and ICE
    messages are skipped; an unparsable frame is logged and changes
    nothing else.  In each case the read loop goes on with the next frame. *)
Theorem C4_protocol_errors_amended
    (sessionId : string) (b : bridge) (msg next : Message) (o o' : oracle)
    (w : world) (rest : list frame) :
  answer o <> Accepted ->
  (Type_ msg = IceCandidateMessage ->
     exists w1,
       dispatch sessionId msg o (Some b) w = (Some b, w1)
       /\ hd_error (wire w1) = Some (Logged ErrSetIceCandidate)
       /\ serve sessionId (Some b) (Parsed msg o :: rest) w = serve sessionId (Some b) rest w1
       /\ (Type_ next = SDPMessage ->
             In (CalledSetRemoteSDP b (Data next))
                (wire (snd (dispatch sessionId next o' (Some b) w1))))
       /\ (Type_ next = IceCandidateMessage ->
             In (CalledAddCandidate b (Data next))
                (wire (snd (dispatch sessionId next o' (Some b) w1)))))
  /\ (Type_ msg = SDPMessage ->
        exists w1,
          dispatch sessionId msg o (Some b) w = (None, w1)
          /\ hd_error (wire w1) = Some (Logged ErrSetRemoteSDP)
          /\ serve sessionId (Some b) (Parsed msg o :: rest) w = serve sessionId None rest w1
          /\ (Type_ next = SDPMessage \/ Type_ next = IceCandidateMessage ->
                dispatch sessionId next o' None w1 = (None, w1)))
  /\ serve sessionId (Some b) (Unparsable :: rest) w
     = serve sessionId (Some b) rest (record (Logged ErrParseMessage) w).
Proof.
  intros Hbad. split; [|split]; [| |reflexivity].
  - intros Hty.
    assert (Hd : exists w1, dispatch sessionId msg o (Some b) w = (Some b, w1)
                   /\ hd_error (wire w1) = Some (Logged ErrSetIceCandidate)).
    { unfold dispatch, AddCandidate, apply_remote. rewrite Hty. cbn.
      destruct (answer o); [done| |]; cbn; eauto. }
    destruct Hd as (w1 & Hd & Hlog). exists w1. repeat split; [done|done| | |].
    + simpl. by rewrite Hd.
    + intros Hn. unfold dispatch, SetRemoteSDP, apply_remote. rewrite Hn. cbn.
      destruct (answer o'); cbn; auto.
    + intros Hn. unfold dispatch, AddCandidate, apply_remote. rewrite Hn. cbn.
      destruct (answer o'); cbn; auto.
  - intros Hty.
    assert (Hd : exists w1, dispatch sessionId msg o (Some b) w = (None, w1)
                   /\ hd_error (wire w1) = Some (Logged ErrSetRemoteSDP)).
    { unfold dispatch, SetRemoteSDP, apply_remote. rewrite Hty. cbn.
      destruct (answer o); [done| |]; cbn; eauto. }
    destruct Hd as (w1 & Hd & Hlog). exists w1. repeat split; [done|done| |].
    + simpl. by rewrite Hd.
    + intros [Hn | Hn]; unfold dispatch; rewrite Hn; reflexivity.
Qed.

Lemma C4_witness :
  exists w1,
    dispatch "10.0.0.7:5500" (mkMessage "ICE" "garbled")
      (mkOracle never_fails "offer" Malformed) (Some 0%nat) (world0 40000) = (Some 0%nat, w1)
    /\ hd_error (wire w1) = Some (Logged ErrSetIceCandidate).
Proof.
  assert (Hbad : answer (mkOracle never_fails "offer" Malformed) <> Accepted) by discriminate.
  destruct (proj1 (C4_protocol_errors_amended "10.0.0.7:5500" 0%nat
                     (mkMessage "ICE" "garbled") (mkMessage "SDP" "answer")
                     (mkOracle never_fails "offer" Malformed)
                     (mkOracle never_fails "offer" Accepted) (world0 40000) [] Hbad)
                  eq_refl) as (w1 & H1 & H2 & _).
  exists w1. split; assumption.
Defined.

(** C8: a START that arrives while the handle already names a bridge
    is served like the first one: three sockets on ports the OS had not
    handed out, one more relayer, one more sandbox launch, one more bridge,
    which becomes the handle.  Nothing of the earlier session is closed or
    stopped. *)
Theorem C8_second_start_replaces_handle
    (sessionId : string) (msg : Message) (o : oracle) (b : bridge) (w : world) :
  Type_ msg = StartMessage ->
  (forall s, fails o s = false) ->
  (b < length (bridges w))%nat ->
  ports_below w ->
  let p := next_port w in
  let v := (VideoListener, p) in
  let a := (AudioListener, p + 1) in
  let i := (WineListener, p + 2) in
  exists b' w',
    dispatch sessionId msg o (Some b) w = (Some b', w')
    /\ b' <> b
    /\ bridges w' = bridges w ++ [Some MimeTypeVP8] /\ bridges w' !! b' = Some (Some MimeTypeVP8)
    /\ sockets w' = sockets w ++ [v; a; i]
    /\ Forall (fun s : socket => ~ In (snd s) [p; p + 1; p + 2]) (sockets w)
    /\ relayers w' = relayers w ++ [(v, a, i)]
    /\ vms w' = vms w ++ [(sessionId, (p, p + 1, p + 2))]
    /\ stopped w' = stopped w
    /\ hd_error (wire w') = Some (Sent (mkMessage SDPMessage (offer o))).
Proof.
  intros Hty Hok Hb Hports p v a i.
  destruct (startSession_ok o sessionId w Hok)
    as (w' & Hs & _ & Hsock & Hrel & Hvm & Hbr & Hst & Hw).
  exists (length (bridges w)), w'. unfold dispatch. rewrite Hty, Hs. cbn.
  repeat split; try done.
  - lia.
  - rewrite Hbr. by rewrite lookup_app_r, Nat.sub_diag by lia.
  - eapply Forall_impl; [exact Hports|]. intros [r q] Hq. cbn in *.
    intros [H|[H|[H|[]]]]; subst p; lia.
  - by rewrite Hw.
Qed.

Lemma C8_witness :
  let start := mkMessage "START" "" in
  let o := mkOracle never_fails "offer" Accepted in
  let w1 := snd (dispatch "10.0.0.7:5500" start o None (world0 40000)) in
  exists b' w2,
    dispatch "10.0.0.7:5500" start o (Some 0%nat) w1 = (Some b', w2)
    /\ b' <> 0%nat
    /\ sockets w2 = sockets w1 ++ [(VideoListener, 40003); (AudioListener, 40004);
                                   (WineListener, 40005)]
    /\ stopped w2 = stopped w1.
Proof.
  intros start o w1.
  assert (Hports : ports_below w1) by (vm_compute; repeat constructor).
  assert (Hb : (0 < length (bridges w1))%nat) by (vm_compute; lia).
  destruct (C8_second_start_replaces_handle "10.0.0.7:5500" start o 0%nat w1
              eq_refl (fun _ => eq_refl) Hb Hports)
    as (b' & w2 & Hd & Hne & _ & _ & Hs & _ & _ & _ & Hst & _).
  exists b', w2. repeat split; assumption.
Defined.

(** C3 fails on the code: whichever call of [startSession] fails, the
    sockets bound earlier in the same attempt are still open when the error
    is returned, and so is the relayer if it had been started. *)
Theorem C3_failed_start_keeps_sockets_open
    (f : start_step) (off : string) (v : verdict) (id : string) (w : world) :
  f <> SNewVideoListener ->
  let p := next_port w in
  let '(r, w') := startSession (mkOracle (fail_at f) off v) id w in
  r = None
  /\ sockets w' = sockets w ++ bound_before p f
  /\ In (VideoListener, p) (sockets w')
  /\ (f = SStartVM -> sockets w' = sockets w ++ [(VideoListener, p); (AudioListener, p + 1);
                                                 (WineListener, p + 2)]
                      /\ relayers w' <> relayers w).
Proof.
  intros Hf p. subst p. destruct f; try done; run_start; cbn;
    (repeat split; cbn; rewrite <- ?app_assoc, <- ?Z.add_assoc; cbn;
     try done; try (apply in_or_app; right; left; reflexivity)).
  intros Hr. apply (f_equal length) in Hr.
  rewrite length_app in Hr. simpl in Hr. lia.
Qed.

Lemma C3_witness :
  let '(r, w') := startSession (mkOracle (fail_at SNewAudioListener) "offer" Accepted)
                    "10.0.0.7:5500" (world0 40000) in
  r = None /\ In (VideoListener, 40000) (sockets w').
Proof.
  assert (Hf : SNewAudioListener <> SNewVideoListener) by discriminate.
  pose proof (C3_failed_start_keeps_sockets_open SNewAudioListener "offer" Accepted
                "10.0.0.7:5500" (world0 40000) Hf) as H.
  cbv zeta in H.
  destruct (startSession _ _ _) as [r w']. destruct H as (H1 & _ & H3 & _).
  split; assumption.
Defined.

(** The exit callback, by contrast, closes each of the three sockets. *)
Lemma teardown_closes_sockets (r : captured) (w : world) (l : listener) :
  ~ In (cap_listener r l) (sockets (torn_down r w)).
Proof.
  unfold torn_down. cbn. rewrite <- list_elem_of_In. intros H.
  repeat (apply list_elem_of_filter in H; destruct H as [? H]).
  destruct l; cbn in *; congruence.
Qed.




(** ** The bridge: scheduler basics *)

Lemma run_app cb ls1 ls2 s :
  run cb s (ls1 ++ ls2) = match run cb s ls1 with Some s' => run cb s' ls2 | None => None end.
Proof.
  revert s. induction ls1 as [|l ls1 IH]; intros s; simpl; [done|].
  destruct (step cb s l); [apply IH | done].
Qed.

(** Induction over the reachable states. *)
Lemma reachable_ind cb (P : state -> Prop) :
  P init ->
  (forall s l s', reachable cb s -> P s -> step cb s l = Some s' -> P s') ->
  forall s, reachable cb s -> P s.
Proof.
  intros H0 Hstep s [ls Hrun]. revert s Hrun.
  induction ls as [|l ls IH] using rev_ind; intros s Hrun.
  - simpl in Hrun. by injection Hrun as <-.
  - rewrite run_app in Hrun. destruct (run cb init ls) as [s1|] eqn:H1; [|done].
    simpl in Hrun. destruct (step cb s1 l) as [s2|] eqn:H2; [|done].
    injection Hrun as <-. eapply Hstep; [by exists ls | by apply IH | exact H2].
Qed.

Lemma reachable_step cb s l s' :
  reachable cb s -> step cb s l = Some s' -> reachable cb s'.
Proof.
  intros [ls H] Hs. exists (ls ++ [l]). rewrite run_app, H. simpl. by rewrite Hs.
Qed.

Lemma exit_runs_app h1 h2 : exit_runs (h1 ++ h2) = (exit_runs h1 + exit_runs h2)%nat.
Proof. induction h1 as [|[] h1 IH]; simpl; lia. Qed.

Lemma exit_runs_reverse h : exit_runs (reverse h) = exit_runs h.
Proof.
  induction h as [|e h IH]; [done|].
  rewrite reverse_cons, exit_runs_app, IH. destruct e; simpl; lia.
Qed.


(** ** The health check *)

Lemma history_emit e s : history (emit e s) = history s ++ [e].
Proof. unfold history. simpl. apply reverse_cons. Qed.

Lemma beats_snoc h e : beats (h ++ [e]) = beats h ++ from_option (fun b => [b]) [] (health_view e).
Proof. unfold beats. rewrite omap_app. simpl. by destruct (health_view e). Qed.

Lemma spec_counter_snoc v b :
  spec_counter (v ++ [b]) = match b with Tick => spec_counter v + 1 | Msg => 0 end.
Proof. unfold spec_counter. by rewrite foldl_app. Qed.

Lemma spec_counter_nonneg v : 0 <= spec_counter v.
Proof.
  induction v as [|b v IH] using rev_ind; [done|].
  rewrite spec_counter_snoc. destruct b; lia.
Qed.

(** The counter is the number of ticks at the end of the history. *)
Lemma spec_counter_trailing v (n : nat) :
  Z.of_nat n <= spec_counter v -> exists pre, v = pre ++ replicate n Tick.
Proof.
  revert n. induction v as [|b v IH] using rev_ind; intros n Hn.
  - cbn in Hn. assert (n = 0%nat) as -> by lia. by exists [].
  - rewrite spec_counter_snoc in Hn. destruct b.
    + destruct n as [|n]; [exists (v ++ [Tick]); by rewrite app_nil_r|].
      destruct (IH n) as [pre ->]; [lia|].
      exists pre. rewrite <- app_assoc. f_equal.
      change [Tick] with (replicate 1 Tick). rewrite <- replicate_add.
      f_equal. lia.
    + assert (n = 0%nat) as -> by lia. exists (v ++ [Msg]). by rewrite app_nil_r.
Qed.

Lemma spec_counter_ticks pre (n : nat) :
  Z.of_nat n <= spec_counter (pre ++ replicate n Tick).
Proof.
  induction n as [|n IH]; [rewrite app_nil_r; apply spec_counter_nonneg|].
  replace (S n) with (n + 1)%nat by lia. rewrite replicate_add, app_assoc. simpl.
  rewrite spec_counter_snoc. lia.
Qed.

Lemma five_silent_ticks_snoc v b : five_silent_ticks v -> five_silent_ticks (v ++ [b]).
Proof.
  intros (pre & post & ->). exists pre, (post ++ [b]). by rewrite <- !app_assoc.
Qed.

Lemma five_silent_ticks_snoc_inv v b :
  five_silent_ticks (v ++ [b]) ->
  five_silent_ticks v \/ (b = Tick /\ 4 <= spec_counter v).
Proof.
  intros (pre & post & H).
  destruct post as [|x post _] using rev_ind.
  - right. rewrite app_nil_r in H.
    change 5%nat with (4 + 1)%nat in H. rewrite replicate_add, app_assoc in H. simpl in H.
    apply app_inj_tail in H as [-> ->]. split; [done|].
    apply (spec_counter_ticks pre 4).
  - left. rewrite !app_assoc in H. apply app_inj_tail in H as [-> _].
    exists pre, post. by rewrite <- app_assoc.
Qed.

Lemma expired_snoc h e : expired (h ++ [e]) <-> expired h \/ e = EvTick MaxMissedHealthCheck.
Proof.
  unfold expired. rewrite in_app_iff. simpl. intuition.
Qed.

Lemma health_inv_other c h e :
  health_view e = None -> health_inv c h -> health_inv c (h ++ [e]).
Proof.
  intros He (Hc & Hexp & Hn). unfold health_inv.
  rewrite beats_snoc, He, expired_snoc. simpl. rewrite app_nil_r.
  assert (e <> EvTick MaxMissedHealthCheck) by (intros ->; discriminate He).
  intuition.
Qed.

Lemma health_inv_tick c h : health_inv c h -> health_inv (c + 1) (h ++ [EvTick (c + 1)]).
Proof.
  intros (Hc & Hexp & Hn). unfold health_inv.
  rewrite beats_snoc, expired_snoc. simpl. rewrite spec_counter_snoc.
  split; [lia|]. split.
  - intros [He | He].
    + by apply five_silent_ticks_snoc, Hexp.
    + injection He as He. unfold MaxMissedHealthCheck in He.
      destruct (spec_counter_trailing (beats h) 4) as [pre Hpre]; [lia|].
      exists pre, []. rewrite Hpre, app_nil_r, <- app_assoc. f_equal.
  - intros Hne.
    assert (Hne1 : ~ expired h) by tauto.
    assert (Hne2 : c + 1 <> MaxMissedHealthCheck) by (intros E; apply Hne; right; by rewrite E).
    destruct (Hn Hne1) as [Hlt Hno]. split; [lia|].
    intros Hf. apply five_silent_ticks_snoc_inv in Hf as [Hf | [_ Hf]]; [done|].
    unfold MaxMissedHealthCheck in *. lia.
Qed.

Lemma health_inv_msg c h : health_inv c h -> health_inv 0 (h ++ [EvHealthMsg]).
Proof.
  intros (Hc & Hexp & Hn). unfold health_inv.
  rewrite beats_snoc, expired_snoc. simpl. rewrite spec_counter_snoc.
  split; [done|]. split.
  - intros [He | He]; [|done]. by apply five_silent_ticks_snoc, Hexp.
  - intros Hne. split; [done|].
    intros Hf. apply five_silent_ticks_snoc_inv in Hf as [Hf | [Hf _]]; [|done].
    apply Hn; tauto.
Qed.

(** What the counter and the expiry mark of a reachable state say about
    its history. *)
Lemma health_invariant cb s :
  reachable cb s -> health_inv (missedHealthCheckCounts s) (history s).
Proof.
  intros Hr. induction Hr as [|s l s' _ IH Hstep] using reachable_ind.
  - repeat split; try done. intros (pre & post & Hv). cbn in Hv.
    by destruct pre.
  - step_cases Hstep; norm_state; try assumption;
      first [ exact (health_inv_tick _ _ IH) | exact (health_inv_msg _ _ IH)
            | (apply health_inv_other; [reflexivity | exact IH]) ].
Qed.

Lemma guarded_thread_cons ins k :
  guarded_thread (ins :: k) <-> guarded ins = true /\ guarded_thread k.
Proof. unfold guarded_thread. simpl. apply andb_true_iff. Qed.

Lemma guarded_thread_app t1 t2 :
  guarded_thread (t1 ++ t2) <-> guarded_thread t1 /\ guarded_thread t2.
Proof. unfold guarded_thread. rewrite forallb_app. apply andb_true_iff. Qed.

Lemma guarded_thread_tail t : guarded_thread t -> guarded_thread (tail t).
Proof. destruct t; [done|]. rewrite guarded_thread_cons. tauto. Qed.

Lemma guarded_handlers st : guarded_thread (onICEConnectionStateChange st).
Proof. by destruct st. Qed.

Lemma expiry_invariant cb s :
  guarded_thread cb -> reachable cb s -> expiry_inv s.
Proof.
  intros Hcb Hr. induction Hr as [|s l s' _ (IHg & IHx & IHl) Hstep] using reachable_ind.
  - split; [right; by repeat constructor|]. split; intros [].
  - unfold expiry_inv in *. destruct IHg as [Hexp | Hg].
    { step_cases Hstep; norm_state; rewrite ?in_app_iff, ?expired_snoc; simpl;
        intuition (try discriminate; auto). }
    step_cases Hstep; norm_state; rewrite ?in_app_iff, ?expired_snoc; simpl.
    all: try (pose proof (Forall_lookup_1 _ _ _ _ Hg Hi) as Ht;
              apply guarded_thread_cons in Ht as [Hins Hk]).
    all: try match goal with
             | Hj : pool _ !! ?j = Some ?tj |- _ =>
                 lazymatch tj with
                 | _ :: _ => fail
                 | _ => pose proof (guarded_thread_tail _ (Forall_lookup_1 _ _ _ _ Hg Hj))
                 end
             end.
    all: try match goal with
             | E : (_ =? _) = true |- _ => apply Z.eqb_eq in E
             end.
    all: (split;
          [ first [ left; right; f_equal; assumption
                  | right;
                    repeat first [ assumption
                                 | apply guarded_handlers
                                 | apply Forall_insert
                                 | apply Forall_app; split
                                 | apply Forall_cons; split
                                 | apply Forall_nil
                                 | apply guarded_thread_app; split
                                 | apply guarded_thread_cons; split
                                 | apply guarded_handlers
                                 | done ] ]
          | intuition (try discriminate; auto; try (simplify_eq; simpl in *; discriminate)) ]).
Qed.

(** A property of instructions that holds of the code inside an
    instruction whenever it holds of the instruction holds of every
    goroutine of every reachable state, if it holds of the code the
    goroutines start from. *)
Section Hereditary.
Variable ok : instr -> bool.
Variable cb : thread.
Hypothesis ok_incr : forall t, ok (IncrAndTest t) = true -> forallb ok t = true.
Hypothesis ok_recv : forall t, ok (RecvClosedOrDefault t) = true -> forallb ok t = true.
Hypothesis ok_forever : forall t, ok (Forever t) = true -> forallb ok t = true.
Hypothesis ok_ret : ok OnceRet = true.
Hypothesis ok_cb : forallb ok cb = true.
Hypothesis ok_worker : forallb ok healthWorker = true.
Hypothesis ok_message : forallb ok healthOnMessage = true.
Hypothesis ok_ice : forall st, forallb ok (onICEConnectionStateChange st) = true.

Lemma hereditary_pool s :
  reachable cb s -> Forall (fun t => forallb ok t = true) (pool s).
Proof.
  intros Hr. induction Hr as [|s l s' _ IH Hstep] using reachable_ind.
  - by repeat constructor.
  - step_cases Hstep; norm_state.
    all: try (pose proof (Forall_lookup_1 _ _ _ _ IH Hi) as Ht; simpl in Ht;
              apply andb_true_iff in Ht as [Hins Hk]).
    all: try match goal with
             | Hj : pool _ !! ?j = Some ?tj |- _ =>
                 lazymatch tj with
                 | _ :: _ => fail
                 | _ => pose proof (Forall_lookup_1 _ _ _ _ IH Hj) as Htj;
                        destruct tj; simpl in Htj;
                        [|apply andb_true_iff in Htj as [_ Htj]]
                 end
             end.
    all: try match goal with
             | H : ok (IncrAndTest _) = true |- _ => pose proof (ok_incr _ H)
             | H : ok (RecvClosedOrDefault _) = true |- _ => pose proof (ok_recv _ H)
             | H : ok (Forever _) = true |- _ => pose proof (ok_forever _ H)
             end.
    all: repeat first [ assumption
                      | apply Forall_insert
                      | apply Forall_app; split
                      | apply Forall_cons; split
                      | apply Forall_nil
                      | apply ok_ice
                      | rewrite forallb_app; apply andb_true_iff; split
                      | (simpl; apply andb_true_iff; split)
                      | done ].
Qed.
End Hereditary.

Lemma sleeps_are_two_seconds s ms :
  reachable onExitCb s -> In (EvSleep ms) (history s) -> ms = 2000.
Proof.
  intros Hr. induction Hr as [|s l s' Hr IH Hstep] using reachable_ind; [intros []|].
  pose proof (hereditary_pool sleeps_two onExitCb (fun _ H => H) (fun _ H => H)
                (fun _ H => H) eq_refl eq_refl eq_refl eq_refl
                (fun st => ltac:(by destruct st)) s Hr) as Hp.
  step_cases Hstep; norm_state; rewrite ?in_app_iff; simpl; try assumption;
    intros [?|[He|[]]]; auto; try discriminate He.
  injection He as ->.
  pose proof (Forall_lookup_1 _ _ _ _ Hp Hi) as Ht. simpl in Ht.
  apply andb_true_iff in Ht as [Ht _]. by apply Z.eqb_eq in Ht.
Qed.

(** The silent schedule: five ticks two seconds apart, then the expiry
    branch, the exit callback and its first calls. *)
Lemma silent_run_history :
  exists s, run onExitCb init silent_run = Some s
    /\ history s = [EvTick 1; EvSleep 2000; EvTick 2; EvSleep 2000; EvTick 3; EvSleep 2000;
                    EvTick 4; EvSleep 2000; EvTick 5;
                    EvCall (Log LogHealthCheckFailed); EvExitCb ByHealth;
                    EvCall (Log LogReleasing); EvCall StopVM;
                    EvCall ConnClose; EvCall InputTrackClose; EvCall HealthTrackClose].
Proof. eexists. split; vm_compute; reflexivity. Qed.

Lemma is_expiry_branch_eq t : is_expiry_branch t = true -> t = expiry_branch.
Proof.
  destruct t as [|[[[]| | | | | | | |]| | | | | | | | | | |] [|[| | | | | |[]| | | | |] [|[] [|]]]];
    simpl; intros H; try discriminate H; reflexivity.
Qed.

(** The step on which the counter reaches the maximum leaves the worker
    about to log the expiry and to enter the latch. *)
Lemma expiry_goes_to_latch s l s' :
  reachable onExitCb s ->
  step onExitCb s l = Some s' ->
  ~ expired (history s) ->
  expired (history s') ->
  exists i k, l = Run i /\ pool s' !! i = Some (expiry_branch ++ k).
Proof.
  intros Hr Hstep Hne He.
  pose proof (hereditary_pool expiry_wired onExitCb
                (fun t H => proj2 (proj1 (andb_true_iff _ _) H)) (fun _ H => H)
                (fun _ H => H) eq_refl eq_refl eq_refl eq_refl
                (fun st => ltac:(by destruct st)) s Hr) as Hp.
  step_cases Hstep; norm_state; rewrite ?expired_snoc in He; try tauto;
    destruct He as [He | He]; try tauto; try discriminate He.
  - pose proof (Forall_lookup_1 _ _ _ _ Hp Hi) as Ht. simpl in Ht.
    apply andb_true_iff in Ht as [Ht _]. apply andb_true_iff in Ht as [Ht _].
    apply is_expiry_branch_eq in Ht as ->.
    exists i, k. split; [done|]. apply list_lookup_insert_eq. by eapply lookup_lt_Some.
  - injection He as He. apply Z.eqb_neq in Heqb. done.
Qed.



(** ** The teardown *)

Lemma find_sender_Some p j :
  find_sender p = Some j -> exists k, p !! j = Some (SendClosed :: k).
Proof.
  revert j. induction p as [|t p IH]; intros j H; simpl in H; [done|].
  destruct (is_sending t) eqn:Ht.
  - injection H as <-. destruct t as [|[] k]; try done. by exists k.
  - destruct (find_sender p) as [j'|]; [|done]. injection H as <-.
    simpl. by apply IH.
Qed.

Lemma quiet_thread_cons ins k :
  quiet_thread (ins :: k) <-> quiet ins = true /\ quiet_thread k.
Proof. unfold quiet_thread. simpl. apply andb_true_iff. Qed.

Lemma quiet_thread_app t1 t2 :
  quiet_thread (t1 ++ t2) <-> quiet_thread t1 /\ quiet_thread t2.
Proof. unfold quiet_thread. rewrite forallb_app. apply andb_true_iff. Qed.

Lemma quiet_handlers st : quiet_thread (onICEConnectionStateChange st).
Proof. by destruct st. Qed.

Lemma teardown_calls_snoc h e :
  teardown_calls (h ++ [e]) = teardown_calls h ++ from_option (fun c => [c]) [] (teardown_view e).
Proof. unfold teardown_calls. rewrite omap_app. simpl. by destruct (teardown_view e). Qed.

(** The instruction of the exit callback at each position. *)
Lemma callback_at (n : nat) :
  (n <= length onExitCb)%nat ->
  (exists c, drop n onExitCb = Call c :: drop (S n) onExitCb
             /\ (S n <= length onExitCb)%nat /\ n <> 5%nat
             /\ is_teardown_call c = true
             /\ calls_of (take (S n) onExitCb) = calls_of (take n onExitCb) ++ [c])
  \/ (n = 5%nat /\ drop n onExitCb = SendClosed :: drop 6 onExitCb
      /\ calls_of (take 6 onExitCb) = calls_of (take 5 onExitCb))
  \/ (n = length onExitCb /\ drop n onExitCb = []
      /\ calls_of (take n onExitCb) = teardown_order).
Proof.
  intros Hn.
  do 14 (destruct n as [|n];
         [first [ left; eexists; repeat split;
                    first [ vm_compute; reflexivity | simpl; lia | discriminate ]
                | right; left; repeat split; vm_compute; reflexivity
                | right; right; repeat split; vm_compute; reflexivity ]|]).
  simpl in Hn. lia.
Qed.

Lemma others_quiet_insert (p : list thread) (i0 i : nat) (t : thread) :
  (forall j x, j <> i0 -> p !! j = Some x -> quiet_thread x) ->
  quiet_thread t ->
  forall j x, j <> i0 -> <[i:=t]> p !! j = Some x -> quiet_thread x.
Proof.
  intros Hp Ht j x Hj Hx. apply list_lookup_insert_Some in Hx as [(_ & <- & _) | (_ & Hx)].
  - exact Ht.
  - by apply (Hp j).
Qed.

Lemma others_quiet_runner (p : list thread) (i0 : nat) (t : thread) :
  (forall j x, j <> i0 -> p !! j = Some x -> quiet_thread x) ->
  forall j x, j <> i0 -> <[i0:=t]> p !! j = Some x -> quiet_thread x.
Proof.
  intros Hp j x Hj Hx. apply list_lookup_insert_Some in Hx as [(-> & _) | (_ & Hx)]; [done|].
  by apply (Hp j).
Qed.

Lemma others_quiet_app (p : list thread) (i0 : nat) (t : thread) :
  (forall j x, j <> i0 -> p !! j = Some x -> quiet_thread x) ->
  quiet_thread t ->
  forall j x, j <> i0 -> (p ++ [t]) !! j = Some x -> quiet_thread x.
Proof.
  intros Hp Ht j x Hj Hx. apply lookup_app_Some in Hx as [Hx | [_ Hx]].
  - by apply (Hp j).
  - destruct (j - length p)%nat; simpl in Hx; [by injection Hx as <- | done].
Qed.

Lemma all_quiet_insert (p : list thread) (i0 : nat) (t : thread) :
  (forall j x, j <> i0 -> p !! j = Some x -> quiet_thread x) ->
  quiet_thread t ->
  Forall quiet_thread (<[i0:=t]> p).
Proof.
  intros Hp Ht. apply Forall_lookup. intros j x Hx.
  apply list_lookup_insert_Some in Hx as [(_ & <- & _) | (Hj & Hx)]; [done|].
  apply (Hp j); [congruence | done].
Qed.

Ltac solve_quiet :=
  repeat first [ assumption
               | apply quiet_handlers
               | apply Forall_insert
               | apply Forall_app; split
               | apply Forall_cons; split
               | apply Forall_nil
               | apply quiet_thread_app; split
               | apply quiet_thread_cons; split
               | done ].

Lemma teardown_inv_init : teardown_inv init.
Proof. split; [by repeat constructor | done]. Qed.

(** Steps from a state in which no goroutine is inside the callback. *)
Lemma teardown_inv_idle s l s' (o : once_state) :
  o = OnceFresh \/ o = OnceDone ->
  exitOnce s = o ->
  Forall quiet_thread (pool s) ->
  step onExitCb s l = Some s' ->
  (exitOnce s' = o /\ Forall quiet_thread (pool s')
   /\ teardown_calls (history s') = teardown_calls (history s))
  \/ (o = OnceFresh /\ exitOnce s' = OnceRunning
      /\ teardown_calls (history s') = teardown_calls (history s)
      /\ exists i k, pool s' !! i = Some (onExitCb ++ OnceRet :: k) /\ quiet_thread k
           /\ forall j x, j <> i -> pool s' !! j = Some x -> quiet_thread x).
Proof.
  intros Ho Honce Hq Hstep.
  step_cases Hstep; norm_state.
  all: try (pose proof (Forall_lookup_1 _ _ _ _ Hq Hi) as Ht;
            apply quiet_thread_cons in Ht as [Hins Hk]; simpl in Hins).
  all: try discriminate Hins.
  all: try match goal with
           | Hs : find_sender _ = Some ?j |- _ =>
               apply find_sender_Some in Hs as [k' Hs];
               pose proof (Forall_lookup_1 _ _ _ _ Hq Hs) as Hbad; discriminate Hbad
           end.
  all: rewrite ?teardown_calls_snoc; simpl.
  all: try (apply negb_true_iff in Hins; rewrite Hins; simpl).
  all: rewrite ?app_nil_r.
  all: try (left; split; [done|]; split; [solve_quiet | done]).
  right. repeat split; try done. exists i, k.
  split; [apply list_lookup_insert_eq; by eapply lookup_lt_Some|]. split; [done|].
  apply others_quiet_runner. intros j x _ Hx. by eapply Forall_lookup_1.
Qed.

(** A quiet goroutine other than the one inside the callback moves. *)
Lemma runs_callback_other s s' i0 n i t :
  i <> i0 ->
  runs_callback s i0 n ->
  quiet_thread t ->
  pool s' = <[i:=t]> (pool s) ->
  teardown_calls (history s') = teardown_calls (history s) ->
  runs_callback s' i0 n.
Proof.
  intros Hne (Hn & (k0 & Hi0 & Hk0) & Hothers & Htc) Ht Hp Hh.
  unfold runs_callback. rewrite Hp, Hh. split; [done|]. split; [|split; [|done]].
  - exists k0. split; [|done]. by rewrite list_lookup_insert_ne.
  - by apply others_quiet_insert.
Qed.

Lemma runs_callback_spawn s s' i0 n t :
  runs_callback s i0 n ->
  quiet_thread t ->
  pool s' = pool s ++ [t] ->
  history s' = history s ->
  runs_callback s' i0 n.
Proof.
  intros (Hn & (k0 & Hi0 & Hk0) & Hothers & Htc) Ht Hp Hh.
  unfold runs_callback. rewrite Hp, Hh. split; [done|]. split; [|split; [|done]].
  - exists k0. split; [|done]. by apply lookup_app_l_Some.
  - by apply others_quiet_app.
Qed.

(** Steps from a state in which goroutine [i0] is inside the callback. *)
Lemma teardown_inv_running s l s' i0 n :
  exitOnce s = OnceRunning ->
  runs_callback s i0 n ->
  step onExitCb s l = Some s' ->
  (exitOnce s' = OnceRunning /\ runs_callback s' i0 n /\ l <> Run i0)
  \/ (exitOnce s' = OnceRunning /\ runs_callback s' i0 (S n) /\ l = Run i0 /\ n <> 5%nat)
  \/ (exitOnce s' = OnceRunning /\ runs_callback s' i0 6 /\ n = 5%nat
      /\ exists i r k, i <> i0 /\ l = Run i
                       /\ pool s !! i = Some (RecvClosedOrDefault r :: k))
  \/ (exitOnce s' = OnceDone /\ l = Run i0 /\ n = length onExitCb
      /\ Forall quiet_thread (pool s')
      /\ teardown_calls (history s') = teardown_order).
Proof.
  intros Honce Hrc Hstep.
  pose proof Hrc as (Hn & (k0 & Hi0 & Hk0) & Hothers & Htc).
  destruct l as [i|st|].
  - destruct (decide (i = i0)) as [->|Hne].
    + (* the goroutine inside the callback moves *)
      cbn [step] in Hstep. rewrite Hi0 in Hstep.
      destruct (callback_at n Hn)
        as [(c & Hd & Hlt & Hn5 & Hc & Hcalls) | [(-> & Hd & Hcalls) | (-> & Hd & Hcalls)]];
        rewrite Hd in Hstep.
      * set (rest := drop (S n) onExitCb) in *. cbn [app exec] in Hstep.
        injection Hstep as <-. right. left.
        split; [done|]. split; [|done]. unfold runs_callback. norm_state.
        split; [done|]. split; [|split].
        -- exists k0. split; [|done]. apply list_lookup_insert_eq. by eapply lookup_lt_Some.
        -- by apply others_quiet_runner.
        -- rewrite teardown_calls_snoc. cbn [teardown_view]. rewrite Hc. cbn [from_option].
           by rewrite Hcalls, Htc.
      * set (rest := drop 6 onExitCb) in *. cbn [app exec] in Hstep. discriminate Hstep.
      * cbn [app exec] in Hstep. injection Hstep as <-. right. right. right. norm_state.
        do 3 (split; [done|]).
        split; [by apply all_quiet_insert | by rewrite Htc, Hcalls].
    + (* another goroutine moves *)
      assert (Hqi : forall t, pool s !! i = Some t -> quiet_thread t)
        by (intros t; by apply Hothers).
      run_cases Hstep; norm_state.
      all: pose proof (Hqi _ eq_refl) as Ht;
           apply quiet_thread_cons in Ht as [Hins Hk]; simpl in Hins.
      all: try discriminate Hins.
      all: try congruence.
      all: try (apply negb_true_iff in Hins).
      all: try match goal with
               | Hs : find_sender _ = None |- _ => clear Hs
               end.
      all: try (left; split; [done|]; split; [|congruence];
                eapply runs_callback_other;
                [ exact Hne | exact Hrc | | reflexivity
                | norm_state; rewrite ?teardown_calls_snoc; cbn [teardown_view from_option];
                  rewrite ?Hins; cbn [from_option]; by rewrite ?app_nil_r ];
                solve_quiet).
      (* the receive meets the sender: it is the goroutine inside the callback *)
      apply find_sender_Some in Heqo as [k' Hs]. rewrite Hs in Heqo0.
      injection Heqo0 as <-.
      destruct (decide (n0 = i0)) as [->|Hn0];
        [|by pose proof (Hothers _ _ Hn0 Hs) as Hbad].
      rewrite Hi0 in Hs.
      destruct (callback_at n Hn)
        as [(c & Hd & _) | [(-> & Hd & Hcalls) | (-> & Hd & _)]];
        rewrite Hd in Hs; try discriminate Hs.
      injection Hs as <-.
      right. right. left. split; [done|]. split; [|split; [done|by exists i, on_recv, k]].
      unfold runs_callback. norm_state. cbn [tail].
      split; [simpl; lia|]. split; [|split].
      * exists k0. split; [|done]. rewrite list_lookup_insert_ne by done.
        apply list_lookup_insert_eq. by eapply lookup_lt_Some.
      * apply others_quiet_insert; [|solve_quiet]. by apply others_quiet_runner.
      * by rewrite Htc, Hcalls.
  - (* an ICE state change *)
    cbn [step] in Hstep. injection Hstep as <-. left. split; [done|]. split; [|done].
    eapply runs_callback_spawn; [exact Hrc | apply quiet_handlers | done | done].
  - (* a health-check message *)
    cbn [step] in Hstep. injection Hstep as <-. left. split; [done|]. split; [|done].
    apply (runs_callback_spawn s _ i0 n healthOnMessage Hrc); [reflexivity | done | done].
Qed.

Lemma teardown_invariant s : reachable onExitCb s -> teardown_inv s.
Proof.
  intros Hr. induction Hr as [|s l s' _ IH Hstep] using reachable_ind;
    [apply teardown_inv_init|].
  unfold teardown_inv in *.
  destruct (exitOnce s) eqn:Honce.
  - destruct IH as [Hq Htc].
    destruct (teardown_inv_idle s l s' OnceFresh (or_introl eq_refl) Honce Hq Hstep)
      as [(-> & Hq' & Htc') | (_ & -> & Htc' & i & k & Hi & Hk & Ho)].
    + split; [done | congruence].
    + exists i, 0%nat. split; [simpl; lia|]. split; [by exists k|]. split; [done|].
      by rewrite Htc', Htc.
  - destruct IH as (i0 & n & Hrc).
    destruct (teardown_inv_running s l s' i0 n Honce Hrc Hstep)
      as [(-> & Hrc' & _) | [(-> & Hrc' & _) | [(-> & Hrc' & _) | (-> & _ & _ & Hq & Htc)]]];
      eauto.
  - destruct IH as [Hq Htc].
    destruct (teardown_inv_idle s l s' OnceDone (or_intror eq_refl) Honce Hq Hstep)
      as [(-> & Hq' & Htc') | (Hbad & _)]; [|done].
    split; [done | congruence].
Qed.


Lemma calls_of_take_prefix (n : nat) (t : thread) :
  calls_of t = calls_of (take n t) ++ calls_of (drop n t).
Proof. unfold calls_of. by rewrite <- omap_app, take_drop. Qed.

Lemma teardown_order_NoDup : NoDup teardown_order.
Proof.
  apply NoDup_ListNoDup. unfold teardown_order.
  repeat (constructor; [simpl; intuition discriminate|]). constructor.
Qed.


(** From the ICE path the same callback runs to its end, and the worker
    returns. *)
Lemma ice_failure_stops_worker :
  exists s, run onExitCb init ice_failure_run = Some s
    /\ exitOnce s = OnceDone /\ pool s !! 0%nat = Some [].
Proof. eexists. split; [vm_compute; reflexivity|]. split; reflexivity. Qed.

(** ** Teardown from the health-check path *)

Lemma plain_thread_cons ins k :
  plain_thread (ins :: k) <-> plain ins = true /\ plain_thread k.
Proof. unfold plain_thread. simpl. apply andb_true_iff. Qed.

Lemma plain_handlers st : plain_thread (onICEConnectionStateChange st).
Proof. by destruct st. Qed.

Lemma handlers_plain_insert (i : nat) (t : thread) (p : list thread) :
  (forall j x, j <> 0%nat -> p !! j = Some x -> plain_thread x) ->
  (i <> 0%nat -> plain_thread t) ->
  forall j x, j <> 0%nat -> <[i:=t]> p !! j = Some x -> plain_thread x.
Proof.
  intros Hp Ht j x Hj Hx.
  apply list_lookup_insert_Some in Hx as [(-> & <- & _) | (_ & Hx)]; [by apply Ht|].
  by apply (Hp j).
Qed.

Lemma handlers_plain_invariant s : reachable onExitCb s -> handlers_plain s.
Proof.
  intros Hr. induction Hr as [|s l s' _ IH Hstep] using reachable_ind.
  - intros [|j] t Hj Ht; [done|]. done.
  - unfold handlers_plain in *. step_cases Hstep; norm_state.
    all: try (apply handlers_plain_insert;
              [ first [ exact IH
                      | apply handlers_plain_insert; [exact IH|];
                        intros Hn0;
                        match goal with
                        | Hs : pool _ !! ?n = Some ?l |- plain_thread (tail ?l) =>
                            pose proof (IH _ _ Hn0 Hs) as Hl; destruct l; [done|];
                            by apply plain_thread_cons in Hl as [_ Hl]
                        end ]
              | intros Hi0; pose proof (IH _ _ Hi0 Hi) as Ht;
                apply plain_thread_cons in Ht as [Hins Hk]; simpl in Hins;
                first [ discriminate Hins | exact Hk | idtac ] ]).
    all: try (intros j t Hj Ht; apply lookup_app_Some in Ht as [Ht | [_ Ht]];
              [ by apply (IH j)
              | destruct (j - length (pool s))%nat; simpl in Ht; [|done];
                injection Ht as <-; first [apply plain_handlers | reflexivity] ]).
Qed.

(** Where an entry of the exit callback in the history comes from. *)
Lemma exit_event_origin cb s l s' who :
  step cb s l = Some s' ->
  In (EvExitCb who) (history s') ->
  In (EvExitCb who) (history s)
  \/ (exists i k, l = Run i /\ pool s !! i = Some (OnceDo who :: k)
                  /\ exitOnce s = OnceFresh /\ exitOnce s' = OnceRunning
                  /\ pool s' = <[i := cb ++ OnceRet :: k]> (pool s)
                  /\ history s' = history s ++ [EvExitCb who]).
Proof.
  intros Hstep Hin.
  step_cases Hstep; norm_state; rewrite ?in_app_iff in Hin; simpl in Hin;
    try (left; tauto);
    destruct Hin as [Hin | [Hin | []]]; try discriminate Hin; try (by left).
  injection Hin as ->. right. by exists i, k.
Qed.


(** Once the worker has entered the exit callback, it stays inside it, at
    or before the send on [w.closed], for ever: the only receiver of that
    send is the worker itself. *)
Lemma health_teardown_stuck s :
  reachable onExitCb s ->
  In (EvExitCb ByHealth) (history s) ->
  exitOnce s = OnceRunning /\ exists n, (n <= 5)%nat /\ runs_callback s 0 n.
Proof.
  intros Hr. induction Hr as [|s l s' Hrs IH Hstep] using reachable_ind; [intros []|].
  intros Hin.
  destruct (exit_event_origin _ _ _ _ _ Hstep Hin)
    as [Hold | (i & k & -> & Hi & Hfresh & Hrun' & Hp & Hh)].
  - destruct (IH Hold) as (Honce & n & Hn & Hrc).
    destruct (teardown_inv_running s l s' 0 n Honce Hrc Hstep)
      as [(Ho & Hrc' & _) | [(Ho & Hrc' & _ & Hn5)
          | [(_ & _ & _ & i & r & k & Hi0 & _ & Hi) | (_ & _ & Hlen & _)]]].
    + split; [done|]. by exists n.
    + split; [done|]. exists (S n). split; [lia | done].
    + by pose proof (handlers_plain_invariant s Hrs i _ Hi0 Hi).
    + simpl in Hlen. lia.
  - destruct (decide (i = 0%nat)) as [->|Hi0];
      [|by pose proof (handlers_plain_invariant s Hrs i _ Hi0 Hi)].
    pose proof (teardown_invariant s Hrs) as Hinv. unfold teardown_inv in Hinv.
    rewrite Hfresh in Hinv. destruct Hinv as [Hq Htc].
    split; [done|]. exists 0%nat. split; [lia|].
    unfold runs_callback. rewrite Hp, Hh. split; [simpl; lia|]. split; [|split].
    + exists k. split; [apply list_lookup_insert_eq; by eapply lookup_lt_Some|].
      pose proof (Forall_lookup_1 _ _ _ _ Hq Hi) as Ht.
      by apply quiet_thread_cons in Ht as [_ Ht].
    + apply others_quiet_runner. intros j x _ Hx. by eapply Forall_lookup_1.
    + rewrite teardown_calls_snoc, Htc. reflexivity.
Qed.

Lemma In_teardown_calls (c : call) (h : list event) :
  In (EvCall c) h -> is_teardown_call c = true -> In c (teardown_calls h).
Proof.
  intros Hin Hc. apply list_elem_of_In, list_elem_of_omap.
  exists (EvCall c). split; [by apply list_elem_of_In|]. simpl. by rewrite Hc.
Qed.

(** C7 fails on the code when the teardown is entered from the
    health-check path.  The worker itself runs the exit callback, so
    [StopClient]'s send on the unbuffered [w.closed] has no receiver: in
    every state reached afterwards the latch is still running the callback,
    goroutine 0 (the worker) is still inside it at or before that send, and
    no listener, queue or relayer has been closed.  At the send the worker
    cannot take a step. *)
Theorem C7_health_expiry_never_leaves_StopClient (s : state) :
  reachable onExitCb s ->
  In (EvExitCb ByHealth) (history s) ->
  exitOnce s = OnceRunning
  /\ (exists n k, (n <= 5)%nat /\ pool s !! 0%nat = Some (drop n onExitCb ++ OnceRet :: k))
  /\ pool s !! 0%nat <> Some []
  /\ (exists rest, before_signal = teardown_calls (history s) ++ rest)
  /\ (forall c, (exists m, teardown_step c = Some m /\ (3 <= m)%nat) ->
                ~ In (EvCall c) (history s))
  /\ (forall k, pool s !! 0%nat = Some (SendClosed :: k) -> step onExitCb s (Run 0) = None).
Proof.
  intros Hr Hin.
  destruct (health_teardown_stuck s Hr Hin) as (Honce & n & Hn & Hrc).
  pose proof Hrc as (_ & (k & Hk & _) & _ & Htc).
  assert (Hpre : exists rest, before_signal = teardown_calls (history s) ++ rest).
  { rewrite Htc. exists (calls_of (drop n (take 5 onExitCb))).
    replace (take n onExitCb) with (take n (take 5 onExitCb))
      by (rewrite take_take; f_equal; lia).
    apply (calls_of_take_prefix n (take 5 onExitCb)). }
  split; [done|]. split; [by exists n, k|]. split; [|split; [done|split]].
  - rewrite Hk. intros Hbad. injection Hbad as Hbad.
    by apply app_nil in Hbad as [_ Hbad].
  - intros c (m & Hm & Hge) Hc.
    assert (Htd : is_teardown_call c = true).
    { unfold is_teardown_call. rewrite Hm. by destruct c as [[]| | | | | | | |]. }
    pose proof (In_teardown_calls c _ Hc Htd) as Hcin.
    destruct Hpre as [rest Hrest].
    assert (Hb : In c before_signal) by (rewrite Hrest; apply in_or_app; by left).
    simpl in Hb. destruct Hb as [<-|[<-|[<-|[<-|[<-|[]]]]]]; simpl in Hm;
      try discriminate Hm; injection Hm as <-; lia.
  - intros k' Hk'. cbn [step]. rewrite Hk'. reflexivity.
Qed.

Lemma C7_witness :
  exists s, run onExitCb init silent_run = Some s
    /\ In (EvExitCb ByHealth) (history s)
    /\ exitOnce s = OnceRunning
    /\ step onExitCb s (Run 0) = None.
Proof.
  destruct silent_run_history as (s & Hrun & Hh).
  exists s. split; [exact Hrun|].
  assert (Hin : In (EvExitCb ByHealth) (history s)) by (rewrite Hh; simpl; tauto).
  split; [exact Hin|].
  destruct (C7_health_expiry_never_leaves_StopClient s (ex_intro _ silent_run Hrun) Hin)
    as (Honce & _ & _ & _ & _ & Hblocked).
  split; [exact Honce|].
  apply (Hblocked (drop 6 onExitCb ++ [OnceRet; Return; Unlock; Sleep 2000]
                     ++ healthWorker)).
  vm_compute in Hrun. injection Hrun as <-. reflexivity.
Defined.

(** The same send has no receiver either when ICE fails while the worker
    is on its way to the latch: the ICE handler runs the callback and waits
    in the send, the worker waits for the latch. *)
Lemma ice_failure_during_expiry_blocks :
  exists s, run onExitCb init double_terminal_run = Some s
    /\ exitOnce s = OnceRunning
    /\ step onExitCb s (Run 0) = None
    /\ step onExitCb s (Run 1) = None
    /\ length (pool s) = 2%nat.
Proof. eexists. split; [vm_compute; reflexivity|]. repeat split. Qed.

(** ** Runs from a resting bridge *)

Lemma find_sender_idle (k : nat) : find_sender (replicate k []) = None.
Proof. induction k as [|k IH]; [done|]. cbn [replicate find_sender is_sending]. by rewrite IH. Qed.

Lemma replicate_snoc {A} (k : nat) (x : A) : replicate k x ++ [x] = replicate (S k) x.
Proof. induction k as [|k IH]; [done|]. cbn. by rewrite IH. Qed.

Lemma run_cons cb s l s' ls :
  step cb s l = Some s' -> run cb s (l :: ls) = run cb s' ls.
Proof. intros H. cbn [run]. by rewrite H. Qed.

(** The scheduler on a pool of the worker, [k] handlers that have
    returned, and at most one more goroutine. *)
Lemma step_worker cb o l c ins w rest lg :
  step cb (mkState o l c ((ins :: w) :: rest) lg) (Run 0)
  = exec cb ins w 0 (mkState o l c ((ins :: w) :: rest) lg).
Proof. reflexivity. Qed.

Lemma lookup_last_goroutine (w t : thread) (k : nat) :
  (w :: replicate k [] ++ [t]) !! S k = Some t.
Proof. cbn. apply list_lookup_middle. by rewrite length_replicate. Qed.

Lemma step_handler cb o l c w k ins t lg :
  step cb (mkState o l c (w :: replicate k [] ++ [ins :: t]) lg) (Run (S k))
  = exec cb ins t (S k) (mkState o l c (w :: replicate k [] ++ [ins :: t]) lg).
Proof. unfold step. cbn [pool]. by rewrite lookup_last_goroutine. Qed.

Lemma set_thread_worker o l c w w' rest lg :
  set_thread 0 w' (mkState o l c (w :: rest) lg) = mkState o l c (w' :: rest) lg.
Proof. reflexivity. Qed.

Lemma set_thread_handler o l c w k t t' lg :
  set_thread (S k) t' (mkState o l c (w :: replicate k [] ++ [t]) lg)
  = mkState o l c (w :: replicate k [] ++ [t']) lg.
Proof.
  unfold set_thread. cbn [pool exitOnce lock missedHealthCheckCounts log]. f_equal.
  change (w :: <[k:=t']> (replicate k [] ++ [t]) = w :: replicate k [] ++ [t']). f_equal.
  rewrite insert_app_r_alt by (by rewrite length_replicate).
  by rewrite length_replicate, Nat.sub_diag.
Qed.

Lemma find_sender_last (w t : thread) (k : nat) :
  is_sending w = false ->
  find_sender (w :: replicate k [] ++ [t]) = if is_sending t then Some (S k) else None.
Proof.
  intros Hw. cbn [find_sender]. rewrite Hw.
  induction k as [|k IH]; cbn [replicate app find_sender is_sending].
  - by destruct (is_sending t).
  - rewrite IH. by destruct (is_sending t).
Qed.

Lemma find_sender_resting (w : thread) (k : nat) :
  is_sending w = false -> find_sender (w :: replicate k []) = None.
Proof. intros Hw. cbn [find_sender]. by rewrite Hw, find_sender_idle. Qed.

(* One label of a schedule, on a state in normal form. *)
Ltac norm_step :=
  cbn [exec exitOnce lock missedHealthCheckCounts pool log];
  rewrite ?find_sender_last, ?find_sender_resting by reflexivity;
  cbn [is_sending fmap option_fmap option_map];
  rewrite ?lookup_last_goroutine;
  try match goal with
      | H : (_ =? _) = _ |- _ => rewrite H
      end;
  unfold onExitCb, StopClient;
  cbn [tail app];
  rewrite ?set_thread_handler, ?set_thread_worker;
  rewrite ?set_thread_handler, ?set_thread_worker;
  unfold emit, set_lock, set_count, set_once;
  cbn [exitOnce lock missedHealthCheckCounts pool log].

Ltac sched_step :=
  lazymatch goal with
  | |- run _ _ (Run 0 :: _) = _ =>
      erewrite run_cons; [|rewrite step_worker; norm_step; reflexivity]
  | |- run _ _ (Run (S _) :: _) = _ =>
      erewrite run_cons; [|rewrite step_handler; norm_step; reflexivity]
  | |- run _ _ (_ :: _) = _ =>
      erewrite run_cons; [|cbn [step];
                           unfold spawn, healthOnMessage, onICEConnectionStateChange;
                           cbn [pool exitOnce lock missedHealthCheckCounts log app
                                is_connected is_terminal];
                           reflexivity]
  end.

Lemma worker_turn_resting cb (z k : nat) (lg : list event) :
  (z < 4)%nat ->
  run cb (resting z k lg) worker_turn
  = Some (resting (S z) k (EvSleep 2000 :: EvTick (Z.of_nat z + 1) :: lg)).
Proof.
  intros Hz.
  assert (Hne : (Z.of_nat z + 1 =? MaxMissedHealthCheck) = false)
    by (apply Z.eqb_neq; unfold MaxMissedHealthCheck; lia).
  unfold worker_turn, resting, healthWorker. cbn [replicate].
  do 6 sched_step. cbn [run]. do 2 f_equal. lia.
Qed.

Lemma handled_message_resting cb (z k : nat) (lg : list event) :
  run cb (resting z k lg) (handled_message (S k))
  = Some (resting 0 (S k) (EvHealthMsg :: lg)).
Proof.
  unfold handled_message, resting, healthWorker, healthOnMessage.
  do 4 sched_step. cbn [run]. by rewrite replicate_snoc.
Qed.

Lemma handled_messages_resting cb (m : nat) : forall (z k : nat) (lg : list event),
  m <> 0%nat ->
  run cb (resting z k lg) (handled_messages (S k) m)
  = Some (resting 0 (k + m) (replicate m EvHealthMsg ++ lg)).
Proof.
  induction m as [|m IH]; intros z k lg Hm; [done|].
  cbn [handled_messages]. rewrite run_app, handled_message_resting.
  destruct m as [|m].
  - cbn [handled_messages run replicate app]. by rewrite Nat.add_1_r.
  - rewrite IH by done. do 2 f_equal; [lia|].
    change (EvHealthMsg :: lg) with ([EvHealthMsg] ++ lg).
    rewrite app_assoc. f_equal. by rewrite <- replicate_cons_app.
Qed.

Lemma silent_sleeps_calm (ms : list nat) : forall z,
  (z <= 4)%nat -> calm z ms = true -> (silent_sleeps z ms <= 4)%nat.
Proof.
  induction ms as [|m ms IH]; intros z Hz Hc; [done|].
  cbn [calm] in Hc. apply andb_true_iff in Hc as [Hlt Hc]. apply Nat.ltb_lt in Hlt.
  cbn [silent_sleeps foldl]. apply IH; [destruct m; lia | exact Hc].
Qed.

(** A schedule of turns in none of which the counter reaches the maximum
    runs to a resting bridge and records the ticks, the sleeps and the
    resets of its turns, nothing else. *)
Lemma prompt_resting cb (ms : list nat) : forall (z k : nat) (lg : list event),
  calm z ms = true ->
  exists lg',
    run cb (resting z k lg) (prompt k ms)
    = Some (resting (silent_sleeps z ms) (k + sum_list ms) lg')
    /\ reverse lg' = reverse lg ++ prompt_events z ms.
Proof.
  induction ms as [|m ms IH]; intros z k lg Hc.
  - exists lg. cbn. rewrite Nat.add_0_r, app_nil_r. done.
  - cbn [calm] in Hc. apply andb_true_iff in Hc as [Hlt Hc]. apply Nat.ltb_lt in Hlt.
    cbn [prompt silent_sleeps foldl sum_list sum_list_with prompt_events].
    rewrite run_app, (worker_turn_resting cb z k lg Hlt), run_app.
    destruct m as [|m].
    + cbn [handled_messages run].
      destruct (IH (S z) k (EvSleep 2000 :: EvTick (Z.of_nat z + 1) :: lg) Hc)
        as (lg' & Hrun & Hlog).
      exists lg'. rewrite Nat.add_0_r, Nat.add_0_l. split; [exact Hrun|].
      rewrite Hlog, !reverse_cons. cbn [replicate app]. by rewrite <- !app_assoc.
    + rewrite handled_messages_resting by done.
      destruct (IH 0%nat (k + S m)%nat
                  (replicate (S m) EvHealthMsg ++ EvSleep 2000 :: EvTick (Z.of_nat z + 1) :: lg)
                  Hc) as (lg' & Hrun & Hlog).
      exists lg'. rewrite Nat.add_assoc. split; [exact Hrun|].
      rewrite Hlog, reverse_app, !reverse_cons, reverse_replicate.
      cbn [app]. by rewrite <- !app_assoc.
Qed.

Lemma prompt_events_beats (ms : list nat) : forall z e,
  In e (prompt_events z ms) -> health_view e <> None \/ exists ms', e = EvSleep ms'.
Proof.
  induction ms as [|m ms IH]; intros z e Hin; [destruct Hin|].
  cbn [prompt_events app] in Hin.
  destruct Hin as [<- | [<- | Hin]]; [by left | right; by eexists |].
  apply in_app_or in Hin as [Hin | Hin]; [|by apply (IH _ _ Hin)].
  apply list_elem_of_In, elem_of_replicate in Hin as [-> _]. by left.
Qed.

(** The worker's next turn from a resting bridge: a tick and a sleep, or
    after four silent sleeps the fifth tick, the log line and the latch. *)
Lemma next_turn_resting (z k : nat) (lg : list event) :
  (z <= 4)%nat ->
  exists s, run onExitCb (resting z k lg) worker_turn = Some s
            /\ history s = reverse lg ++ next_turn_events z.
Proof.
  intros Hz. destruct (decide (z = 4%nat)) as [->|Hne].
  - assert (Heq : (Z.of_nat 4 + 1 =? MaxMissedHealthCheck) = true) by reflexivity.
    unfold worker_turn, resting, healthWorker. cbn [replicate].
    eexists. split.
    + do 6 sched_step. cbn [run]. reflexivity.
    + unfold history. cbn [log]. rewrite !reverse_cons. by rewrite <- !app_assoc.
  - eexists. split; [apply worker_turn_resting; lia|].
    unfold history, resting. cbn [log]. rewrite !reverse_cons.
    unfold next_turn_events. destruct (Nat.eqb_spec z 4); [done|].
    by rewrite <- !app_assoc.
Qed.

(** ** A handler started in any state *)

Lemma step_last cb o l c (p : list thread) ins t lg :
  step cb (mkState o l c (p ++ [ins :: t]) lg) (Run (length p))
  = exec cb ins t (length p) (mkState o l c (p ++ [ins :: t]) lg).
Proof. unfold step. cbn [pool]. by rewrite list_lookup_middle. Qed.

Lemma set_thread_last o l c (p : list thread) t t' lg :
  set_thread (length p) t' (mkState o l c (p ++ [t]) lg) = mkState o l c (p ++ [t']) lg.
Proof.
  unfold set_thread. cbn [pool exitOnce lock missedHealthCheckCounts log]. f_equal.
  rewrite insert_app_r_alt by done. by rewrite Nat.sub_diag.
Qed.

Ltac last_step :=
  erewrite run_cons;
  [|rewrite step_last; cbn [exec exitOnce lock missedHealthCheckCounts pool log];
    rewrite ?set_thread_last; unfold emit, set_lock, set_count, set_once;
    cbn [exitOnce lock missedHealthCheckCounts pool log app]; reflexivity].

(** A health-check message that finds the mutex free: its handler takes
    the mutex, resets the counter and releases the mutex. *)
Lemma message_resets cb (s : state) :
  lock s = false ->
  exists s', run cb s (handled_message (length (pool s))) = Some s'
             /\ missedHealthCheckCounts s' = 0
             /\ lock s' = false
             /\ history s' = history s ++ [EvHealthMsg].
Proof.
  destruct s as [o l c p lg]. cbn [lock pool]. intros ->.
  unfold handled_message. eexists. split.
  - erewrite run_cons; [|cbn [step]; unfold spawn, healthOnMessage;
                         cbn [pool exitOnce lock missedHealthCheckCounts log]; reflexivity].
    do 3 last_step. cbn [run]. reflexivity.
  - cbn [missedHealthCheckCounts lock]. repeat split.
    unfold history. cbn [log]. by rewrite reverse_cons.
Qed.

(** A terminal ICE state change in any state: the handler logs and comes
    to the latch; there the callback starts if the latch is fresh, the
    handler waits if the callback is running, and it goes on without a
    second run if the callback has run. *)
Lemma ice_terminal_goes_to_latch (s : state) (st : ice_state) :
  is_terminal st = true ->
  exists s1, run onExitCb s [IceStateChange st; Run (length (pool s))] = Some s1
    /\ pool s1 !! length (pool s) = Some [OnceDo ByIce]
    /\ history s1 = history s ++ [EvCall (Log (LogIceFailed st))]
    /\ match exitOnce s with
       | OnceFresh =>
           exists s2, step onExitCb s1 (Run (length (pool s))) = Some s2
                      /\ history s2 = history s1 ++ [EvExitCb ByIce]
                      /\ pool s2 !! length (pool s) = Some (onExitCb ++ [OnceRet])
       | OnceRunning => step onExitCb s1 (Run (length (pool s))) = None
       | OnceDone =>
           exists s2, step onExitCb s1 (Run (length (pool s))) = Some s2
                      /\ history s2 = history s1
                      /\ pool s2 !! length (pool s) = Some []
       end.
Proof.
  intros Hst. destruct s as [o l c p lg]. cbn [pool exitOnce].
  assert (Hh : onICEConnectionStateChange st = [Call (Log (LogIceFailed st)); OnceDo ByIce])
    by (by destruct st).
  eexists. split; [|split; [|split]].
  - erewrite run_cons; [|cbn [step]; unfold spawn; rewrite Hh;
                         cbn [pool exitOnce lock missedHealthCheckCounts log]; reflexivity].
    last_step. cbn [run]. reflexivity.
  - cbn [pool]. by apply list_lookup_middle.
  - unfold history. cbn [log]. by rewrite reverse_cons.
  - destruct o.
    + eexists. split; [|split].
      * rewrite step_last. cbn [exec exitOnce]. rewrite set_thread_last.
        unfold emit, set_once. cbn [exitOnce lock missedHealthCheckCounts pool log app].
        reflexivity.
      * unfold history. cbn [log]. by rewrite !reverse_cons.
      * cbn [pool]. by apply list_lookup_middle.
    + rewrite step_last. reflexivity.
    + eexists. split; [|split].
      * rewrite step_last. cbn [exec exitOnce]. rewrite set_thread_last. reflexivity.
      * reflexivity.
      * cbn [pool]. by apply list_lookup_middle.
Qed.

(** ** The latch and the body of the exit callback *)

(** The latch is left fresh until the callback is started, and is entered
    at most once. *)
Lemma latch_invariant cb s :
  reachable cb s ->
  (exitOnce s = OnceFresh -> exit_runs (history s) = 0%nat)
  /\ (exit_runs (history s) <= 1)%nat.
Proof.
  intros Hr. unfold history. rewrite exit_runs_reverse.
  induction Hr as [|s l s' _ [IH1 IH2] Hstep] using reachable_ind.
  - simpl. split; [done | lia].
  - step_cases Hstep; simpl;
      (split; [intros ?; try congruence; auto | rewrite ?IH1 by congruence; lia]).
Qed.

(** A latch that is no longer fresh has been entered. *)
Lemma latch_taken s :
  reachable onExitCb s -> exitOnce s <> OnceFresh -> exit_runs (history s) = 1%nat.
Proof.
  intros Hr. unfold history. rewrite exit_runs_reverse.
  induction Hr as [|s l s' Hrs IH Hstep] using reachable_ind; [done|].
  destruct (latch_invariant onExitCb s Hrs) as [Hfresh _].
  unfold history in Hfresh. rewrite exit_runs_reverse in Hfresh.
  pose proof (teardown_invariant s Hrs) as Hinv. unfold teardown_inv in Hinv.
  step_cases Hstep; simpl; intros Ho; try (by apply IH).
  - by rewrite Hfresh.
  - apply IH. intros Hf. rewrite Hf in Hinv. destruct Hinv as [Hq _].
    by pose proof (Forall_lookup_1 _ _ _ _ Hq Hi).
Qed.

Lemma body_runs_calls (h : list event) : body_runs h = body_count (teardown_calls h).
Proof.
  induction h as [|e h IH]; [done|].
  destruct e as [c| | | |]; try exact IH.
  destruct c as [[]| | | | | | | |]; cbn; by rewrite ?IH.
Qed.

Lemma body_count_app (a b : list call) : body_count (a ++ b) = (body_count a + body_count b)%nat.
Proof.
  induction a as [|c a IH]; [done|].
  destruct c as [[]| | | | | | | |]; cbn; by rewrite ?IH.
Qed.

(** The calls of the callback made so far are an initial part of its
    calls in program order. *)
Lemma teardown_prefix s :
  reachable onExitCb s -> exists rest, teardown_order = teardown_calls (history s) ++ rest.
Proof.
  intros Hr. pose proof (teardown_invariant s Hr) as Hinv. unfold teardown_inv in Hinv.
  destruct (exitOnce s).
  - destruct Hinv as [_ ->]. by exists teardown_order.
  - destruct Hinv as (i & n & _ & _ & _ & ->).
    exists (calls_of (drop n onExitCb)). apply (calls_of_take_prefix n onExitCb).
  - destruct Hinv as [_ ->]. exists []. by rewrite app_nil_r.
Qed.

(** The body of the callback runs only inside the latch. *)
Lemma body_inside_latch s :
  reachable onExitCb s -> (body_runs (history s) <= exit_runs (history s))%nat.
Proof.
  intros Hr. pose proof (latch_taken s Hr) as Htaken.
  rewrite body_runs_calls.
  assert (Hcases : exitOnce s = OnceFresh \/ exitOnce s <> OnceFresh)
    by (destruct (exitOnce s); [by left | by right | by right]).
  destruct Hcases as [Ho | Ho].
  - pose proof (teardown_invariant s Hr) as Hinv. unfold teardown_inv in Hinv.
    rewrite Ho in Hinv. destruct Hinv as [_ ->]. cbn. lia.
  - rewrite (Htaken Ho). destruct (teardown_prefix s Hr) as [rest Hrest].
    apply (f_equal body_count) in Hrest. rewrite body_count_app in Hrest.
    cbn in Hrest. lia.
Qed.

(** ** The worker on its way to the latch *)

Lemma history_grows cb s l s' :
  step cb s l = Some s' -> exists es, history s' = history s ++ es.
Proof.
  intros Hstep. step_cases Hstep; norm_state;
    first [ by exists [] ; rewrite app_nil_r | by eexists ].
Qed.

Lemma latch_stays_taken cb s l s' :
  step cb s l = Some s' -> exitOnce s <> OnceFresh -> exitOnce s' <> OnceFresh.
Proof. intros Hstep. step_cases Hstep; norm_state; congruence. Qed.

(** A goroutine that is not waiting in a send is moved by its own steps
    only. *)
Lemma goroutine_kept cb s l s' (i : nat) (t : list instr) :
  step cb s l = Some s' -> l <> Run i ->
  pool s !! i = Some t -> is_sending t = false ->
  pool s' !! i = Some t.
Proof.
  intros Hstep Hl Hi Hns.
  destruct l as [j|st|].
  - assert (Hne : j <> i) by congruence.
    run_cases Hstep; norm_state; rewrite ?list_lookup_insert_ne by done; try exact Hi.
    apply find_sender_Some in Heqo as [k' Hs].
    rewrite list_lookup_insert_ne; [exact Hi|].
    intros ->. rewrite Hi in Hs. injection Hs as ->. discriminate Hns.
  - cbn [step] in Hstep. injection Hstep as <-. norm_state. by apply lookup_app_l_Some.
  - cbn [step] in Hstep. injection Hstep as <-. norm_state. by apply lookup_app_l_Some.
Qed.

Lemma is_worker_step (l : label) : l = Run 0 \/ l <> Run 0.
Proof. destruct l as [[|i]| |]; [by left | by right | by right | by right]. Qed.

(** The step that takes the counter to the maximum is the worker's. *)
Lemma expiry_is_the_workers s l s' :
  reachable onExitCb s ->
  step onExitCb s l = Some s' ->
  ~ expired (history s) -> expired (history s') ->
  l = Run 0 /\ exists k, pool s' !! 0%nat = Some (expiry_branch ++ k).
Proof.
  intros Hr Hstep Hne He.
  destruct (expiry_goes_to_latch s l s' Hr Hstep Hne He) as (i & k & -> & Hk).
  destruct (decide (i = 0%nat)) as [->|Hi0]; [split; [done | by exists k]|].
  exfalso. pose proof (handlers_plain_invariant s Hr) as Hplain.
  run_cases Hstep; norm_state; rewrite ?expired_snoc in He;
    try (pose proof (Hplain _ _ Hi0 Hi) as Hp; apply plain_thread_cons in Hp as [Hp _];
         discriminate Hp);
    try tauto; destruct He as [He | He]; try tauto; discriminate He.
Qed.

(** Once the counter has reached the maximum, the callback has been
    started from the health-check path, or the worker is about to log the
    expiry and go to the latch, or it is at the latch, or the latch has
    been taken before. *)
Lemma expiry_reaches_latch s :
  reachable onExitCb s ->
  expired (history s) ->
  In (EvExitCb ByHealth) (history s)
  \/ (exists k, pool s !! 0%nat = Some (expiry_branch ++ k))
  \/ (exists k, pool s !! 0%nat = Some (OnceDo ByHealth :: Return :: k))
  \/ exitOnce s <> OnceFresh.
Proof.
  intros Hr. induction Hr as [|s l s' Hrs IH Hstep] using reachable_ind; [intros []|].
  intros He.
  destruct (In_dec event_eq_dec (EvTick MaxMissedHealthCheck) (history s)) as [Hold | Hnew].
  - destruct (IH Hold) as [Hin | [[k Hk] | [[k Hk] | Ho]]].
    + left. destruct (history_grows _ _ _ _ Hstep) as [es ->]. apply in_or_app. by left.
    + destruct (is_worker_step l) as [-> | Hl].
      * right. right. left. exists k.
        cbn [step] in Hstep. rewrite Hk in Hstep. cbn [expiry_branch app exec] in Hstep.
        injection Hstep as <-. norm_state.
        apply list_lookup_insert_eq. by eapply lookup_lt_Some.
      * right. left. exists k. by eapply goroutine_kept.
    + destruct (is_worker_step l) as [-> | Hl].
      * cbn [step] in Hstep. rewrite Hk in Hstep. cbn [exec] in Hstep.
        destruct (exitOnce s) eqn:Ho; [|discriminate Hstep|].
        -- injection Hstep as <-. left. norm_state. apply in_or_app. right. by left.
        -- injection Hstep as <-. right. right. right. norm_state. congruence.
      * right. right. left. exists k. by eapply goroutine_kept.
    + right. right. right. by eapply latch_stays_taken.
  - right. left. by destruct (expiry_is_the_workers s l s' Hrs Hstep Hnew He) as [_ ?].
Qed.

(** ** The teardown from the ICE path *)

(** From a resting bridge a terminal ICE state change leads, when the
    handler, the worker and the handler again are given their turns, to a
    teardown that has returned and a worker that has returned. *)
Lemma ice_teardown_resting (z k : nat) (lg : list event) (st : ice_state) :
  is_terminal st = true ->
  exists lg',
    run onExitCb (resting z k lg) (ice_teardown (S k) st)
    = Some (mkState OnceDone false (Z.of_nat z) ([] :: replicate (S k) []) lg').
Proof.
  intros Hst. unfold ice_teardown, resting, healthWorker. cbn [replicate app].
  destruct st; try discriminate Hst; eexists;
    (do 19 sched_step); cbn [run]; by rewrite replicate_snoc.
Qed.

Lemma exit_runs_In (h : list event) :
  (0 < exit_runs h)%nat -> exists who, In (EvExitCb who) h.
Proof.
  induction h as [|e h IH]; cbn [exit_runs]; [lia|]. intros H.
  destruct e; try (destruct (IH H) as [who Hw]; exists who; by right).
  eexists. by left.
Qed.

(** ** The claims on the latch, the health check and the teardown *)

(** C1: in every state the bridge can reach, whatever ICE state changes
    and health-check messages arrive and however the goroutines are
    scheduled, the latch [w.exitOnce] has been entered at most once, the
    body of the exit callback has been started only inside the latch, and
    none of its calls has been made twice.  Every terminal path comes to
    the latch: the handler of an ICE state Failed, Closed or Disconnected,
    started in any state, logs and is then at [w.exitOnce.Do(exitCb)],
    where the callback starts if the latch is fresh, the handler waits if
    the callback is running, and the handler goes on without a second run
    if it has run; and the step that takes the counter to the maximum is
    the worker's and leaves it about to log and to enter the same latch.
    The count of entries holds for any callback. *)
Theorem C1_exit_callback_at_most_once (s : state) :
  reachable onExitCb s ->
  (exit_runs (history s) <= 1)%nat
  /\ (body_runs (history s) <= exit_runs (history s))%nat
  /\ NoDup (teardown_calls (history s))
  /\ (forall st, is_terminal st = true ->
        exists s1, run onExitCb s [IceStateChange st; Run (length (pool s))] = Some s1
          /\ pool s1 !! length (pool s) = Some [OnceDo ByIce]
          /\ history s1 = history s ++ [EvCall (Log (LogIceFailed st))]
          /\ match exitOnce s with
             | OnceFresh =>
                 exists s2, step onExitCb s1 (Run (length (pool s))) = Some s2
                            /\ history s2 = history s1 ++ [EvExitCb ByIce]
                            /\ pool s2 !! length (pool s) = Some (onExitCb ++ [OnceRet])
             | OnceRunning => step onExitCb s1 (Run (length (pool s))) = None
             | OnceDone =>
                 exists s2, step onExitCb s1 (Run (length (pool s))) = Some s2
                            /\ history s2 = history s1
                            /\ pool s2 !! length (pool s) = Some []
             end)
  /\ (forall l s', step onExitCb s l = Some s' ->
        ~ expired (history s) -> expired (history s') ->
        l = Run 0
        /\ exists k, pool s' !! 0%nat
                     = Some (Call (Log LogHealthCheckFailed) :: OnceDo ByHealth :: Return :: k))
  /\ (forall exitCb s0, reachable exitCb s0 -> (exit_runs (history s0) <= 1)%nat).
Proof.
  intros Hr.
  split; [apply (latch_invariant onExitCb s Hr)|].
  split; [by apply body_inside_latch|].
  split; [|split; [|split]].
  - destruct (teardown_prefix s Hr) as [rest Hrest]. pose proof teardown_order_NoDup as Hnd.
    rewrite Hrest in Hnd. by apply NoDup_app in Hnd as [Hnd _].
  - intros st Hst. by apply ice_terminal_goes_to_latch.
  - intros l s' Hstep Hne He. by apply (expiry_is_the_workers s l s').
  - intros cb s0 Hr0. apply (latch_invariant cb s0 Hr0).
Qed.

Lemma C1_witness :
  exists s, run onExitCb init double_terminal_run = Some s
    /\ In (EvTick MaxMissedHealthCheck) (history s)
    /\ In (EvCall (Log (LogIceFailed ICEFailed))) (history s)
    /\ (exit_runs (history s) <= 1)%nat
    /\ (body_runs (history s) <= 1)%nat.
Proof.
  assert (H : exists s, run onExitCb init double_terminal_run = Some s
                        /\ In (EvTick MaxMissedHealthCheck) (history s)
                        /\ In (EvCall (Log (LogIceFailed ICEFailed))) (history s)).
  { eexists. split; [vm_compute; reflexivity|]. split; vm_compute; tauto. }
  destruct H as (s & Hrun & H1 & H2). exists s.
  destruct (C1_exit_callback_at_most_once s (ex_intro _ double_terminal_run Hrun))
    as (Hle & Hbody & _).
  repeat split; try assumption. lia.
Defined.

(** C2: the worker's counter starts at 0 and, in every reachable state,
    is the counter of the specification run over the ticks and resets so
    far (each tick adds one, each reset makes it 0).  A health-check
    message that finds the mutex free is handled by three steps of its
    goroutine, which leave the counter at 0.  The worker takes its expiry
    branch, the counter having reached 5, exactly if five ticks have gone
    by with no reset between them; only then is the expiry logged and the
    callback entered from the health-check path, and once it is taken the
    callback has been started from that path, or the worker is on its two
    steps to the latch, or the ICE path has taken the latch.  When each
    message is handled during the sleep in which it arrives, the history is
    a tick and a 2 second sleep per turn with the resets of that sleep, and
    the worker's next turn enters the callback exactly if the last four
    sleeps brought no message: five ticks, four sleeps of 2 seconds apart,
    with no message.  Every sleep of the worker lasts 2 seconds. *)
Theorem C2_health_check_expiry (s : state) :
  reachable onExitCb s ->
  missedHealthCheckCounts init = 0
  /\ missedHealthCheckCounts s = spec_counter (beats (history s))
  /\ (expired (history s) <-> five_silent_ticks (beats (history s)))
  /\ (In (EvCall (Log LogHealthCheckFailed)) (history s) -> expired (history s))
  /\ (In (EvExitCb ByHealth) (history s) -> expired (history s))
  /\ (expired (history s) ->
        In (EvExitCb ByHealth) (history s)
        \/ (exists k, pool s !! 0%nat
                      = Some (Call (Log LogHealthCheckFailed) :: OnceDo ByHealth :: Return :: k))
        \/ (exists k, pool s !! 0%nat = Some (OnceDo ByHealth :: Return :: k))
        \/ In (EvExitCb ByIce) (history s))
  /\ (lock s = false ->
        exists s', run onExitCb s (handled_message (length (pool s))) = Some s'
                   /\ missedHealthCheckCounts s' = 0
                   /\ lock s' = false
                   /\ history s' = history s ++ [EvHealthMsg])
  /\ (forall ms, calm 0 ms = true ->
        exists s', run onExitCb init (prompt 0 ms ++ worker_turn) = Some s'
                   /\ history s' = prompt_events 0 ms ++ next_turn_events (silent_sleeps 0 ms)
                   /\ (In (EvExitCb ByHealth) (history s') <-> silent_sleeps 0 ms = 4%nat))
  /\ (forall ms, In (EvSleep ms) (history s) -> ms = 2000)
  /\ (forall l s', step onExitCb s l = Some s' ->
         ~ expired (history s) -> expired (history s') ->
         l = Run 0
         /\ exists k, pool s' !! 0%nat
                      = Some (Call (Log LogHealthCheckFailed) :: OnceDo ByHealth
                                :: Return :: k)).
Proof.
  intros Hr.
  destruct (health_invariant _ _ Hr) as (Hc & Hexp & Hn).
  destruct (expiry_invariant onExitCb s eq_refl Hr) as (_ & Hx & Hl).
  split; [reflexivity|]. split; [exact Hc|]. split; [|split; [exact Hl|split; [exact Hx|]]].
  { split; [exact Hexp|]. intros Hf.
    destruct (In_dec event_eq_dec (EvTick MaxMissedHealthCheck) (history s)) as [|Hne]; [done|].
    by destruct (Hn Hne). }
  split; [|split; [|split; [|split]]].
  - intros He.
    destruct (expiry_reaches_latch s Hr He) as [Hin | [Hk | [Hk | Ho]]]; [tauto|tauto|tauto|].
    pose proof (latch_taken s Hr Ho) as Hone.
    destruct (exit_runs_In (history s) ltac:(lia)) as [[] Hwho]; tauto.
  - intros Hfree. by apply message_resets.
  - intros ms Hcalm.
    destruct (prompt_resting onExitCb ms 0 0 [] Hcalm) as (lg' & Hrun & Hlog).
    destruct (next_turn_resting (silent_sleeps 0 ms) (0 + sum_list ms) lg'
                (silent_sleeps_calm ms 0 ltac:(lia) Hcalm)) as (s' & Hturn & Hh).
    exists s'. rewrite run_app. change init with (resting 0 0 []). rewrite Hrun.
    split; [exact Hturn|]. rewrite Hh, Hlog. split; [reflexivity|].
    cbn [reverse app]. unfold next_turn_events. rewrite in_app_iff. split.
    + intros [Hin | Hin].
      * destruct (prompt_events_beats ms 0 _ Hin) as [Hv | [? Hv]]; [by cbn in Hv | discriminate Hv].
      * destruct (Nat.eqb_spec (silent_sleeps 0 ms) 4); [done|].
        destruct Hin as [Hin | [Hin | []]]; discriminate Hin.
    + intros ->. right. cbn. tauto.
  - intros ms. by apply sleeps_are_two_seconds.
  - intros l s' Hstep Hne He. by apply (expiry_is_the_workers s l s').
Qed.

Lemma C2_witness :
  exists s', run onExitCb init (prompt 0 [0; 0; 1; 0; 0; 0; 0]%nat ++ worker_turn) = Some s'
    /\ In (EvExitCb ByHealth) (history s').
Proof.
  destruct (C2_health_check_expiry init (ex_intro _ [] eq_refl))
    as (_ & _ & _ & _ & _ & _ & _ & Hprompt & _).
  destruct (Hprompt [0; 0; 1; 0; 0; 0; 0]%nat eq_refl) as (s' & Hrun & _ & Hiff).
  exists s'. split; [exact Hrun|]. apply Hiff. reflexivity.
Defined.

(** C6 fails on the code when the teardown is entered from the
    health-check path.  In every state the session can reach, the calls
    the exit callback has made so far are an initial part of: stop the
    sandbox; stop the bridge (connection, input channel, health channel);
    close the three listeners; close the three queues; close the relayer;
    none is made twice, and a callback that has returned has made them all.
    Entered from the ICE path while the worker rests between two turns, the
    callback does return, with the five steps taken in this order: the
    worker takes the signal that ends step 2.  Entered from the
    health-check path it never returns and never gets beyond step 2: no
    listener, queue or relayer is closed in any later state. *)
Theorem C6_teardown_order_cut_short_on_expiry (s : state) :
  reachable onExitCb s ->
  (exists rest, teardown_order = teardown_calls (history s) ++ rest)
  /\ (exists rest, [1; 2; 2; 2; 3; 3; 3; 4; 4; 4; 5]%nat
                   = omap teardown_step (teardown_calls (history s)) ++ rest)
  /\ NoDup (teardown_calls (history s))
  /\ (exitOnce s = OnceDone -> teardown_calls (history s) = teardown_order)
  /\ (forall ms st, calm 0 ms = true -> is_terminal st = true ->
        exists s', run onExitCb init (prompt 0 ms ++ ice_teardown (S (sum_list ms)) st) = Some s'
                   /\ exitOnce s' = OnceDone
                   /\ teardown_calls (history s') = teardown_order
                   /\ omap teardown_step (teardown_calls (history s'))
                      = [1; 2; 2; 2; 3; 3; 3; 4; 4; 4; 5]%nat
                   /\ pool s' !! 0%nat = Some [])
  /\ (In (EvExitCb ByHealth) (history s) ->
        exitOnce s = OnceRunning
        /\ (exists rest, before_signal = teardown_calls (history s) ++ rest)
        /\ (forall c, In c (drop 5 teardown_order) -> ~ In (EvCall c) (history s))).
Proof.
  intros Hr.
  destruct (teardown_prefix s Hr) as [rest Hrest].
  split; [by exists rest|]. split; [|split; [|split; [|split]]].
  - exists (omap teardown_step rest). rewrite <- omap_app, <- Hrest. reflexivity.
  - pose proof teardown_order_NoDup as Hnd.
    rewrite Hrest in Hnd. by apply NoDup_app in Hnd as [Hnd _].
  - intros Hdone. pose proof (teardown_invariant s Hr) as Hinv. unfold teardown_inv in Hinv.
    rewrite Hdone in Hinv. tauto.
  - intros ms st Hcalm Hst.
    destruct (prompt_resting onExitCb ms 0 0 [] Hcalm) as (lg' & Hrun & _).
    destruct (ice_teardown_resting (silent_sleeps 0 ms) (0 + sum_list ms) lg' st Hst)
      as (lg'' & Hice).
    assert (Hall : run onExitCb init (prompt 0 ms ++ ice_teardown (S (sum_list ms)) st)
                   = Some (mkState OnceDone false (Z.of_nat (silent_sleeps 0 ms))
                             ([] :: replicate (S (0 + sum_list ms)) []) lg'')).
    { rewrite run_app. change init with (resting 0 0 []). rewrite Hrun. exact Hice. }
    eexists. split; [exact Hall|]. split; [reflexivity|].
    pose proof (teardown_invariant _ (ex_intro _ _ Hall)) as Hinv.
    unfold teardown_inv in Hinv. cbn [exitOnce] in Hinv. destruct Hinv as [_ Htc].
    split; [exact Htc|]. split; [by rewrite Htc | reflexivity].
  - intros Hin. destruct (health_teardown_stuck s Hr Hin) as (Honce & n & Hn & Hrc).
    pose proof Hrc as (_ & _ & _ & Htc).
    assert (Hpre : exists rest', before_signal = teardown_calls (history s) ++ rest').
    { rewrite Htc. exists (calls_of (drop n (take 5 onExitCb))).
      replace (take n onExitCb) with (take n (take 5 onExitCb))
        by (rewrite take_take; f_equal; lia).
      apply (calls_of_take_prefix n (take 5 onExitCb)). }
    split; [done|]. split; [done|].
    intros c Hc Hev. destruct Hpre as [rest' Hrest'].
    assert (Htd : is_teardown_call c = true).
    { cbn in Hc. repeat (destruct Hc as [<- | Hc]; [reflexivity|]). destruct Hc. }
    pose proof (In_teardown_calls c _ Hev Htd) as Hcin.
    assert (Hb : In c before_signal) by (rewrite Hrest'; apply in_or_app; by left).
    cbn in Hc, Hb.
    repeat (destruct Hc as [<- | Hc]; [intuition discriminate|]). destruct Hc.
Qed.

Lemma C6_witness :
  exists s, run onExitCb init silent_run = Some s
    /\ exitOnce s = OnceRunning
    /\ ~ In (EvCall (ListenerClose AudioListener)) (history s)
    /\ step onExitCb s (Run 0) = None.
Proof.
  destruct silent_run_history as (s & Hrun & Hh).
  exists s. split; [exact Hrun|].
  assert (Hin : In (EvExitCb ByHealth) (history s)) by (rewrite Hh; simpl; tauto).
  destruct (C6_teardown_order_cut_short_on_expiry s (ex_intro _ silent_run Hrun))
    as (_ & _ & _ & _ & _ & Hcut).
  destruct (Hcut Hin) as (Honce & _ & Hnone).
  split; [exact Honce|]. split; [apply Hnone; cbn; tauto|].
  vm_compute in Hrun. injection Hrun as <-. reflexivity.
Defined.

(** * Further properties of the code *)

(** ** The application catalog *)

Section AppList.
Variable InStringSlice : list string -> string -> bool.

Lemma filteredAppList_foldl (l : list Apps.App) (device : string) (acc : Apps.slice Apps.App) :
  foldl (fun acc app => if InStringSlice (Apps.Device app) device
                        then Apps.append acc app else acc) acc l
  = match List.filter (fun app => InStringSlice (Apps.Device app) device) l with
    | [] => acc
    | m => Apps.Elems (Apps.elems acc ++ m)
    end.
Proof.
  revert acc; induction l as [|a l IH]; intros acc; [reflexivity|].
  cbn [foldl List.filter]. rewrite IH.
  destruct (InStringSlice (Apps.Device a) device).
  - unfold Apps.append; cbn [Apps.elems].
    destruct (List.filter _ l); [reflexivity | by rewrite <- app_assoc].
  - reflexivity.
Qed.

(** X1: with a non-empty first [device] value the response holds exactly
    the catalog's apps whose device list has it, in catalog order; further
    values of the parameter are not looked at. *)
Theorem GetAppList_filters_by_first_device (appList : Apps.slice Apps.App)
    (device : string) (more : list string) :
  device <> EmptyString ->
  exists resp,
    Apps.response InStringSlice appList (Some (device :: more)) = Some resp
    /\ Apps.elems (Apps.Apps resp)
       = List.filter (fun app => InStringSlice (Apps.Device app) device) (Apps.elems appList).
Proof.
  intros Hd. unfold Apps.response.
  destruct device as [|c d]; [done|]. cbn [String.length Nat.ltb Nat.leb].
  eexists; split; [reflexivity|]. cbn [Apps.Apps].
  unfold Apps.filteredAppList. rewrite filteredAppList_foldl.
  by destruct (List.filter _ _).
Qed.

(** X2: the filtered list is the nil slice, not an empty one, exactly when
    no app of the catalog matches. *)
Theorem filteredAppList_nil_iff (appList : Apps.slice Apps.App) (device : string) :
  Apps.filteredAppList InStringSlice appList device = Apps.Nil
  <-> Forall (fun app => InStringSlice (Apps.Device app) device = false) (Apps.elems appList).
Proof.
  unfold Apps.filteredAppList. rewrite filteredAppList_foldl.
  split.
  - intros H. apply Forall_forall. intros a Ha.
    destruct (InStringSlice (Apps.Device a) device) eqn:E; [|done].
    assert (Hin : In a (List.filter (fun app => InStringSlice (Apps.Device app) device)
                          (Apps.elems appList))).
    { apply filter_In. split; [by apply list_elem_of_In | done]. }
    destruct (List.filter _ _); [destruct Hin | discriminate H].
  - intros H.
    assert (Hnil : List.filter (fun app => InStringSlice (Apps.Device app) device)
                     (Apps.elems appList) = []).
    { induction H as [|a l Ha _ IH]; [done|]. cbn [List.filter]. by rewrite Ha. }
    by rewrite Hnil.
Qed.

End AppList.

Lemma GetAppList_filters_by_first_device_witness :
  exists resp,
    Apps.response (fun l d => bool_decide (d ∈ l))
      (Apps.Elems [Apps.mkApp "Notepad" "app" "n.png" ["desktop"];
                   Apps.mkApp "Pinball" "game" "p.png" ["mobile"; "desktop"];
                   Apps.mkApp "Paint" "app" "t.png" ["mobile"]])
      (Some ["mobile"; "desktop"]) = Some resp
    /\ Apps.elems (Apps.Apps resp)
       = [Apps.mkApp "Pinball" "game" "p.png" ["mobile"; "desktop"];
          Apps.mkApp "Paint" "app" "t.png" ["mobile"]].
Proof.
  destruct (GetAppList_filters_by_first_device (fun l d => bool_decide (d ∈ l))
              (Apps.Elems [Apps.mkApp "Notepad" "app" "n.png" ["desktop"];
                           Apps.mkApp "Pinball" "game" "p.png" ["mobile"; "desktop"];
                           Apps.mkApp "Paint" "app" "t.png" ["mobile"]])
              "mobile" ["desktop"]) as [resp [H1 H2]]; [discriminate|].
  exists resp. split; [exact H1|]. rewrite H2. vm_compute. reflexivity.
Defined.

(** ** Process-wide settings of the bridge *)

Lemma NewWebRTC_after_Do (conf : Bridge.Config) (o : Bridge.nw_oracle) (g : Bridge.globals) :
  Bridge.settingOnce g = true ->
  snd (Bridge.NewWebRTC conf o g) = g
  /\ fst (Bridge.NewWebRTC conf o g) <> Bridge.Panicked
  /\ built_with (Bridge.settings g) (fst (Bridge.NewWebRTC conf o g)).
Proof.
  intros Hg. unfold Bridge.NewWebRTC, built_with. rewrite Hg.
  destruct (Bridge.codecs_fail o); [by repeat split|].
  destruct (negb _ && _); [by repeat split|].
  destruct (Bridge.peer_fails o); cbn [fst snd]; repeat split; try done.
  intros b [= <-]. reflexivity.
Qed.

Lemma serve_calls_after_Do (calls : list (Bridge.Config * Bridge.nw_oracle)) (g : Bridge.globals) :
  Bridge.settingOnce g = true ->
  snd (Bridge.serve_calls g calls) = g
  /\ Forall (fun r => r <> Bridge.Panicked /\ built_with (Bridge.settings g) r)
       (fst (Bridge.serve_calls g calls)).
Proof.
  intros Hg. induction calls as [|[conf o] calls [IH1 IH2]]; [by split|].
  cbn [Bridge.serve_calls].
  destruct (NewWebRTC_after_Do conf o g Hg) as (H1 & H2 & H3).
  destruct (Bridge.NewWebRTC conf o g) as [r g1]. cbn [fst snd] in *. subst g1.
  destruct (Bridge.serve_calls g calls) as [rs g2]. cbn [fst snd] in *.
  split; [done|]. by constructor.
Qed.

(** X3: the first call of [NewWebRTC] that gets past the registrations
    fixes the engine for the life of the process: whatever configurations
    later calls pass, every bridge is built with the engine that first call
    configured, or with the zero engine if it panicked while configuring;
    and no later call panics. *)
Theorem first_NewWebRTC_fixes_the_settings (conf : Bridge.Config) (o : Bridge.nw_oracle)
    (calls : list (Bridge.Config * Bridge.nw_oracle)) :
  Bridge.codecs_fail o = false ->
  negb (Bridge.DisableDefaultInterceptors conf) && Bridge.interceptors_fail o = false ->
  Bridge.settings (snd (Bridge.serve_calls Bridge.globals0 ((conf, o) :: calls)))
  = settled conf o
  /\ Forall (built_with (settled conf o))
       (fst (Bridge.serve_calls Bridge.globals0 ((conf, o) :: calls)))
  /\ Forall (fun r => r <> Bridge.Panicked)
       (tail (fst (Bridge.serve_calls Bridge.globals0 ((conf, o) :: calls)))).
Proof.
  intros Hc Hi. cbn [Bridge.serve_calls]. unfold Bridge.NewWebRTC, settled.
  rewrite Hc, Hi. cbn [Bridge.settingOnce Bridge.globals0].
  destruct (Bridge.configure conf o) as [se|].
  - destruct (serve_calls_after_Do calls (Bridge.mkGlobals se true) eq_refl) as [H1 H2].
    destruct (Bridge.peer_fails o);
      destruct (Bridge.serve_calls _ calls) as [rs g2]; cbn [fst snd tail] in *; subst g2;
      (split; [reflexivity|]); (split; [constructor|]);
      try (eapply Forall_impl; [exact H2 | by intros r [? ?]]);
      try (intros b [= <-]; reflexivity); try done.
  - destruct (serve_calls_after_Do calls (Bridge.mkGlobals Bridge.zeroSettingEngine true) eq_refl)
      as [H1 H2].
    cbn [Bridge.settings Bridge.globals0].
    destruct (Bridge.serve_calls _ calls) as [rs g2]; cbn [fst snd tail] in *; subst g2.
    split; [reflexivity|]. split; [constructor; [done|]|];
      (eapply Forall_impl; [exact H2 | by intros r [? ?]]).
Qed.

Lemma first_NewWebRTC_fixes_the_settings_witness :
  Forall (built_with (Bridge.mkSettingEngine (Some (40000, 40100)) None (Some "10.0.0.7")))
    (fst (Bridge.serve_calls Bridge.globals0
            [(Bridge.mkConfig 8443 (Bridge.mkPortRange 40000 40100) "10.0.0.7" false,
              Bridge.mkNwOracle false false false (Some 8443) false);
             (Bridge.mkConfig 9000 (Bridge.mkPortRange 0 0) "" true,
              Bridge.mkNwOracle false true false (Some 9001) false)])).
Proof.
  exact (proj1 (proj2 (first_NewWebRTC_fixes_the_settings
           (Bridge.mkConfig 8443 (Bridge.mkPortRange 40000 40100) "10.0.0.7" false)
           (Bridge.mkNwOracle false false false (Some 8443) false)
           [(Bridge.mkConfig 9000 (Bridge.mkPortRange 0 0) "" true,
             Bridge.mkNwOracle false true false (Some 9001) false)]
           eq_refl eq_refl))).
Defined.

Lemma serve_calls_zero_config (calls : list (Bridge.Config * Bridge.nw_oracle)) (g : Bridge.globals) :
  Bridge.settings g = Bridge.zeroSettingEngine ->
  Forall (fun c => fst c = Bridge.webrtcConf) calls ->
  Forall (fun r => r <> Bridge.Panicked
                   /\ forall b, r = Bridge.Returned b ->
                                Bridge.engine b = Bridge.zeroSettingEngine
                                /\ Bridge.defaultInterceptors b = true)
    (fst (Bridge.serve_calls g calls)).
Proof.
  intros Hg Hall. revert g Hg.
  induction Hall as [|[conf o] calls Hc _ IH]; intros g Hg; [constructor|].
  cbn [fst] in Hc. subst conf. cbn [Bridge.serve_calls].
  assert (H : (fst (Bridge.NewWebRTC Bridge.webrtcConf o g) <> Bridge.Panicked
               /\ forall b, fst (Bridge.NewWebRTC Bridge.webrtcConf o g) = Bridge.Returned b ->
                            Bridge.engine b = Bridge.zeroSettingEngine
                            /\ Bridge.defaultInterceptors b = true)
              /\ Bridge.settings (snd (Bridge.NewWebRTC Bridge.webrtcConf o g))
                 = Bridge.zeroSettingEngine).
  { unfold Bridge.NewWebRTC.
    destruct (Bridge.codecs_fail o); [by repeat split|].
    destruct (negb _ && _); [by repeat split|].
    destruct g as [se [|]]; cbn [Bridge.settings Bridge.settingOnce] in *; subst se;
      cbn [Bridge.configure Bridge.webrtcConf]; cbn;
      destruct (Bridge.peer_fails o); cbn [fst snd]; repeat split; try done;
      intros; by simplify_eq. }
  destruct H as [H1 H2].
  destruct (Bridge.NewWebRTC Bridge.webrtcConf o g) as [r g1]. cbn [fst snd] in *.
  specialize (IH g1 H2).
  destruct (Bridge.serve_calls g1 calls) as [rs g2]. cbn [fst] in *.
  by constructor.
Qed.

(** X4: with the configuration [startSession] passes, the empty one,
    [NewWebRTC] never panics, and every bridge of a process that only
    serves sessions is built with the zero engine (no port range, no
    single port, no address mapping) and the default interceptors. *)
Theorem session_bridges_use_default_settings (calls : list (Bridge.Config * Bridge.nw_oracle)) :
  Forall (fun c => fst c = Bridge.webrtcConf) calls ->
  Forall (fun r => r <> Bridge.Panicked
                   /\ forall b, r = Bridge.Returned b ->
                                Bridge.engine b = Bridge.zeroSettingEngine
                                /\ Bridge.defaultInterceptors b = true)
    (fst (Bridge.serve_calls Bridge.globals0 calls)).
Proof. apply serve_calls_zero_config. reflexivity. Qed.

Lemma session_bridges_use_default_settings_witness :
  Forall (fun r => r <> Bridge.Panicked
                   /\ forall b, r = Bridge.Returned b ->
                                Bridge.engine b = Bridge.zeroSettingEngine
                                /\ Bridge.defaultInterceptors b = true)
    (fst (Bridge.serve_calls Bridge.globals0
            [(Bridge.webrtcConf, Bridge.mkNwOracle false false true None false);
             (Bridge.webrtcConf, Bridge.mkNwOracle false false true None true)])).
Proof.
  apply (session_bridges_use_default_settings
           [(Bridge.webrtcConf, Bridge.mkNwOracle false false true None false);
            (Bridge.webrtcConf, Bridge.mkNwOracle false false true None true)]).
  repeat constructor.
Defined.

(** ** [StartClient] on a new bridge *)

Ltac run_client :=
  unfold Bridge.StartClient, Bridge.addInputTrack, Bridge.addHealthCheck,
    Bridge.bbind, Bridge.lib, Bridge.bret.

(* A list of steps with a failing one is not free of failures. *)
Ltac some_fails H :=
  repeat (inversion H as [|? ? ? H']; clear H; rename H' into H; try congruence).

Ltac all_ok := repeat constructor; assumption.

(** X5: on a new bridge, the exit callback is handed out (to the worker
    goroutine or to the ICE state handler) exactly when the six calls up to
    the health-check channel succeed; a bridge that holds it has both its
    data channel fields set, so [StopClient] finds no nil channel. *)
Theorem StartClient_armed_iff (vCodec : string) (o : Bridge.sc_oracle)
    (se : Bridge.SettingEngine) (i : bool) :
  let w := snd (Bridge.StartClient vCodec o (Bridge.newBridge se i)) in
  (Bridge.armed w = true
   <-> Forall (fun s => Bridge.sc_fails o s = false) Bridge.before_arming)
  /\ (Bridge.armed w = true ->
      Bridge.healthWorker w = true /\ Bridge.onICEConnectionStateChange w = true
      /\ Bridge.inputTrack w = Some "app-input" /\ Bridge.healthTrack w = Some "health-check").
Proof.
  cbv zeta. run_client. unfold Bridge.before_arming.
  destruct (Bridge.sc_fails o Bridge.SCNewVideoTrack) eqn:E1;
    [cbn; split; [split; [done | intros H; some_fails H] | done]|].
  destruct (Bridge.sc_fails o Bridge.SCAddVideoTrack) eqn:E2;
    [cbn; split; [split; [done | intros H; some_fails H] | done]|].
  destruct (Bridge.sc_fails o Bridge.SCNewOpusTrack) eqn:E3;
    [cbn; split; [split; [done | intros H; some_fails H] | done]|].
  destruct (Bridge.sc_fails o Bridge.SCAddOpusTrack) eqn:E4;
    [cbn; split; [split; [done | intros H; some_fails H] | done]|].
  destruct (Bridge.sc_fails o Bridge.SCCreateInputChannel) eqn:E5;
    [cbn; split; [split; [done | intros H; some_fails H] | done]|].
  destruct (Bridge.sc_fails o Bridge.SCCreateHealthChannel) eqn:E6;
    [cbn; split; [split; [done | intros H; some_fails H] | done]|].
  assert (Hall : Forall (fun s => Bridge.sc_fails o s = false)
                   [Bridge.SCNewVideoTrack; Bridge.SCAddVideoTrack; Bridge.SCNewOpusTrack;
                    Bridge.SCAddOpusTrack; Bridge.SCCreateInputChannel;
                    Bridge.SCCreateHealthChannel]) by all_ok.
  destruct (Bridge.sc_fails o Bridge.SCCreateOffer);
    [cbn; by repeat split|].
  destruct (Bridge.sc_fails o Bridge.SCSetLocalDescription);
    [cbn; by repeat split|].
  destruct (Bridge.sc_fails o Bridge.SCEncodeOffer); cbn; by repeat split.
Qed.

(** X6: [StartClient] reports an error and yet leaves the worker goroutine
    and the ICE state handler holding the exit callback exactly when the
    first failure is at creating the offer, setting the local description
    or encoding the offer. *)
Theorem StartClient_error_yet_armed_iff (vCodec : string) (o : Bridge.sc_oracle)
    (se : Bridge.SettingEngine) (i : bool) :
  let r := Bridge.StartClient vCodec o (Bridge.newBridge se i) in
  (fst r = None /\ Bridge.armed (snd r) = true)
  <-> (Forall (fun s => Bridge.sc_fails o s = false) Bridge.before_arming
       /\ Exists (fun s => Bridge.sc_fails o s = true) Bridge.after_arming).
Proof.
  cbv zeta. run_client. unfold Bridge.before_arming, Bridge.after_arming.
  destruct (Bridge.sc_fails o Bridge.SCNewVideoTrack) eqn:E1;
    [cbn; split; [by intros [_ ?] | intros [H _]; some_fails H]|].
  destruct (Bridge.sc_fails o Bridge.SCAddVideoTrack) eqn:E2;
    [cbn; split; [by intros [_ ?] | intros [H _]; some_fails H]|].
  destruct (Bridge.sc_fails o Bridge.SCNewOpusTrack) eqn:E3;
    [cbn; split; [by intros [_ ?] | intros [H _]; some_fails H]|].
  destruct (Bridge.sc_fails o Bridge.SCAddOpusTrack) eqn:E4;
    [cbn; split; [by intros [_ ?] | intros [H _]; some_fails H]|].
  destruct (Bridge.sc_fails o Bridge.SCCreateInputChannel) eqn:E5;
    [cbn; split; [by intros [_ ?] | intros [H _]; some_fails H]|].
  destruct (Bridge.sc_fails o Bridge.SCCreateHealthChannel) eqn:E6;
    [cbn; split; [by intros [_ ?] | intros [H _]; some_fails H]|].
  assert (Hall : Forall (fun s => Bridge.sc_fails o s = false)
                   [Bridge.SCNewVideoTrack; Bridge.SCAddVideoTrack; Bridge.SCNewOpusTrack;
                    Bridge.SCAddOpusTrack; Bridge.SCCreateInputChannel;
                    Bridge.SCCreateHealthChannel]) by all_ok.
  destruct (Bridge.sc_fails o Bridge.SCCreateOffer) eqn:E7;
    [cbn; split; [intros _; split; [exact Hall | by constructor] | done]|].
  destruct (Bridge.sc_fails o Bridge.SCSetLocalDescription) eqn:E8;
    [cbn; split; [intros _; split; [exact Hall | by do 2 constructor] | done]|].
  destruct (Bridge.sc_fails o Bridge.SCEncodeOffer) eqn:E9;
    [cbn; split; [intros _; split; [exact Hall | by do 3 constructor] | done]|].
  cbn. split; [by intros [? _]|].
  intros [_ H].
  repeat (inversion H as [? ? H'|? ? H']; clear H; [congruence|]; rename H' into H).
  inversion H.
Qed.

(** X7: when [StartClient] succeeds on a new bridge, the connection has
    the video track of the requested codec followed by the Opus track,
    the data channels app-input and health-check in that order, the
    created offer as its local description, and every handler registered;
    the result is the encoding of that offer. *)
Theorem StartClient_success (vCodec : string) (o : Bridge.sc_oracle)
    (se : Bridge.SettingEngine) (i : bool) (enc : string) (w : Bridge.WebRTC) :
  Bridge.StartClient vCodec o (Bridge.newBridge se i) = (Some enc, w) ->
  enc = Bridge.sc_encoded o
  /\ w = Bridge.mkWebRTC se i
           [Bridge.mkTrack (verbalCodecToMime vCodec) "video" "pion";
            Bridge.mkTrack Bridge.MimeTypeOpus "audio" "pion"]
           ["app-input"; "health-check"]
           (Some "app-input") (Some "health-check")
           true true true true true
           (Some (Bridge.sc_offer o))
  /\ forall s, Bridge.sc_fails o s = false.
Proof.
  run_client.
  destruct (Bridge.sc_fails o Bridge.SCNewVideoTrack) eqn:E1; [discriminate|].
  destruct (Bridge.sc_fails o Bridge.SCAddVideoTrack) eqn:E2; [discriminate|].
  destruct (Bridge.sc_fails o Bridge.SCNewOpusTrack) eqn:E3; [discriminate|].
  destruct (Bridge.sc_fails o Bridge.SCAddOpusTrack) eqn:E4; [discriminate|].
  destruct (Bridge.sc_fails o Bridge.SCCreateInputChannel) eqn:E5; [discriminate|].
  destruct (Bridge.sc_fails o Bridge.SCCreateHealthChannel) eqn:E6; [discriminate|].
  destruct (Bridge.sc_fails o Bridge.SCCreateOffer) eqn:E7; [discriminate|].
  destruct (Bridge.sc_fails o Bridge.SCSetLocalDescription) eqn:E8; [discriminate|].
  destruct (Bridge.sc_fails o Bridge.SCEncodeOffer) eqn:E9; [discriminate|].
  cbn. intros [= <- <-]. split; [reflexivity|]. split; [reflexivity|].
  by intros [].
Qed.

Lemma StartClient_success_witness :
  Bridge.tracks
    (snd (Bridge.StartClient "h264"
            (Bridge.mkScOracle (fun _ => false) "v=0" "dj0w")
            (Bridge.newBridge Bridge.zeroSettingEngine true)))
  = [Bridge.mkTrack MimeTypeH264 "video" "pion"; Bridge.mkTrack Bridge.MimeTypeOpus "audio" "pion"].
Proof.
  destruct (StartClient_success "h264" (Bridge.mkScOracle (fun _ => false) "v=0" "dj0w")
              Bridge.zeroSettingEngine true "dj0w"
              (snd (Bridge.StartClient "h264"
                      (Bridge.mkScOracle (fun _ => false) "v=0" "dj0w")
                      (Bridge.newBridge Bridge.zeroSettingEngine true)))
              eq_refl) as (_ & Hw & _).
  rewrite Hw. reflexivity.
Defined.

(** ** Local ICE candidates *)

(** X8: the ICE frames on the signaling connection are the encodings of
    the candidates the library emitted, in emission order; a nil
    candidate, a failed encoding or a failed send drops that candidate
    alone, and each of the two failures leaves one log line. *)
Theorem local_candidates_forwarded_in_order (es : list Ice.emitted) (c : Ice.conn) :
  Ice.frames (Ice.gather es c)
  = Ice.frames c ++ omap forwarded es
  /\ Ice.lines (Ice.gather es c)
     = Ice.lines c ++ omap dropped es.
Proof.
  revert c. induction es as [|e es IH]; intros c.
  - cbn. by rewrite !app_nil_r.
  - change (Ice.gather (e :: es) c) with (Ice.gather es (Ice.onICECandidate e c)).
    destruct (IH (Ice.onICECandidate e c)) as [-> ->].
    unfold Ice.onICECandidate, Ice.onIceCandidateCb, Ice.sendIceCandidate, forwarded, dropped.
    destruct e as [[cand|] [|] enc [|]]; cbn; by rewrite <- ?app_assoc.
Qed.

(** ** The read loop of [NewSession], as a whole *)

Ltac start_cases :=
  repeat (match goal with
          | |- context [fails ?o ?s] =>
              lazymatch goal with
              | E : fails o s = _ |- _ => fail
              | _ => destruct (fails o s) eqn:?; cbn
              end
          end).

(** X9: whatever frames arrive, and also when the connection is closed or
    a read fails, [NewSession] releases nothing: the sockets, relayers and
    sandboxes of the process only grow, and no bridge is stopped. *)
Theorem NewSession_releases_nothing (upgraded : bool) (sessionId : string)
    (frames : list frame) (w : world) :
  let w' := snd (NewSession upgraded sessionId frames w) in
  (exists l, sockets w' = sockets w ++ l)
  /\ (exists l, relayers w' = relayers w ++ l)
  /\ (exists l, vms w' = vms w ++ l)
  /\ stopped w' = stopped w.
Proof.
  cbv zeta. unfold NewSession. destruct upgraded.
  - destruct (extends_serve sessionId frames None w) as [H1 H2 H3 H4 _ _ _]. by repeat split.
  - cbn. repeat split; try done; by exists []; rewrite app_nil_r.
Qed.

Lemma sent_frames_record (e : wire_event) (w : world) :
  sent_frames (record e w)
  = sent_frames w ++ match sent_view e with Some m => [m] | None => [] end.
Proof.
  unfold sent_frames.
  destruct e; cbn [wire record omap list_omap sent_view]; by rewrite ?reverse_cons, ?app_nil_r.
Qed.

Lemma succeeds_all (o : oracle) : succeeds o = true <-> forall s, fails o s = false.
Proof.
  unfold succeeds. rewrite forallb_forall. split.
  - intros H s. specialize (H s). rewrite negb_true_iff in H. apply H.
    destruct s; cbn; tauto.
  - intros H s _. by rewrite H.
Qed.

Lemma sent_frames_startSession (o : oracle) (id : string) (w : world) :
  sent_frames (snd (startSession o id w))
  = sent_frames w ++ (if succeeds o then [mkMessage SDPMessage (offer o)] else []).
Proof.
  destruct (succeeds o) eqn:Hs.
  - destruct (startSession_ok o id w (proj1 (succeeds_all o) Hs)) as (w' & -> & _ & _ & _ & _ & _ & _ & Hw).
    cbn [snd]. unfold sent_frames. rewrite Hw.
    cbn [omap list_omap sent_view]. by rewrite reverse_cons.
  - revert Hs. unfold succeeds, all_steps. cbn [forallb]. run_start.
    start_cases; try discriminate; intros _;
      unfold sent_frames; cbn; by rewrite app_nil_r.
Qed.

Lemma sent_frames_dispatch (sessionId : string) (msg : Message) (o : oracle)
    (h : option bridge) (w : world) :
  sent_frames (snd (dispatch sessionId msg o h w))
  = sent_frames w ++ match reply_to (Parsed msg o) with Some m => [m] | None => [] end.
Proof.
  unfold dispatch, reply_to.
  destruct (String.eqb (Type_ msg) StartMessage); cbn [andb].
  { pose proof (sent_frames_startSession o sessionId w) as H.
    destruct (succeeds o) eqn:Hs.
    - destruct (startSession_ok o sessionId w (proj1 (succeeds_all o) Hs)) as (w' & Hw & _).
      rewrite Hw in *. exact H.
    - destruct (startSession o sessionId w) as [[b|] w']; cbn [snd] in *;
        rewrite ?sent_frames_record, H; cbn; by rewrite ?app_nil_r. }
  destruct (String.eqb (Type_ msg) SDPMessage).
  { destruct h as [b|]; [|by rewrite app_nil_r].
    unfold SetRemoteSDP, apply_remote. destruct (answer o); cbn;
      rewrite ?sent_frames_record; cbn; by rewrite ?app_nil_r. }
  destruct (String.eqb (Type_ msg) IceCandidateMessage).
  { destruct h as [b|]; [|by rewrite app_nil_r].
    unfold AddCandidate, apply_remote. destruct (answer o); cbn;
      rewrite ?sent_frames_record; cbn; by rewrite ?app_nil_r. }
  by rewrite app_nil_r.
Qed.

(** X10: what the read loop itself sends on the signaling connection is one
    SDP offer for each START frame on which every call of [startSession]
    succeeded, in the order of those frames, and nothing else; frames
    after the first read error get no reply. *)
Theorem serve_replies_with_offers (sessionId : string) (frames : list frame) :
  forall (h : option bridge) (w : world),
    sent_frames (snd (serve sessionId h frames w))
    = sent_frames w ++ omap reply_to (read_frames frames).
Proof.
  induction frames as [|f rest IH]; intros h w; cbn [serve read_frames].
  - cbn. by rewrite app_nil_r.
  - destruct f as [ga| |msg o].
    + cbn [snd]. rewrite sent_frames_record. cbn [sent_view omap list_omap].
      destruct ga; rewrite ?sent_frames_record; cbn [sent_view]; by rewrite ?app_nil_r.
    + rewrite IH, sent_frames_record. cbn [sent_view omap list_omap reply_to].
      by rewrite app_nil_r.
    + pose proof (sent_frames_dispatch sessionId msg o h w) as H.
      destruct (dispatch sessionId msg o h w) as [h' w']. cbn [snd] in H.
      rewrite IH, H. cbn [omap list_omap].
      destruct (reply_to (Parsed msg o)); by rewrite <- ?app_assoc, ?app_nil_r.
Qed.






Lemma app_same_nil {A} (l l' : list A) : l = l ++ l' -> l' = [].
Proof.
  intros H. apply (f_equal length) in H. rewrite length_app in H.
  apply nil_length_inv. lia.
Qed.

Lemma wired_mono (w w' : world) (vm : string * (Z * Z * Z)) :
  (exists l, sockets w' = sockets w ++ l) ->
  (exists l, relayers w' = relayers w ++ l) ->
  wired w vm -> wired w' vm.
Proof.
  intros [ls Hs] [lr Hr] (v & a & i & H1 & H2 & H3 & H4 & H5 & H6).
  exists v, a, i. rewrite Hs, Hr.
  repeat split; try done; apply in_or_app; by left.
Qed.

Lemma wired_record (e : wire_event) (w : world) (l : list (string * (Z * Z * Z))) :
  Forall (wired w) l -> Forall (wired (record e w)) l.
Proof.
  intros H. eapply Forall_impl; [exact H|].
  intros vm. apply wired_mono; by exists []; rewrite app_nil_r.
Qed.

Lemma wired_startSession (o : oracle) (id : string) (w : world) :
  Forall (wired w) (vms w) ->
  Forall (wired (snd (startSession o id w))) (vms (snd (startSession o id w))).
Proof.
  intros H.
  assert (Hold : forall w', extends w w' -> Forall (wired w') (vms w)).
  { intros w' [Hs Hr _ _ _ _ _]. eapply Forall_impl; [exact H|].
    intros vm. by apply wired_mono. }
  pose proof (extending_startSession o id w) as Hext. specialize (Hold _ Hext).
  destruct (ext_vms _ _ Hext) as [l Hl]. rewrite Hl. apply Forall_app. split; [exact Hold|].
  clear Hold Hext H. revert l Hl. run_start.
  start_cases; cbn; intros l Hl;
    first [ apply app_same_nil in Hl; subst l; constructor
          | apply app_inv_head in Hl; subst l;
            (constructor; [|constructor]);
            exists (VideoListener, next_port w), (AudioListener, next_port w + 1),
                   (WineListener, next_port w + 1 + 1);
            cbn; rewrite <- ?app_assoc; repeat split; apply in_or_app; right; cbn; tauto ].
Qed.

Lemma wired_dispatch (sessionId : string) (msg : Message) (o : oracle)
    (h : option bridge) (w : world) :
  Forall (wired w) (vms w) ->
  Forall (wired (snd (dispatch sessionId msg o h w))) (vms (snd (dispatch sessionId msg o h w))).
Proof.
  intros H. unfold dispatch.
  destruct (String.eqb (Type_ msg) StartMessage).
  { pose proof (wired_startSession o sessionId w H) as Hs.
    destruct (startSession o sessionId w) as [[b|] w']; cbn [snd] in *; [done|].
    by apply wired_record. }
  destruct (String.eqb (Type_ msg) SDPMessage).
  { destruct h as [b|]; [|done].
    unfold SetRemoteSDP, apply_remote. destruct (answer o); cbn [snd bind say fail ret];
      repeat apply wired_record; done. }
  destruct (String.eqb (Type_ msg) IceCandidateMessage).
  { destruct h as [b|]; [|done].
    unfold AddCandidate, apply_remote. destruct (answer o); cbn [snd bind say fail ret];
      repeat apply wired_record; done. }
  done.
Qed.

(** X12: every sandbox the read loop has launched was given the ports of
    the video, audio and input sockets, in that order, of a relayer that
    was started before it, on sockets that are still open. *)
Theorem sandboxes_get_relayer_ports (sessionId : string) (frames : list frame) :
  forall (h : option bridge) (w : world),
    Forall (wired w) (vms w) ->
    Forall (wired (snd (serve sessionId h frames w))) (vms (snd (serve sessionId h frames w))).
Proof.
  induction frames as [|f rest IH]; intros h w H; cbn [serve]; [exact H|].
  destruct f as [ga| |msg o].
  - cbn [snd]. destruct ga; repeat apply wired_record; exact H.
  - apply IH. by apply wired_record.
  - pose proof (wired_dispatch sessionId msg o h w H) as Hd.
    destruct (dispatch sessionId msg o h w) as [h' w']. apply IH. exact Hd.
Qed.

Lemma sandboxes_get_relayer_ports_witness :
  Forall (wired (snd (serve "10.0.0.7:5500" None
                        [Parsed (mkMessage "START" "") (mkOracle (fail_at SNewWebRTC) "" Accepted);
                         Parsed (mkMessage "START" "") (mkOracle never_fails "offer" Accepted)]
                        (world0 40000))))
    [("10.0.0.7:5500", (40000, 40001, 40002)); ("10.0.0.7:5500", (40003, 40004, 40005))].
Proof.
  apply (sandboxes_get_relayer_ports "10.0.0.7:5500"
           [Parsed (mkMessage "START" "") (mkOracle (fail_at SNewWebRTC) "" Accepted);
            Parsed (mkMessage "START" "") (mkOracle never_fails "offer" Accepted)]
           None (world0 40000)).
  constructor.
Defined.

Lemma dispatch_unknown (sessionId : string) (msg : Message) (o : oracle)
    (h : option bridge) (w : world) :
  unknown_type msg -> dispatch sessionId msg o h w = (h, w).
Proof.
  intros (H1 & H2 & H3). unfold dispatch.
  destruct (String.eqb_spec (Type_ msg) StartMessage); [done|].
  destruct (String.eqb_spec (Type_ msg) SDPMessage); [done|].
  by destruct (String.eqb_spec (Type_ msg) IceCandidateMessage).
Qed.

(** X13: a frame whose type is none of START, SDP and ICE can be taken out
    of the traffic at any position without changing the outcome of the
    read loop: neither the handle nor anything in the world, the log
    included, depends on it. *)
Theorem unknown_frames_leave_no_trace (sessionId : string) (msg : Message) (o : oracle)
    (pre post : list frame) :
  unknown_type msg ->
  forall (h : option bridge) (w : world),
    serve sessionId h (pre ++ Parsed msg o :: post) w = serve sessionId h (pre ++ post) w.
Proof.
  intros Hu. induction pre as [|f pre IH]; intros h w; cbn [app serve].
  - by rewrite dispatch_unknown.
  - destruct f as [ga| |m o']; [reflexivity | apply IH |].
    destruct (dispatch sessionId m o' h w) as [h' w']. apply IH.
Qed.

Lemma unknown_frames_leave_no_trace_witness :
  serve "10.0.0.7:5500" None
    [Parsed (mkMessage "START" "") (mkOracle never_fails "offer" Accepted);
     Parsed (mkMessage "PING" "x") (mkOracle never_fails "" Rejected);
     Parsed (mkMessage "SDP" "answer") (mkOracle never_fails "" Accepted)] (world0 40000)
  = serve "10.0.0.7:5500" None
      [Parsed (mkMessage "START" "") (mkOracle never_fails "offer" Accepted);
       Parsed (mkMessage "SDP" "answer") (mkOracle never_fails "" Accepted)] (world0 40000).
Proof.
  apply (unknown_frames_leave_no_trace "10.0.0.7:5500" (mkMessage "PING" "x")
           (mkOracle never_fails "" Rejected)
           [Parsed (mkMessage "START" "") (mkOracle never_fails "offer" Accepted)]
           [Parsed (mkMessage "SDP" "answer") (mkOracle never_fails "" Accepted)]).
  repeat split; discriminate.
Defined.

(** ** The bridge: nothing happens without its cause *)

(** If the code the goroutines start from keeps a property [ok], except
    for the handlers of the events [trig], and code that is [ok] logs no
    event [bad], then without an event [trig] no event [bad] is logged. *)
Section Provenance.
Variable ok : instr -> bool.
Variable bad : event -> bool.
Variable trig : label -> bool.
Variable cb : thread.
Hypothesis ok_incr : forall t, ok (IncrAndTest t) = true -> forallb ok t = true.
Hypothesis ok_recv : forall t, ok (RecvClosedOrDefault t) = true -> forallb ok t = true.
Hypothesis ok_forever : forall t, ok (Forever t) = true -> forallb ok t = true.
Hypothesis ok_ret : ok OnceRet = true.
Hypothesis ok_cb : forallb ok cb = true.
Hypothesis ok_worker : forallb ok healthWorker = true.
Hypothesis ok_message : trig HealthMessage = false -> forallb ok healthOnMessage = true.
Hypothesis ok_ice : forall st,
  trig (IceStateChange st) = false -> forallb ok (onICEConnectionStateChange st) = true.
Hypothesis bad_call : forall c, ok (Call c) = true -> bad (EvCall c) = false.
Hypothesis bad_once : forall who, ok (OnceDo who) = true -> bad (EvExitCb who) = false.
Hypothesis bad_reset : ok ResetCount = true -> bad EvHealthMsg = false.
Hypothesis bad_tick : forall n, bad (EvTick n) = false.
Hypothesis bad_sleep : forall ms, bad (EvSleep ms) = false.

Lemma untriggered ls : forall s,
  run cb init ls = Some s ->
  existsb trig ls = false ->
  Forall (fun t => forallb ok t = true) (pool s) /\ Forall (fun e => bad e = false) (log s).
Proof.
  induction ls as [|l ls IH] using rev_ind; intros s Hrun Hno.
  - injection Hrun as <-. split; [by repeat constructor | constructor].
  - rewrite run_app in Hrun. destruct (run cb init ls) as [s1|] eqn:H1; [|done].
    cbn [run] in Hrun. destruct (step cb s1 l) as [s2|] eqn:Hstep; [|done].
    injection Hrun as <-.
    rewrite existsb_app in Hno. apply orb_false_iff in Hno as [Hno Hl].
    cbn [existsb] in Hl. rewrite orb_false_r in Hl.
    destruct (IH s1 eq_refl Hno) as [IHp IHl]. clear IH H1 Hno.
    step_cases Hstep; norm_state.
    all: try (pose proof (Forall_lookup_1 _ _ _ _ IHp Hi) as Ht; simpl in Ht;
              apply andb_true_iff in Ht as [Hins Hk]).
    all: try match goal with
             | Hj : pool _ !! ?j = Some ?tj |- _ =>
                 lazymatch tj with
                 | _ :: _ => fail
                 | _ => pose proof (Forall_lookup_1 _ _ _ _ IHp Hj) as Htj;
                        destruct tj; simpl in Htj;
                        [|apply andb_true_iff in Htj as [_ Htj]]
                 end
             end.
    all: try match goal with
             | H : ok (IncrAndTest _) = true |- _ => pose proof (ok_incr _ H)
             | H : ok (RecvClosedOrDefault _) = true |- _ => pose proof (ok_recv _ H)
             | H : ok (Forever _) = true |- _ => pose proof (ok_forever _ H)
             end.
    all: split.
    all: repeat first [ assumption
                      | apply Forall_insert
                      | apply Forall_app; split
                      | apply Forall_cons; split
                      | apply Forall_nil
                      | by apply ok_ice
                      | by apply ok_message
                      | by apply bad_call
                      | by apply bad_once
                      | by apply bad_reset
                      | apply bad_tick
                      | apply bad_sleep
                      | rewrite forallb_app; apply andb_true_iff; split
                      | (simpl; apply andb_true_iff; split)
                      | done ].
Qed.

Lemma caused ls s e :
  run cb init ls = Some s ->
  bad e = true ->
  In e (history s) ->
  exists l, In l ls /\ trig l = true.
Proof.
  intros Hrun Hbad Hin. apply existsb_exists.
  destruct (existsb trig ls) eqn:Hno; [done|].
  destruct (untriggered ls s Hrun Hno) as [_ Hlog].
  unfold history in Hin. apply list_elem_of_In in Hin. rewrite elem_of_reverse in Hin.
  rewrite Forall_forall in Hlog. specialize (Hlog e Hin). congruence.
Qed.
End Provenance.

(** X14: in every run of the bridge, the exit callback is entered from
    the ICE handler only if the library reported Failed, Closed or
    Disconnected; [startStreaming] is called only if it reported Connected;
    and the counter is reset only if a health-check message came in. *)
Theorem nothing_without_its_cause (ls : list label) (s : state) :
  run onExitCb init ls = Some s ->
  (In (EvExitCb ByIce) (history s) ->
     exists st, is_terminal st = true /\ In (IceStateChange st) ls)
  /\ (In (EvCall StartStreaming) (history s) -> In (IceStateChange ICEConnected) ls)
  /\ (In EvHealthMsg (history s) -> In HealthMessage ls).
Proof.
  intros Hrun. split; [|split]; intros Hin.
  - destruct (caused no_ice_exit is_ice_exit is_terminal_change onExitCb
                (fun _ H => H) (fun _ H => H) (fun _ H => H) eq_refl eq_refl eq_refl
                (fun _ => eq_refl)
                (fun st => ltac:(by destruct st))
                (fun c _ => eq_refl)
                (fun who => ltac:(by destruct who))
                (fun _ => eq_refl) (fun _ => eq_refl) (fun _ => eq_refl)
                ls s (EvExitCb ByIce) Hrun eq_refl Hin) as ([i|st|] & Hl & Ht); try discriminate Ht.
    by exists st.
  - destruct (caused no_streaming is_streaming is_connected_change onExitCb
                (fun _ H => H) (fun _ H => H) (fun _ H => H) eq_refl eq_refl eq_refl
                (fun _ => eq_refl)
                (fun st => ltac:(by destruct st))
                (fun c => ltac:(by destruct c))
                (fun _ _ => eq_refl)
                (fun _ => eq_refl) (fun _ => eq_refl) (fun _ => eq_refl)
                ls s (EvCall StartStreaming) Hrun eq_refl Hin) as ([i|st|] & Hl & Ht); try discriminate Ht.
    by destruct st.
  - destruct (caused no_reset is_reset is_health_message onExitCb
                (fun _ H => H) (fun _ H => H) (fun _ H => H) eq_refl eq_refl eq_refl
                (fun H => ltac:(discriminate H))
                (fun st => ltac:(by destruct st))
                (fun _ _ => eq_refl)
                (fun _ _ => eq_refl)
                (fun H => ltac:(discriminate H)) (fun _ => eq_refl) (fun _ => eq_refl)
                ls s EvHealthMsg Hrun eq_refl Hin) as ([i|st|] & Hl & Ht); try discriminate Ht.
    exact Hl.
Qed.

Lemma nothing_without_its_cause_witness :
  exists st, is_terminal st = true /\ In (IceStateChange st) ice_failure_run.
Proof.
  assert (H : exists s, run onExitCb init ice_failure_run = Some s
                        /\ In (EvExitCb ByIce) (history s)).
  { eexists. split; [vm_compute; reflexivity|]. vm_compute. tauto. }
  destruct H as (s & Hrun & Hin).
  exact (proj1 (nothing_without_its_cause ice_failure_run s Hrun) Hin).
Defined.

(** ** The bridge: [StopClient] and the worker *)

Lemma find_sender_None (p : list thread) :
  find_sender p = None -> forall j t, p !! j = Some t -> is_sending t = false.
Proof.
  induction p as [|t0 p IH]; intros H j t Hj; [done|].
  cbn [find_sender] in H. destruct (is_sending t0) eqn:Ht0; [done|].
  destruct (find_sender p); [done|].
  destruct j as [|j]; cbn in Hj; [by injection Hj as <- | by apply (IH eq_refl j)].
Qed.

(** A goroutine that has returned, or is about to, is not moved by the
    others. *)
Lemma worker_stopped_step cb s l s' :
  worker_stopped s -> step cb s l = Some s' -> worker_stopped s'.
Proof.
  intros Hw Hstep.
  assert (H0 : exists t : list instr, pool s !! 0%nat = Some t /\ is_sending t = false
                         /\ (t = [] \/ exists k, t = Return :: k)).
  { destruct Hw as [H | [k H]]; eexists; (split; [exact H|]); split; eauto. }
  destruct H0 as (t & H0 & Hns & Ht).
  assert (Hlen : (0 < length (pool s))%nat) by (by eapply lookup_lt_Some).
  assert (Hkeep : forall p : list thread, p !! 0%nat = Some t ->
            (p !! 0%nat = Some [] \/ exists k, p !! 0%nat = Some (Return :: k))).
  { intros p Hp. destruct Ht as [-> | [k ->]]; eauto. }
  unfold worker_stopped.
  destruct l as [i|st|].
  - destruct (decide (i = 0%nat)) as [->|Hne].
    + cbn [step] in Hstep. rewrite H0 in Hstep.
      destruct Ht as [-> | [k ->]]; [discriminate Hstep|].
      cbn [exec] in Hstep. injection Hstep as <-. left. norm_state.
      by apply list_lookup_insert_eq.
    + run_cases Hstep; norm_state; apply Hkeep;
        rewrite ?list_lookup_insert_ne by done; try exact H0.
      apply find_sender_Some in Heqo as [k' Hs].
      rewrite list_lookup_insert_ne; [exact H0|].
      intros ->. rewrite H0 in Hs. injection Hs as ->. discriminate Hns.
  - cbn [step] in Hstep. injection Hstep as <-. norm_state. apply Hkeep.
    by apply lookup_app_l_Some.
  - cbn [step] in Hstep. injection Hstep as <-. norm_state. apply Hkeep.
    by apply lookup_app_l_Some.
Qed.

Lemma recv_returns_pool s :
  reachable onExitCb s -> Forall (fun t => forallb recv_returns t = true) (pool s).
Proof.
  apply (hereditary_pool recv_returns onExitCb); try done.
  - intros t H. destruct t as [|[] [|]]; done.
  - by intros [].
Qed.

(** Until the worker has stopped, the exit callback has not got past the
    send on [w.closed]. *)
Lemma signal_invariant s :
  reachable onExitCb s ->
  worker_stopped s
  \/ exitOnce s = OnceFresh
  \/ (exitOnce s = OnceRunning /\ exists i n, runs_callback s i n /\ (n <= 5)%nat).
Proof.
  intros Hr. induction Hr as [|s l s' Hrs IH Hstep] using reachable_ind; [by right; left|].
  destruct IH as [Hw | [Hfresh | (Hrun & i0 & n & Hrc & Hn)]].
  - left. by eapply worker_stopped_step.
  - pose proof (teardown_invariant s Hrs) as Hinv. unfold teardown_inv in Hinv.
    rewrite Hfresh in Hinv. destruct Hinv as [Hq Htc].
    destruct (teardown_inv_idle s l s' OnceFresh (or_introl eq_refl) Hfresh Hq Hstep)
      as [(Ho & _) | (_ & Ho & Htc' & i & k & Hi & Hk & Hothers)].
    + right. by left.
    + right. right. split; [done|]. exists i, 0%nat. split; [|lia].
      split; [simpl; lia|]. split; [by exists k|]. split; [done|].
      by rewrite Htc', Htc.
  - destruct (teardown_inv_running s l s' i0 n Hrun Hrc Hstep)
      as [(Ho & Hrc' & _) | [(Ho & Hrc' & _ & Hn5)
          | [(_ & _ & -> & i & r & k & Hi0 & -> & Hi) | (_ & _ & Hlen & _)]]].
    + right. right. split; [done|]. by exists i0, n.
    + right. right. split; [done|]. exists i0, (S n). split; [done | lia].
    + destruct (decide (i = 0%nat)) as [->|Hne];
        [|by pose proof (handlers_plain_invariant s Hrs i _ Hne Hi)].
      pose proof (Forall_lookup_1 _ _ _ _ (recv_returns_pool s Hrs) Hi) as Hrr.
      cbn [forallb] in Hrr. apply andb_true_iff in Hrr as [Hrr _].
      assert (r = [Return]) as -> by (destruct r as [|[] [|]]; done).
      left. right. exists k.
      destruct Hrc as (_ & (k0 & Hsend & _) & _).
      cbn [step] in Hstep. rewrite Hi in Hstep. cbn [exec] in Hstep.
      destruct (find_sender (pool s)) as [j|] eqn:Hfs.
      * destruct (pool s !! j) as [tj|]; [|discriminate Hstep].
        injection Hstep as <-. norm_state.
        apply list_lookup_insert_eq. rewrite length_insert. by eapply lookup_lt_Some.
      * by pose proof (find_sender_None _ Hfs _ _ Hsend).
    + simpl in Hlen. lia.
Qed.

(** X15: when a call of the exit callback that follows [StopClient] has
    been made (closing a listener, closing a queue, closing the relayer),
    the worker goroutine has taken the signal on [w.closed]: it has
    returned, or its next step is the return. *)
Theorem worker_stopped_after_StopClient (s : state) (c : call) :
  reachable onExitCb s ->
  In c (drop 5 teardown_order) ->
  In (EvCall c) (history s) ->
  worker_stopped s.
Proof.
  intros Hr Hc Hin.
  assert (Htc : In c (teardown_calls (history s))).
  { apply In_teardown_calls; [done|]. cbn in Hc.
    repeat (destruct Hc as [<- | Hc]; [reflexivity|]). destruct Hc. }
  destruct (signal_invariant s Hr) as [Hw | [Hfresh | (Hrun & i & n & Hrc & Hn)]]; [done| |].
  - pose proof (teardown_invariant s Hr) as Hinv. unfold teardown_inv in Hinv.
    rewrite Hfresh in Hinv. destruct Hinv as [_ Hnil]. rewrite Hnil in Htc. destruct Htc.
  - destruct Hrc as (_ & _ & _ & Hcalls). rewrite Hcalls in Htc. exfalso.
    cbn in Hc.
    do 6 (destruct n as [|n];
          [cbn in Htc;
           repeat (destruct Hc as [<- | Hc]; [intuition discriminate|]); destruct Hc|]).
    lia.
Qed.

Lemma worker_stopped_after_StopClient_witness :
  exists s, run onExitCb init ice_failure_run = Some s /\ worker_stopped s.
Proof.
  assert (H : exists s, run onExitCb init ice_failure_run = Some s
                        /\ In (EvCall RelayerClose) (history s)).
  { eexists. split; [vm_compute; reflexivity|]. vm_compute. tauto. }
  destruct H as (s & Hrun & Hin). exists s. split; [exact Hrun|].
  apply (worker_stopped_after_StopClient s RelayerClose); [by exists ice_failure_run | | exact Hin].
  cbn. tauto.
Defined.

(** ** Start and teardown *)

Lemma filter_all {A} (P : A -> Prop) `{forall x, Decision (P x)} (l : list A) :
  Forall P l -> filter P l = l.
Proof.
  induction 1 as [|x l Hx _ IH]; [done|]. by rewrite filter_cons_True, IH.
Qed.

Lemma filter_ne_cons_eq {A} `{EqDecision A} (x : A) (l : list A) :
  filter (fun y => y <> x) (x :: l) = filter (fun y => y <> x) l.
Proof. by rewrite filter_cons_False by (intros H; by apply H). Qed.

Lemma filter_ne_cons_ne {A} `{EqDecision A} (x y : A) (l : list A) :
  y <> x -> filter (fun y => y <> x) (y :: l) = y :: filter (fun y => y <> x) l.
Proof. intros H. by rewrite filter_cons_True. Qed.

(** X16: if a START succeeds in a world where the session id has no
    sandbox yet, then once every call of its exit callback has been made
    the open sockets, the running relayers and the sandboxes are those from
    before the START, and the bridge it created is stopped: the teardown
    releases what the start allocated, and nothing else. *)
Theorem teardown_undoes_start (o : oracle) (id : string) (w w' : world) (b : bridge) :
  startSession o id w = (Some b, w') ->
  ports_below w ->
  Forall (fun r : socket * socket * socket => In (fst (fst r)) (sockets w)) (relayers w) ->
  Forall (fun vm : string * (Z * Z * Z) => fst vm <> id) (vms w) ->
  sockets (torn_down (captured_by id w b) w') = sockets w
  /\ relayers (torn_down (captured_by id w b) w') = relayers w
  /\ vms (torn_down (captured_by id w b) w') = vms w
  /\ stopped (torn_down (captured_by id w b) w') = b :: stopped w.
Proof.
  intros Hs Hports Hrel Hvms.
  destruct (startSession_ok o id w (startSession_Some _ _ _ _ _ Hs))
    as (w'' & Hs' & _ & Hsock & Hr & Hvm & _ & Hst & _).
  rewrite Hs in Hs'. injection Hs' as -> <-.
  assert (Hfresh : forall l q, next_port w <= q -> Forall (fun s : socket => s <> (l, q)) (sockets w)).
  { intros l q Hq. eapply Forall_impl; [exact Hports|].
    intros [l' q'] Hlt [= -> ->]. cbn in Hlt. lia. }
  unfold torn_down, captured_by. cbn.
  rewrite Hsock, Hr, Hvm, Hst. repeat split.
  - rewrite !filter_app.
    rewrite !(filter_all _ (sockets w)) by (apply Hfresh; lia).
    repeat first [ rewrite filter_ne_cons_eq
                 | rewrite filter_ne_cons_ne by discriminate
                 | rewrite filter_nil ].
    by rewrite app_nil_r.
  - rewrite filter_app, filter_all.
    + rewrite filter_ne_cons_eq, filter_nil. by rewrite app_nil_r.
    + rewrite Forall_forall in Hrel. apply Forall_forall. intros [[v a] i] Hin Heq.
      specialize (Hrel _ Hin). cbn in Hrel. injection Heq as -> _ _.
      pose proof (Hfresh VideoListener (next_port w) ltac:(lia)) as Hf.
      rewrite Forall_forall in Hf. apply list_elem_of_In in Hrel. by apply (Hf _ Hrel).
  - rewrite filter_app, filter_all by done.
    rewrite filter_cons_False by (intros H; by apply H).
    rewrite filter_nil. by rewrite app_nil_r.
Qed.

Lemma teardown_undoes_start_witness :
  let w := world0 40000 in
  let o := mkOracle never_fails "offer" Accepted in
  sockets (torn_down (captured_by "10.0.0.7:5500" w 0%nat) (snd (startSession o "10.0.0.7:5500" w)))
  = [].
Proof.
  intros w o.
  apply (teardown_undoes_start o "10.0.0.7:5500" w (snd (startSession o "10.0.0.7:5500" w)) 0%nat).
  - reflexivity.
  - constructor.
  - constructor.
  - constructor.
Defined.

(** ** The bridge: the mutex of the health check *)

Lemma disciplined_cons (i : instr) (k : thread) :
  disciplined (i :: k) = true <-> follows i (in_critical k) = true /\ disciplined k = true.
Proof. unfold disciplined. cbn [chain]. apply andb_true_iff. Qed.

Lemma exits_disciplined (m k : thread) :
  exits m = true -> disciplined k = true ->
  disciplined (m ++ k) = true /\ in_critical (m ++ k) = false.
Proof.
  intros Hm Hk. induction m as [|i m IH]; [done|].
  assert (Hcases : (i = Return /\ m = []) \/ (simple i = true /\ exits m = true)).
  { destruct i; cbn in Hm; try discriminate Hm;
      try (right; split; [reflexivity | exact Hm]).
    destruct m; [by left | discriminate Hm]. }
  destruct Hcases as [[-> ->] | [Hi Hm']].
  - by split.
  - destruct (IH Hm') as [IH1 IH2]. cbn [app].
    split; [|by destruct i].
    apply disciplined_cons. split; [|done]. rewrite IH2. by destruct i.
Qed.

Lemma simple_disciplined (a b : thread) :
  forallb simple a = true -> disciplined b = true -> in_critical b = false ->
  disciplined (a ++ b) = true /\ in_critical (a ++ b) = false.
Proof.
  intros Ha Hb Hc. induction a as [|i a IH]; [by split|].
  cbn in Ha. apply andb_true_iff in Ha as [Hi Ha]. destruct (IH Ha) as [IH1 IH2].
  cbn [app]. split; [|by destruct i].
  apply disciplined_cons. split; [|done]. rewrite IH2. by destruct i.
Qed.

Lemma disciplined_app (a b : thread) :
  disciplined a = true -> disciplined b = true -> in_critical b = false ->
  disciplined (a ++ b) = true.
Proof.
  intros Ha Hb Hc. induction a as [|i a IH]; [done|].
  apply disciplined_cons in Ha as [Hi Ha]. cbn [app]. apply disciplined_cons.
  split; [|by apply IH]. destruct a as [|i' a]; [|exact Hi].
  cbn [app]. by rewrite Hc.
Qed.

Lemma in_critical_app (a b : thread) :
  in_critical a = false -> in_critical b = false -> in_critical (a ++ b) = false.
Proof. by destruct a as [|[] a]. Qed.

(** How the goroutines inside the critical section change with the pool. *)
Lemma exclusive_leave (p : list thread) (held : bool) (i : nat) (t : thread) :
  exclusive p held -> in_critical t = false -> exclusive (<[i:=t]> p) held.
Proof.
  intros [Hu Hl] Ht. split.
  - intros j1 j2 t1 t2 H1 H2 C1 C2.
    apply list_lookup_insert_Some in H1 as [(_ & <- & _) | (_ & H1)]; [congruence|].
    apply list_lookup_insert_Some in H2 as [(_ & <- & _) | (_ & H2)]; [congruence|].
    by apply (Hu j1 j2 t1 t2).
  - intros j t' H C.
    apply list_lookup_insert_Some in H as [(_ & <- & _) | (_ & H)]; [congruence|].
    by apply (Hl j t').
Qed.

Lemma exclusive_unlock (p : list thread) (held : bool) (i : nat) (ti t : thread) :
  exclusive p held -> p !! i = Some ti -> in_critical ti = true -> in_critical t = false ->
  exclusive (<[i:=t]> p) false.
Proof.
  intros [Hu Hl] Hi Hti Ht.
  assert (Hnone : forall j t', <[i:=t]> p !! j = Some t' -> in_critical t' = false).
  { intros j t' H. apply list_lookup_insert_Some in H as [(_ & <- & _) | (Hne & H)]; [done|].
    destruct (in_critical t') eqn:C; [|done].
    by pose proof (Hu i j ti t' Hi H Hti C). }
  split.
  - intros j1 j2 t1 t2 H1 _ C1 _. pose proof (Hnone _ _ H1). congruence.
  - intros j t' H C. pose proof (Hnone _ _ H). congruence.
Qed.

Lemma exclusive_stay (p : list thread) (held : bool) (i : nat) (ti t : thread) :
  exclusive p held -> p !! i = Some ti -> in_critical ti = true ->
  exclusive (<[i:=t]> p) held.
Proof.
  intros [Hu Hl] Hi Hti.
  assert (Honly : forall j t', <[i:=t]> p !! j = Some t' -> in_critical t' = true -> j = i).
  { intros j t' H C. apply list_lookup_insert_Some in H as [(-> & _) | (_ & H)]; [done|].
    symmetry. by apply (Hu i j ti t'). }
  split.
  - intros j1 j2 t1 t2 H1 H2 C1 C2. rewrite (Honly _ _ H1 C1), (Honly _ _ H2 C2). done.
  - intros _ _ _ _. by apply (Hl i ti).
Qed.

Lemma exclusive_lock (p : list thread) (i : nat) (t : thread) :
  exclusive p false -> exclusive (<[i:=t]> p) true.
Proof.
  intros [_ Hl].
  assert (Honly : forall j t', <[i:=t]> p !! j = Some t' -> in_critical t' = true -> j = i).
  { intros j t' H C. apply list_lookup_insert_Some in H as [(-> & _) | (_ & H)]; [done|].
    by pose proof (Hl j t' H C). }
  split; [|done].
  intros j1 j2 t1 t2 H1 H2 C1 C2. rewrite (Honly _ _ H1 C1), (Honly _ _ H2 C2). done.
Qed.

Lemma exclusive_spawn (p : list thread) (held : bool) (t : thread) :
  exclusive p held -> in_critical t = false -> exclusive (p ++ [t]) held.
Proof.
  intros [Hu Hl] Ht.
  assert (Hold : forall j t', (p ++ [t]) !! j = Some t' -> in_critical t' = true ->
                              p !! j = Some t').
  { intros j t' H C. apply lookup_app_Some in H as [H | [_ H]]; [done|].
    destruct (j - length p)%nat; cbn in H; [|done]. injection H as <-. congruence. }
  split.
  - intros j1 j2 t1 t2 H1 H2 C1 C2. apply (Hu j1 j2 t1 t2); auto.
  - intros j t' H C. apply (Hl j t'); auto.
Qed.

Lemma handlers_disciplined st :
  disciplined (onICEConnectionStateChange st) = true
  /\ in_critical (onICEConnectionStateChange st) = false.
Proof. by destruct st. Qed.

(* What the discipline says of the goroutine that moves, and of the sender
   it meets. *)
Ltac discipline_facts IHd :=
  try match goal with
      | Hi : pool _ !! _ = Some (_ :: _) |- _ =>
          let Ht := fresh "Ht" in
          pose proof (Forall_lookup_1 _ _ _ _ IHd Hi) as Ht;
          apply disciplined_cons in Ht as [Hins Hk]; cbn [follows] in Hins
      end;
  try match goal with
      | Hs : find_sender _ = Some ?j |- _ =>
          apply find_sender_Some in Hs as [k' Hs];
          pose proof (Forall_lookup_1 _ _ _ _ IHd Hs) as Hsd;
          apply disciplined_cons in Hsd as [Hsi Hsk]; cbn [follows] in Hsi
      end;
  repeat match goal with
         | H : _ && _ = true |- _ => apply andb_true_iff in H as [? ?]
         | H : negb _ = true |- _ => apply negb_true_iff in H
         | H : Some _ = Some _ |- _ => injection H as <-
         end;
  try match goal with
      | Hs : pool ?s !! ?j = Some (SendClosed :: ?k'), Hj : pool ?s !! ?j = Some ?tj |- _ =>
          rewrite Hs in Hj; injection Hj as <-; cbn [tail]
      end;
  try match goal with
      | H : exits ?m = true |- context [?m ++ ?k] =>
          destruct (exits_disciplined m k H ltac:(assumption)) as [? ?]
      end;
  try match goal with
      | Hb : chain follows ?body = true |- context [?body ++ Forever ?body :: ?k] =>
          assert (disciplined (body ++ Forever body :: k) = true)
            by (apply disciplined_app; [exact Hb | | reflexivity];
                apply disciplined_cons; split; [|assumption];
                cbn [follows]; apply andb_true_iff; split;
                [apply andb_true_iff; split; [by apply negb_true_iff | exact Hb]
                | by apply negb_true_iff]);
          assert (in_critical (body ++ Forever body :: k) = false)
            by (by apply in_critical_app)
      end.

(** The discipline is kept, and with it mutual exclusion. *)
Lemma lock_invariant s :
  reachable onExitCb s ->
  Forall (fun t => disciplined t = true) (pool s) /\ exclusive (pool s) (lock s).
Proof.
  intros Hr. induction Hr as [|s l s' _ [IHd IHx] Hstep] using reachable_ind.
  - split; [by repeat constructor|]. split.
    + intros [|i] [|j] ti tj H1 H2 C1 C2; try done; injection H1 as <-; discriminate C1.
    + intros [|i] t H C; [|done]. injection H as <-. discriminate C.
  - step_cases Hstep; norm_state; discipline_facts IHd.
    all: split.
    all: try (repeat first [ assumption
                           | apply Forall_insert
                           | apply Forall_app; split
                           | apply Forall_cons; split
                           | apply Forall_nil
                           | apply handlers_disciplined
                           | done ]; fail).
    all: try (repeat apply exclusive_leave; first [assumption | done]; fail).
    all: try (apply exclusive_spawn; [assumption | first [apply handlers_disciplined | done]]; fail).
    all: try (eapply exclusive_stay; [exact IHx | exact Hi | reflexivity]; fail).
    all: try (eapply exclusive_unlock; [exact IHx | exact Hi | reflexivity | assumption]; fail).
    all: try (apply exclusive_lock; congruence).
    apply Forall_insert; [assumption|].
    unfold disciplined in *. cbn. rewrite Hins. exact Hk.
Qed.

(** X17: in every state the bridge can reach, at most one goroutine is
    between its [lock.Lock()] and its [lock.Unlock()], about to update
    [missedHealthCheckCounts] or to release the mutex, and the mutex is then
    held: the worker's increment-and-test and the handler's reset never
    interleave. *)
Theorem counter_updates_are_exclusive (s : state) :
  reachable onExitCb s -> mutual_exclusion s.
Proof. intros Hr. apply (lock_invariant s Hr). Qed.

Lemma counter_updates_are_exclusive_witness :
  exists s, run onExitCb init [HealthMessage; Run 0; Run 0; Run 0] = Some s
            /\ lock s = true.
Proof.
  assert (H : exists s, run onExitCb init [HealthMessage; Run 0; Run 0; Run 0] = Some s
                        /\ exists t, pool s !! 0%nat = Some t /\ in_critical t = true).
  { eexists. split; [vm_compute; reflexivity|]. eexists. split; reflexivity. }
  destruct H as (s & Hrun & t & Ht & Hc). exists s. split; [exact Hrun|].
  apply (proj2 (counter_updates_are_exclusive s (ex_intro _ _ Hrun)) 0%nat t Ht Hc).
Defined.

Lemma since_expiry_snoc (h : list event) (e : event) :
  since_expiry (h ++ [e])
  = match since_expiry h with
    | Some post => Some (post ++ [e])
    | None => if is_expiry_tick e then Some [] else None
    end.
Proof.
  induction h as [|e0 h IH]; cbn [app since_expiry]; [by destruct (is_expiry_tick e)|].
  by destruct (is_expiry_tick e0).
Qed.

Lemma exclusive_none (p : list thread) :
  exclusive p false -> Forall (fun t => in_critical t = false) p.
Proof.
  intros [_ Hl]. apply Forall_lookup. intros i t Hi.
  destruct (in_critical t) eqn:C; [|done]. by pose proof (Hl i t Hi C).
Qed.

(** X18: once the worker has counted to [MaxMissedHealthCheck] it leaves
    the mutex locked for ever: in every later state the mutex is held, the
    counter is still at the maximum, no goroutine is inside the critical
    section, and neither a tick nor a reset has been recorded since, so a
    health-check message that comes in after the expiry is never
    processed. *)
Theorem mutex_stays_locked_after_expiry (s : state) (post : list event) :
  reachable onExitCb s ->
  since_expiry (history s) = Some post ->
  lock s = true
  /\ missedHealthCheckCounts s = MaxMissedHealthCheck
  /\ Forall (fun t => in_critical t = false) (pool s)
  /\ beats post = [].
Proof.
  intros Hr. revert post.
  induction Hr as [|s l s' Hrs IH Hstep] using reachable_ind; [discriminate|].
  destruct (lock_invariant s Hrs) as [Hd Hx].
  intros post Hpost.
  destruct (since_expiry (history s)) as [post0|] eqn:Hse.
  - destruct (IH post0 eq_refl) as (Hl & Hc & Hnc & Hb). clear IH.
    step_cases Hstep; norm_state; rewrite ?since_expiry_snoc, ?Hse in Hpost;
      injection Hpost as <-.
    all: try (pose proof (Forall_lookup_1 _ _ _ _ Hnc Hi) as Hci; cbn in Hci).
    all: try discriminate Hci.
    all: try congruence.
    all: discipline_facts Hd.
    all: rewrite ?beats_snoc, ?Hb; cbn.
    all: repeat split; try done.
    all: try (repeat first [ assumption
                           | apply Forall_insert
                           | apply Forall_app; split
                           | apply Forall_cons; split
                           | apply Forall_nil
                           | apply handlers_disciplined
                           | done ]; fail).
  - clear IH.
    step_cases Hstep; norm_state; rewrite ?since_expiry_snoc, ?Hse in Hpost;
      cbn [is_expiry_tick] in Hpost; try discriminate Hpost.
    all: try match goal with
             | E : (_ =? _) = _ |- _ => rewrite E in Hpost
             end.
    all: try discriminate Hpost.
    injection Hpost as <-.
    discipline_facts Hd.
    apply Z.eqb_eq in Heqb.
    split; [by apply (proj2 Hx i _ Hi)|]. split; [done|]. split; [|done].
    apply exclusive_none.
    by eapply exclusive_unlock; [exact Hx | exact Hi | reflexivity | ].
Qed.

Lemma mutex_stays_locked_after_expiry_witness :
  exists s, run onExitCb init (silent_run ++ [HealthMessage]) = Some s /\ lock s = true.
Proof.
  assert (H : exists s post, run onExitCb init (silent_run ++ [HealthMessage]) = Some s
                             /\ since_expiry (history s) = Some post).
  { do 2 eexists. split; vm_compute; reflexivity. }
  destruct H as (s & post & Hrun & Hpost). exists s. split; [exact Hrun|].
  exact (proj1 (mutex_stays_locked_after_expiry s post (ex_intro _ _ Hrun) Hpost)).
Defined.
